(** * QuickChat: presence registry, signaling relay and call session

    A shallow embedding of the two pieces of QuickChat that carry protocol
    logic:

    - the Socket.IO handlers of [server/index.cjs] that keep the presence
      maps [onlineUsers] / [userSockets] and relay the WebRTC signaling
      events, and
    - the [VideoCall] React component, whose listeners drive one peer's
      [RTCPeerConnection].

    Handlers are functions from a state and an event to a new state and the
    list of observable effects they perform, in program order. *)

From stdpp Require Import gmap strings list.

Open Scope string_scope.
Open Scope list_scope.

(** ** Payloads carried by the socket events *)

Module Wire.

Abbreviation user_id := string.
Abbreviation socket_id := string.
Abbreviation sdp := string.

Inductive call_type := Audio | Video.

Inductive presence := Online | Offline.

(** [RTCIceCandidateInit]: the dictionary a candidate travels as. *)
Record candidate_init := CandidateInit {
  ci_candidate : string;
  ci_sdpMid : option string;
  ci_sdpMLineIndex : option nat
}.

(** [interface WebRTCOfferData] *)
Record offer_data := OfferData {
  o_to : user_id;
  o_from : user_id;
  o_fromName : string;
  o_offer : sdp;
  o_callType : call_type;
  o_chatId : string
}.

(** [interface WebRTCAnswerData] *)
Record answer_data := AnswerData {
  a_to : user_id;
  a_from : user_id;
  a_answer : sdp;
  a_chatId : string
}.

(** The object emitted by [onicecandidate]: [{ to, candidate, chatId }]. *)
Record ice_data := IceData {
  i_to : user_id;
  i_candidate : candidate_init;
  i_chatId : string
}.

(** [{ to, chatId }] *)
Record ended_data := EndedData {
  e_to : user_id;
  e_chatId : string
}.

(** An event name together with its payload. *)
Inductive signal :=
| WebrtcOffer (d : offer_data)
| WebrtcAnswer (d : answer_data)
| WebrtcIceCandidate (d : ice_data)
| WebrtcCallEnded (d : ended_data)
| CallFailed (reason : string)
| UserStatusChange (userId : user_id) (status : presence).

#[global] Instance call_type_eq_dec : EqDecision call_type.
Proof. solve_decision. Defined.
#[global] Instance presence_eq_dec : EqDecision presence.
Proof. solve_decision. Defined.
#[global] Instance candidate_init_eq_dec : EqDecision candidate_init.
Proof. solve_decision. Defined.
#[global] Instance offer_data_eq_dec : EqDecision offer_data.
Proof. solve_decision. Defined.
#[global] Instance answer_data_eq_dec : EqDecision answer_data.
Proof. solve_decision. Defined.
#[global] Instance ice_data_eq_dec : EqDecision ice_data.
Proof. solve_decision. Defined.
#[global] Instance ended_data_eq_dec : EqDecision ended_data.
Proof. solve_decision. Defined.
#[global] Instance signal_eq_dec : EqDecision signal.
Proof. solve_decision. Defined.

(** The recipient field [data.to] the relay reads. *)
Definition signal_to (m : signal) : option user_id :=
  match m with
  | WebrtcOffer d => Some (o_to d)
  | WebrtcAnswer d => Some (a_to d)
  | WebrtcIceCandidate d => Some (i_to d)
  | WebrtcCallEnded d => Some (e_to d)
  | CallFailed _ | UserStatusChange _ _ => None
  end.

(** The three kinds that make up the offer/answer/ICE exchange. *)
Definition is_negotiation (m : signal) : bool :=
  match m with
  | WebrtcOffer _ | WebrtcAnswer _ | WebrtcIceCandidate _ => true
  | _ => false
  end.

End Wire.

Import Wire.

(** ** The server: [io.on('connection', socket => ...)] in server/index.cjs *)

Module Server.

(** A JavaScript [Set] of socket ids iterates in insertion order, and
    [Array.from(set)[0]] is the oldest member still present: a list
    without repetitions, appended to on [add]. *)
Abbreviation js_set := (list socket_id).

Definition set_add (x : socket_id) (s : js_set) : js_set :=
  if decide (x ∈ s) then s else s ++ [x].

Definition set_delete (x : socket_id) (s : js_set) : js_set :=
  filter (λ y, y ≠ x) s.

(** [const onlineUsers = new Map()] (userId -> Set of socket ids) and
    [const userSockets = new Map()] (socketId -> userId). *)
Record state := State {
  onlineUsers : gmap user_id js_set;
  userSockets : gmap socket_id user_id
}.

Definition init : state := State ∅ ∅.

(** What a handler does to the outside world. *)
Inductive effect :=
| JoinRoom (sid : socket_id) (room : string)        (* socket.join(room) *)
| DbSetStatus (userId : user_id) (s : presence)     (* findByIdAndUpdate *)
| BroadcastFrom (sid : socket_id) (m : signal)      (* socket.broadcast.emit *)
| IoTo (room : string) (m : signal)                 (* io.to(room).emit *)
| SocketEmit (sid : socket_id) (m : signal).        (* socket.emit *)

#[global] Instance effect_eq_dec : EqDecision effect.
Proof. solve_decision. Defined.

(** What reaches the server on a socket. The two handlers that [await]
    the user store carry the outcome of that call: [db_ok = false] is a
    rejected [findByIdAndUpdate]. *)
Inductive event :=
| UserJoin (sid : socket_id) (userId : user_id) (db_ok : bool)
| ClientEmit (sid : socket_id) (m : signal)
| Disconnect (sid : socket_id) (db_ok : bool).

(** [if (userId)]: a string is falsy exactly when it is empty. *)
Definition truthy (s : string) : bool := negb (String.eqb s "").

(** [onlineUsers.get(userId)], as the router reads it: missing and empty
    are treated alike by [recipientSockets && recipientSockets.size > 0]. *)
Definition lookup (st : state) (u : user_id) : js_set :=
  default [] (onlineUsers st !! u).

(** [socket.on('user_join', async (userId) => ...)]. The status update
    and the broadcast sit in one [try] block, the update first. *)
Definition user_join (sid : socket_id) (userId : user_id) (db_ok : bool)
    (st : state) : state * list effect :=
  let ou1 :=
    match onlineUsers st !! userId with
    | Some _ => onlineUsers st
    | None => <[userId := []]> (onlineUsers st)
    end in
  let ou2 := alter (set_add sid) userId ou1 in
  let us2 := <[sid := userId]> (userSockets st) in
  let userSocketCount := length (default [] (ou2 !! userId)) in
  (State ou2 us2,
   JoinRoom sid (String.append "user_" userId) ::
   (if Nat.eqb userSocketCount 1 then
      DbSetStatus userId Online ::
      (if db_ok then [BroadcastFrom sid (UserStatusChange userId Online)]
       else [])
    else [])).

(** [socket.on('disconnect', async () => ...)] *)
Definition disconnect (sid : socket_id) (db_ok : bool) (st : state)
    : state * list effect :=
  match userSockets st !! sid with
  | Some userId =>
      if truthy userId then
        let us' := delete sid (userSockets st) in
        match onlineUsers st !! userId with
        | Some conns =>
            let conns' := set_delete sid conns in
            let remainingConnections := length conns' in
            if Nat.eqb remainingConnections 0 then
              (State (delete userId (onlineUsers st)) us',
               DbSetStatus userId Offline ::
               (if db_ok
                then [BroadcastFrom sid (UserStatusChange userId Offline)]
                else []))
            else
              (State (<[userId := conns']> (onlineUsers st)) us', [])
        | None => (State (onlineUsers st) us', [])
        end
      else (st, [])
  | None => (st, [])
  end.

(** The four [webrtc_*] handlers. No other event name sent by a client
    has a handler that touches the presence maps. *)
Definition relay (sid : socket_id) (m : signal) (st : state) : list effect :=
  match m with
  | WebrtcOffer d =>
      match lookup st (o_to d) with
      | recipientSocketId :: _ => [IoTo recipientSocketId m]
      | [] => [SocketEmit sid (CallFailed "User is offline")]
      end
  | WebrtcAnswer d =>
      match lookup st (a_to d) with
      | recipientSocketId :: _ => [IoTo recipientSocketId m]
      | [] => []
      end
  | WebrtcIceCandidate d =>
      match lookup st (i_to d) with
      | recipientSocketId :: _ => [IoTo recipientSocketId m]
      | [] => []
      end
  | WebrtcCallEnded d =>
      map (λ socketId, IoTo socketId m) (lookup st (e_to d))
  | CallFailed _ | UserStatusChange _ _ => []
  end.

Definition step (st : state) (ev : event) : state * list effect :=
  match ev with
  | UserJoin sid userId db_ok => user_join sid userId db_ok st
  | ClientEmit sid m => (st, relay sid m st)
  | Disconnect sid db_ok => disconnect sid db_ok st
  end.

(** Handlers run one after the other. [onlineUsers] is only written in
    the synchronous prefix of a handler, before its first [await]; the
    [userSockets.delete(socket.id)] that the disconnect handler performs
    after its [await] concerns the closed socket alone, whose entry no
    other handler reads, so each handler is one step. *)
Fixpoint run (st : state) (tr : list event) : state * list effect :=
  match tr with
  | [] => (st, [])
  | ev :: tr' =>
      let '(st1, out1) := step st ev in
      let '(st2, out2) := run st1 tr' in
      (st2, out1 ++ out2)
  end.

Definition final (tr : list event) : state := fst (run init tr).

(** *** Ground truth the registry is meant to track

    The connections that announced themselves as [u] and have not closed
    since, oldest first, read off the event history alone. *)
Definition live_step (u : user_id) (acc : js_set) (ev : event) : js_set :=
  match ev with
  | UserJoin sid userId _ =>
      if decide (userId = u) then set_add sid acc else acc
  | Disconnect sid _ => set_delete sid acc
  | ClientEmit _ _ => acc
  end.

Definition live_connections (tr : list event) (u : user_id) : js_set :=
  fold_left (live_step u) tr [].

(** Histories in which a connection only ever announces one identity,
    and a non-empty one: the binding of a Connection Session is set once.
    (The QuickChat client emits [user_join] with the same id on [connect]
    and again on [reconnect].) [joined] collects the announcements made so
    far. *)
Definition same_identity (sid : socket_id) (u : user_id)
    (p : socket_id * user_id) : bool :=
  negb (String.eqb (fst p) sid) || String.eqb (snd p) u.

Fixpoint one_identity (joined : list (socket_id * user_id))
    (tr : list event) : bool :=
  match tr with
  | [] => true
  | UserJoin sid userId _ :: tr' =>
      truthy userId && forallb (same_identity sid userId) joined
      && one_identity ((sid, userId) :: joined) tr'
  | _ :: tr' => one_identity joined tr'
  end.

(** The [socket.broadcast.emit] calls among the effects of a handler. *)
Definition is_broadcast (e : effect) : bool :=
  match e with
  | BroadcastFrom _ _ => true
  | _ => false
  end.

Definition broadcasts (out : list effect) : list effect :=
  List.filter is_broadcast out.

(** The [io.to(...).emit] calls: what is forwarded, and to whom. *)
Definition is_forward (e : effect) : bool :=
  match e with
  | IoTo _ _ => true
  | _ => false
  end.

Definition forwards (out : list effect) : list effect :=
  List.filter is_forward out.

(** The behaviour the specification text gives a relay whose recipient
    has no connection: nothing but a [call_failed] with the reason
    "recipient unreachable", sent back to the sender. *)
Definition replies_unreachable (st : state) (sid : socket_id) (m : signal)
    : Prop :=
  snd (step st (ClientEmit sid m)) =
  [SocketEmit sid (CallFailed "recipient unreachable")].

(** The rule the specification text gives for the "online" broadcast: it
    goes out exactly when the handler takes the user from no connection
    to one. *)
Definition online_exactly_on_first (st : state) (sid : socket_id)
    (u : user_id) (db_ok : bool) : Prop :=
  broadcasts (snd (step st (UserJoin sid u db_ok))) ≠ [] ↔
  length (lookup st u) = 0 ∧
  length (lookup (fst (step st (UserJoin sid u db_ok))) u) = 1.

(** No key of [onlineUsers] is mapped to the empty set. *)
Definition no_empty_set (st : state) : Prop :=
  ∀ u, onlineUsers st !! u ≠ Some [].

(** The announcements made in a history, latest first. *)
Definition joined_step (acc : list (socket_id * user_id)) (ev : event) :=
  match ev with
  | UserJoin sid u _ => (sid, u) :: acc
  | _ => acc
  end.

Definition joined (acc : list (socket_id * user_id)) (tr : list event) :=
  fold_left joined_step tr acc.

Definition admissible (acc : list (socket_id * user_id)) (ev : event)
    : bool :=
  match ev with
  | UserJoin sid u _ => truthy u && forallb (same_identity sid u) acc
  | _ => true
  end.

(** What ties the two maps to the history of a one-identity run. *)
Record tracks_history (tr : list event) (st : state) : Prop := {
  th_lookup : ∀ u, lookup st u = live_connections tr u;
  th_owner : ∀ sid u,
    sid ∈ live_connections tr u → userSockets st !! sid = Some u;
  th_bound : ∀ sid u,
    userSockets st !! sid = Some u →
    truthy u = true ∧ (sid, u) ∈ joined [] tr
}.

(** Stored sets have no repetitions and hold every bound socket. *)
Record well_kept (st : state) : Prop := {
  wk_nodup : ∀ u, NoDup (lookup st u);
  wk_bound : ∀ sid u, userSockets st !! sid = Some u → sid ∈ lookup st u
}.

End Server.

(** ** The client: the [VideoCall] component

    The component is a set of event handlers over React state, two refs and
    the browser objects they point to. An [async] handler runs up to its
    next [await] in one step and is then parked in [tasks] until the
    browser settles the promise it waits on ([Resume]); handlers of other
    events run in between. React state is read by a handler through the
    closure of the render that created the handler, so the state keeps,
    next to the current values, the values seen by the last committed
    render. Handlers created by the mount effect ([useEffect(..., [callType])],
    which runs once) see the first render, where [localStream] is [null].

    How a promise settles is the browser's choice and comes with the
    [Resume] event; a successful [setLocalDescription],
    [setRemoteDescription] or [replaceTrack] has its documented effect on
    the connection. The events a connection raises ([icecandidate],
    [connectionstatechange], [negotiationneeded]) are inputs as well.

    Presentation-only code (video elements, [remoteStream], mute) is left
    out: it touches neither the peer connection, the queue nor the socket. *)

Module Client.

Record props := Props {
  userId : user_id;
  userName : string;
  friendId : user_id;
  friendName : string;
  chatId : string;
  isInitiator : bool;
  callType : call_type
}.

Inductive call_status := Connecting | Ringing | Connected | Ended.

(** [RTCSignalingState] and [RTCPeerConnectionState] *)
Inductive signaling_state :=
| Stable | HaveLocalOffer | HaveRemoteOffer
| HaveLocalPranswer | HaveRemotePranswer | SignalingClosed.

Inductive connection_state :=
| CsNew | CsConnecting | CsConnected | CsDisconnected | CsFailed | CsClosed.

Inductive track_kind := AudioTrack | VideoTrack.

(** A [MediaStreamTrack]; [t_ended] is [readyState === 'ended']. Tracks
    live in the store [tracks] and are referred to by their index, so a
    stream and a sender holding the same track see the same object. *)
Record track := Track {
  t_kind : track_kind;
  t_enabled : bool;
  t_ended : bool
}.

(** An [RTCIceCandidate] object has the fields of its init dictionary. *)
Definition candidate := candidate_init.

(** [new RTCIceCandidate(init)] throws a [TypeError] when both [sdpMid]
    and [sdpMLineIndex] are null. *)
Definition new_RTCIceCandidate (i : candidate_init) : option candidate :=
  match ci_sdpMid i, ci_sdpMLineIndex i with
  | None, None => None
  | _, _ => Some i
  end.

(** The part of an [RTCPeerConnection] the component reads or drives.
    [senders] holds [sender.track] for each [RTCRtpSender]. *)
Record peer_connection := PeerConnection {
  signalingState : signaling_state;
  connectionState : connection_state;
  remoteDescription : option sdp;
  senders : list (option nat)
}.

Inductive ice_site := Direct | OfferFlush | AnswerFlush.

(** Calls the component makes, in program order. [AddIceCandidate]
    records whether the connection had a remote description when
    [addIceCandidate] was called. *)
Inductive action :=
| Emit (m : signal)
| GetUserMedia (audio video : bool)
| NewPeerConnection
| AddTrack (tid : nat)
| CreateOffer
| CreateAnswer
| SetLocalDescription (d : sdp)
| SetRemoteDescription (d : sdp)
| AddIceCandidate (site : ice_site) (c : candidate) (has_remote : bool)
| QueueCandidate (c : candidate)
| TrackStop (tid : nat)
| PcClose
| ReplaceTrack (sender : nat) (tid : nat)
| SetTimeout (ms : nat)
| OnEndCall.

(** How an awaited promise (or a timer) settles. *)
Inductive result := Rejected | Resolved | ResolvedSdp (d : sdp).

(** Where a suspended handler resumes. *)
Inductive cont :=
| Finished
| KGetUserMedia
| KInitCreateOffer
| KInitSetLocal (offer : sdp)
| KNegCreateOffer
| KNegSetLocal (offer : sdp)
| KOfferSetRemote (d : offer_data)
| KOfferAddIce (d : offer_data)
| KOfferCreateAnswer (d : offer_data)
| KOfferSetLocal (d : offer_data) (answer : sdp)
| KAnswerSetRemote (d : answer_data)
| KAnswerAddIce
| KIceAdd
| KCallFailedTimer (captured : option nat)
| KToggleGetUserMedia (ls : nat)
| KToggleReplace (ls : nat) (sender : nat) (newTrack : nat).

Inductive event :=
| Resume (task : nat) (r : result)
| Recv (m : signal)
| Render
| ClickEndCall
| ClickToggleVideo
| Unmount
| PcIceCandidate (c : option candidate)
| PcConnectionStateChange (s : connection_state)
| PcNegotiationNeeded.

#[global] Instance call_status_eq_dec : EqDecision call_status.
Proof. solve_decision. Defined.
#[global] Instance signaling_state_eq_dec : EqDecision signaling_state.
Proof. solve_decision. Defined.
#[global] Instance connection_state_eq_dec : EqDecision connection_state.
Proof. solve_decision. Defined.
#[global] Instance track_kind_eq_dec : EqDecision track_kind.
Proof. solve_decision. Defined.
#[global] Instance ice_site_eq_dec : EqDecision ice_site.
Proof. solve_decision. Defined.
#[global] Instance action_eq_dec : EqDecision action.
Proof. solve_decision. Defined.
#[global] Instance result_eq_dec : EqDecision result.
Proof. solve_decision. Defined.
#[global] Instance cont_eq_dec : EqDecision cont.
Proof. solve_decision. Defined.

Record state := St {
  (* useState *)
  localStream : option nat;
  isVideoOff : bool;
  callStatus : call_status;
  error : option string;
  (* useRef *)
  peerConnectionRef : option peer_connection;
  iceCandidatesQueue : list candidate;
  (* [localStream] and [isVideoOff] as the last committed render saw them *)
  rendered_localStream : option nat;
  rendered_isVideoOff : bool;
  (* [mounted] of the media effect; the socket listeners are registered
     for as long as the component is mounted *)
  mounted : bool;
  (* browser objects: every track, and the track ids of every MediaStream *)
  tracks : list track;
  streams : list (list nat);
  (* suspended handlers; a task keeps its index for life *)
  tasks : list cont
}.

Definition set_localStream v st :=
  St v (isVideoOff st) (callStatus st) (error st) (peerConnectionRef st)
     (iceCandidatesQueue st) (rendered_localStream st)
     (rendered_isVideoOff st) (mounted st) (tracks st) (streams st)
     (tasks st).
Definition set_isVideoOff v st :=
  St (localStream st) v (callStatus st) (error st) (peerConnectionRef st)
     (iceCandidatesQueue st) (rendered_localStream st)
     (rendered_isVideoOff st) (mounted st) (tracks st) (streams st)
     (tasks st).
Definition set_callStatus v st :=
  St (localStream st) (isVideoOff st) v (error st) (peerConnectionRef st)
     (iceCandidatesQueue st) (rendered_localStream st)
     (rendered_isVideoOff st) (mounted st) (tracks st) (streams st)
     (tasks st).
Definition set_error v st :=
  St (localStream st) (isVideoOff st) (callStatus st) (Some v)
     (peerConnectionRef st) (iceCandidatesQueue st)
     (rendered_localStream st) (rendered_isVideoOff st) (mounted st)
     (tracks st) (streams st) (tasks st).
Definition set_pc v st :=
  St (localStream st) (isVideoOff st) (callStatus st) (error st) (Some v)
     (iceCandidatesQueue st) (rendered_localStream st)
     (rendered_isVideoOff st) (mounted st) (tracks st) (streams st)
     (tasks st).
Definition set_queue v st :=
  St (localStream st) (isVideoOff st) (callStatus st) (error st)
     (peerConnectionRef st) v (rendered_localStream st)
     (rendered_isVideoOff st) (mounted st) (tracks st) (streams st)
     (tasks st).
Definition set_rendered st :=
  St (localStream st) (isVideoOff st) (callStatus st) (error st)
     (peerConnectionRef st) (iceCandidatesQueue st) (localStream st)
     (isVideoOff st) (mounted st) (tracks st) (streams st) (tasks st).
Definition set_mounted v st :=
  St (localStream st) (isVideoOff st) (callStatus st) (error st)
     (peerConnectionRef st) (iceCandidatesQueue st)
     (rendered_localStream st) (rendered_isVideoOff st) v (tracks st)
     (streams st) (tasks st).
Definition set_tracks v st :=
  St (localStream st) (isVideoOff st) (callStatus st) (error st)
     (peerConnectionRef st) (iceCandidatesQueue st)
     (rendered_localStream st) (rendered_isVideoOff st) (mounted st) v
     (streams st) (tasks st).
Definition set_streams v st :=
  St (localStream st) (isVideoOff st) (callStatus st) (error st)
     (peerConnectionRef st) (iceCandidatesQueue st)
     (rendered_localStream st) (rendered_isVideoOff st) (mounted st)
     (tracks st) v (tasks st).
Definition set_tasks v st :=
  St (localStream st) (isVideoOff st) (callStatus st) (error st)
     (peerConnectionRef st) (iceCandidatesQueue st)
     (rendered_localStream st) (rendered_isVideoOff st) (mounted st)
     (tracks st) (streams st) v.

(** *** Browser objects *)

Definition pc_set_signaling (v : signaling_state) (pc : peer_connection) :=
  PeerConnection v (connectionState pc) (remoteDescription pc) (senders pc).
Definition pc_set_connection (v : connection_state) (pc : peer_connection) :=
  PeerConnection (signalingState pc) v (remoteDescription pc) (senders pc).
Definition pc_set_remote (d : sdp) (v : signaling_state)
    (pc : peer_connection) :=
  PeerConnection v (connectionState pc) (Some d) (senders pc).
Definition pc_set_sender (i tid : nat) (pc : peer_connection) :=
  PeerConnection (signalingState pc) (connectionState pc)
    (remoteDescription pc) (<[i := Some tid]> (senders pc)).
(** [pc.close()] *)
Definition pc_close (pc : peer_connection) :=
  PeerConnection SignalingClosed CsClosed (remoteDescription pc) (senders pc).

Definition with_pc (f : peer_connection → peer_connection) (st : state) :=
  match peerConnectionRef st with
  | Some pc => set_pc (f pc) st
  | None => st
  end.

(** [peerConnectionRef.current.remoteDescription] is set *)
Definition has_remote (st : state) : bool :=
  match peerConnectionRef st with
  | Some pc =>
      match remoteDescription pc with
      | Some _ => true
      | None => false
      end
  | None => false
  end.

Definition stop_track (t : track) := Track (t_kind t) (t_enabled t) true.
Definition disable_track (t : track) := Track (t_kind t) false (t_ended t).

(** [stream.getTracks()] *)
Definition stream_tracks (st : state) (ls : nat) : list nat :=
  default [] (streams st !! ls).

Definition is_video (st : state) (tid : nat) : bool :=
  bool_decide (t_kind <$> tracks st !! tid = Some VideoTrack).

(** [stream.getVideoTracks()] *)
Definition video_tracks (st : state) (ls : nat) : list nat :=
  List.filter (is_video st) (stream_tracks st ls).

(** [tids.forEach(track => track.stop())] *)
Definition stop_tracks (tids : list nat) (st : state) : state * list action :=
  (set_tracks (foldl (λ ts tid, alter stop_track tid ts) (tracks st) tids) st,
   map TrackStop tids).

(** [stream.addTrack(track)]: no effect if the track is already there *)
Definition stream_addTrack (ls tid : nat) (st : state) : state :=
  set_streams
    (alter (λ tids, if decide (tid ∈ tids) then tids else tids ++ [tid])
           ls (streams st)) st.

(** [getSenders().find(sender => sender.track?.kind === 'video')], as the
    index of the sender found *)
Fixpoint find_video_sender (st : state) (ss : list (option nat)) (i : nat)
    : option nat :=
  match ss with
  | [] => None
  | s :: ss' =>
      match s with
      | Some tid => if is_video st tid then Some i
                    else find_video_sender st ss' (S i)
      | None => find_video_sender st ss' (S i)
      end
  end.

(** [getUserMedia] resolved: a new stream with one new track per
    requested kind. Returns the stream's index. *)
Definition new_stream (audio video : bool) (st : state) : state * nat :=
  let n := length (tracks st) in
  let new_tracks :=
    (if audio then [Track AudioTrack true false] else []) ++
    (if video then [Track VideoTrack true false] else []) in
  let tids := seq n (length new_tracks) in
  (set_streams (streams st ++ [tids]) (set_tracks (tracks st ++ new_tracks) st),
   length (streams st)).

(** *** The component's functions *)

Definition cleanup (captured : option nat) (st : state)
    : state * list action :=
  let '(st1, a1) :=
    match captured with
    | Some ls => stop_tracks (stream_tracks st ls) st
    | None => (st, [])
    end in
  let '(st2, a2) :=
    match peerConnectionRef st1 with
    | Some pc => (set_pc (pc_close pc) st1, [PcClose])
    | None => (st1, [])
    end in
  (set_callStatus Ended st2, a1 ++ a2).

Definition handleEndCall (pr : props) (captured : option nat) (st : state)
    : state * list action :=
  let '(st1, a) := cleanup captured st in
  (st1,
   Emit (WebrtcCallEnded (EndedData (friendId pr) (chatId pr)))
   :: a ++ [OnEndCall]).

Definition offer_of (pr : props) (offer : sdp) : signal :=
  WebrtcOffer (OfferData (friendId pr) (userId pr) (userName pr) offer
                         (callType pr) (chatId pr)).

(** [initializePeerConnection(stream)] up to its first [await] *)
Definition initializePeerConnection (pr : props) (ls : nat) (st : state)
    : state * list action * cont :=
  let tids := stream_tracks st ls in
  let st1 := set_pc (PeerConnection Stable CsNew None (map Some tids)) st in
  if isInitiator pr then
    (set_callStatus Ringing st1,
     NewPeerConnection :: map AddTrack tids ++ [CreateOffer],
     KInitCreateOffer)
  else (st1, NewPeerConnection :: map AddTrack tids, Finished).

(** One turn of
    [while (queue.length > 0) { c = queue.shift(); await pc.addIceCandidate(c) }]:
    [None] when the loop exits. *)
Definition flush_next (site : ice_site) (st : state)
    : option (state * list action) :=
  match iceCandidatesQueue st with
  | [] => None
  | c :: q => Some (set_queue q st, [AddIceCandidate site c (has_remote st)])
  end.

Definition offer_flush (d : offer_data) (st : state)
    : state * list action * cont :=
  match flush_next OfferFlush st with
  | Some (st1, a) => (st1, a, KOfferAddIce d)
  | None => (st, [CreateAnswer], KOfferCreateAnswer d)
  end.

Definition answer_flush (st : state) : state * list action * cont :=
  match flush_next AnswerFlush st with
  | Some (st1, a) => (st1, a, KAnswerAddIce)
  | None => (set_callStatus Connected st, [], Finished)
  end.

Definition err_connection := "Failed to establish connection.".
Definition err_media :=
  "Could not access camera/microphone. Please check permissions.".
Definition err_toggle := "Failed to toggle video".

(** The tail of [toggleVideo] after [replaceTrack] *)
Definition toggle_finish (ls newTrack : nat) (st : state) : state :=
  set_isVideoOff false (stream_addTrack ls newTrack st).

(** A suspended handler [k] continues with the settled result [r]:
    the new state, what it called, and where it is suspended next.
    [None]: [k] does not wait for a result of this shape. *)
Definition resume (pr : props) (k : cont) (r : result) (st : state)
    : option (state * list action * cont) :=
  match k, r with
  (* initializeMedia *)
  | KGetUserMedia, Resolved =>
      let '(st1, ls) :=
        new_stream true (bool_decide (callType pr = Video)) st in
      if mounted st1 then
        Some (initializePeerConnection pr ls (set_localStream (Some ls) st1))
      else
        let '(st2, a) := stop_tracks (stream_tracks st1 ls) st1 in
        Some (st2, a, Finished)
  | KGetUserMedia, Rejected =>
      if mounted st then
        Some (set_callStatus Ended (set_error err_media st), [], Finished)
      else Some (st, [], Finished)
  (* initializePeerConnection, initiator *)
  | KInitCreateOffer, ResolvedSdp offer =>
      Some (st, [SetLocalDescription offer], KInitSetLocal offer)
  | KInitCreateOffer, Rejected =>
      Some (set_error err_connection st, [], Finished)
  | KInitSetLocal offer, Resolved =>
      Some (with_pc (pc_set_signaling HaveLocalOffer) st,
            [Emit (offer_of pr offer)], Finished)
  | KInitSetLocal _, Rejected =>
      Some (set_error err_connection st, [], Finished)
  (* onnegotiationneeded *)
  | KNegCreateOffer, ResolvedSdp offer =>
      Some (st, [SetLocalDescription offer], KNegSetLocal offer)
  | KNegCreateOffer, Rejected => Some (st, [], Finished)
  | KNegSetLocal offer, Resolved =>
      Some (with_pc (pc_set_signaling HaveLocalOffer) st,
            [Emit (offer_of pr offer)], Finished)
  | KNegSetLocal _, Rejected => Some (st, [], Finished)
  (* socket.on('webrtc_offer') *)
  | KOfferSetRemote d, Resolved =>
      Some (offer_flush d
              (with_pc (pc_set_remote (o_offer d) HaveRemoteOffer) st))
  | KOfferSetRemote _, Rejected =>
      Some (set_error err_connection st, [], Finished)
  | KOfferAddIce d, Resolved => Some (offer_flush d st)
  | KOfferAddIce _, Rejected =>
      Some (set_error err_connection st, [], Finished)
  | KOfferCreateAnswer d, ResolvedSdp answer =>
      Some (st, [SetLocalDescription answer], KOfferSetLocal d answer)
  | KOfferCreateAnswer _, Rejected =>
      Some (set_error err_connection st, [], Finished)
  | KOfferSetLocal d answer, Resolved =>
      Some (set_callStatus Connected (with_pc (pc_set_signaling Stable) st),
            [Emit (WebrtcAnswer
                     (AnswerData (o_from d) (userId pr) answer (o_chatId d)))],
            Finished)
  | KOfferSetLocal _ _, Rejected =>
      Some (set_error err_connection st, [], Finished)
  (* socket.on('webrtc_answer') *)
  | KAnswerSetRemote d, Resolved =>
      Some (answer_flush (with_pc (pc_set_remote (a_answer d) Stable) st))
  | KAnswerSetRemote _, Rejected => Some (st, [], Finished)
  | KAnswerAddIce, Resolved => Some (answer_flush st)
  | KAnswerAddIce, Rejected => Some (st, [], Finished)
  (* socket.on('webrtc_ice_candidate') *)
  | KIceAdd, (Resolved | Rejected) => Some (st, [], Finished)
  (* setTimeout(() => handleEndCall(), 2000) *)
  | KCallFailedTimer captured, Resolved =>
      let '(st1, a) := handleEndCall pr captured st in
      Some (st1, a, Finished)
  (* toggleVideo, turning the camera back on *)
  | KToggleGetUserMedia ls, Resolved =>
      let '(st1, vs) := new_stream false true st in
      let newVideoTrack := default 0 (head (stream_tracks st1 vs)) in
      match peerConnectionRef st1 with
      | Some pc =>
          match find_video_sender st1 (senders pc) 0 with
          | Some i =>
              Some (st1, [ReplaceTrack i newVideoTrack],
                    KToggleReplace ls i newVideoTrack)
          | None => Some (toggle_finish ls newVideoTrack st1, [], Finished)
          end
      | None => Some (set_error err_toggle st1, [], Finished)
      end
  | KToggleGetUserMedia _, Rejected =>
      Some (set_error err_toggle st, [], Finished)
  | KToggleReplace ls i newVideoTrack, Resolved =>
      Some (toggle_finish ls newVideoTrack
              (with_pc (pc_set_sender i newVideoTrack) st),
            [], Finished)
  | KToggleReplace _ _ _, Rejected =>
      Some (set_error err_toggle st, [], Finished)
  | _, _ => None
  end.

Definition spawn (k : cont) (st : state) : state :=
  set_tasks (tasks st ++ [k]) st.

(** [toggleVideo], called from the button of the last committed render *)
Definition toggleVideo (pr : props) (st : state) : state * list action :=
  match rendered_localStream st, callType pr, peerConnectionRef st with
  | Some ls, Video, Some _ =>
      if negb (rendered_isVideoOff st) then
        (set_isVideoOff true
           (set_tracks
              (foldl (λ ts tid, alter disable_track tid ts) (tracks st)
                     (video_tracks st ls)) st),
         [])
      else
        let '(st1, a) := stop_tracks (video_tracks st ls) st in
        (spawn (KToggleGetUserMedia ls) st1, a ++ [GetUserMedia false true])
  | _, _, _ => (st, [])
  end.

(** The socket listeners registered by the second effect *)
Definition on_socket (pr : props) (m : signal) (st : state)
    : state * list action :=
  match m with
  | CallFailed reason =>
      (spawn (KCallFailedTimer (rendered_localStream st))
             (set_error reason st),
       [SetTimeout 2000])
  | WebrtcOffer d =>
      match peerConnectionRef st with
      | Some _ =>
          if bool_decide (o_to d = userId pr) then
            (spawn (KOfferSetRemote d) st, [SetRemoteDescription (o_offer d)])
          else (st, [])
      | None => (st, [])
      end
  | WebrtcAnswer d =>
      match peerConnectionRef st with
      | Some pc =>
          if bool_decide (signalingState pc ≠ Stable) then
            (spawn (KAnswerSetRemote d) st,
             [SetRemoteDescription (a_answer d)])
          else (st, [])
      | None => (st, [])
      end
  | WebrtcIceCandidate d =>
      match peerConnectionRef st with
      | Some pc =>
          match new_RTCIceCandidate (i_candidate d) with
          | Some c =>
              match remoteDescription pc with
              | Some _ =>
                  (spawn KIceAdd st,
                   [AddIceCandidate Direct c (has_remote st)])
              | None =>
                  (set_queue (iceCandidatesQueue st ++ [c]) st,
                   [QueueCandidate c])
              end
          | None => (st, [])
          end
      | None => (st, [])
      end
  | WebrtcCallEnded d =>
      if bool_decide (e_chatId d = chatId pr) then
        handleEndCall pr (rendered_localStream st) st
      else (st, [])
  | UserStatusChange _ _ => (st, [])
  end.

(** The handlers [initializePeerConnection] installs on the connection.
    They were created by the mount effect: their [handleEndCall] closes
    over the first render, where [localStream] is [null]. *)
Definition on_icecandidate (pr : props) (c : option candidate)
    : list action :=
  match c with
  | Some c =>
      [Emit (WebrtcIceCandidate (IceData (friendId pr) c (chatId pr)))]
  | None => []
  end.

Definition on_connectionstatechange (pr : props) (s : connection_state)
    (st : state) : state * list action :=
  let st1 := with_pc (pc_set_connection s) st in
  match s with
  | CsConnected => (set_callStatus Connected st1, [])
  | CsFailed | CsDisconnected | CsClosed => handleEndCall pr None st1
  | CsNew | CsConnecting => (st1, [])
  end.

Definition on_negotiationneeded (st : state) : state * list action :=
  match peerConnectionRef st with
  | Some pc =>
      if bool_decide (signalingState pc ≠ Stable) then (st, [])
      else (spawn KNegCreateOffer st, [CreateOffer])
  | None => (st, [])
  end.

Definition step (pr : props) (st : state) (ev : event)
    : state * list action :=
  match ev with
  | Resume i r =>
      match tasks st !! i with
      | Some k =>
          match resume pr k r st with
          | Some (st1, a, k') => (set_tasks (<[i := k']> (tasks st1)) st1, a)
          | None => (st, [])
          end
      | None => (st, [])
      end
  | Recv m => if mounted st then on_socket pr m st else (st, [])
  | Render => if mounted st then (set_rendered st, []) else (st, [])
  | ClickEndCall =>
      if mounted st then handleEndCall pr (rendered_localStream st) st
      else (st, [])
  | ClickToggleVideo => if mounted st then toggleVideo pr st else (st, [])
  | Unmount =>
      (* both effect clean-ups: [mounted = false; cleanup()] of the mount
         effect, and [socket.off(...)] *)
      if mounted st then cleanup None (set_mounted false st) else (st, [])
  | PcIceCandidate c =>
      match peerConnectionRef st with
      | Some _ => (st, on_icecandidate pr c)
      | None => (st, [])
      end
  | PcConnectionStateChange s =>
      match peerConnectionRef st with
      | Some _ => on_connectionstatechange pr s st
      | None => (st, [])
      end
  | PcNegotiationNeeded => on_negotiationneeded st
  end.

(** First render and mount: [initializeMedia()] has called
    [getUserMedia] and is suspended as task 0. *)
Definition init (pr : props) : state :=
  St None (bool_decide (callType pr = Audio)) Connecting None None []
     None (bool_decide (callType pr = Audio)) true [] [] [KGetUserMedia].

Fixpoint run (pr : props) (st : state) (tr : list event)
    : state * list action :=
  match tr with
  | [] => (st, [])
  | ev :: tr' =>
      let '(st1, a1) := step pr st ev in
      let '(st2, a2) := run pr st1 tr' in
      (st2, a1 ++ a2)
  end.

(** The offer/answer/ICE messages among the calls made *)
Definition negotiation_sent (a : list action) : list signal :=
  omap (λ x, match x with
             | Emit m => if is_negotiation m then Some m else None
             | _ => None
             end) a.

(** Every message put on the socket *)
Definition sent (a : list action) : list signal :=
  omap (λ x, match x with Emit m => Some m | _ => None end) a.

(** Candidates handed to [addIceCandidate] from the queue, candidates
    pushed on the queue, and [addIceCandidate] calls made without a
    remote description, each in program order *)
Definition flushed (a : list action) : list candidate :=
  omap (λ x, match x with
             | AddIceCandidate OfferFlush c _
             | AddIceCandidate AnswerFlush c _ => Some c
             | _ => None
             end) a.

Definition queued (a : list action) : list candidate :=
  omap (λ x, match x with QueueCandidate c => Some c | _ => None end) a.

Definition premature (a : list action) : list candidate :=
  omap (λ x, match x with
             | AddIceCandidate _ c false => Some c
             | _ => None
             end) a.

(** *** What a suspended handler presupposes

    [task_ok has_pc has_remote k]: the handler parked as [k] can only
    exist when the peer connection does ([has_pc]), and the flush loops
    only once it has a remote description; the media request is pending
    only while there is no connection yet. *)
Definition task_ok (has_pc has_rd : bool) (k : cont) : bool :=
  match k with
  | Finished | KCallFailedTimer _ => true
  | KGetUserMedia => negb has_pc
  | KOfferAddIce _ | KAnswerAddIce => has_pc && has_rd
  | _ => has_pc
  end.

Definition has_pc (st : state) : bool :=
  match peerConnectionRef st with
  | Some _ => true
  | None => false
  end.

Record consistent (st : state) : Prop := {
  cons_tasks : ∀ i k,
    tasks st !! i = Some k → task_ok (has_pc st) (has_remote st) k = true;
  cons_media : ∀ i, tasks st !! i = Some KGetUserMedia → i = 0
}.

Definition all_stopped (st : state) (tids : list nat) : bool :=
  forallb (λ tid, match tracks st !! tid with
                  | Some t => t_ended t
                  | None => true
                  end) tids.

(** The remote description of the current connection, if any. *)
Definition remote_of (st : state) : option sdp :=
  peerConnectionRef st ≫= remoteDescription.

(** Once the media request has been answered without a connection being
    made, none is ever made. *)
Definition media_settled (st : state) : Prop :=
  ∀ i, tasks st !! i ≠ Some KGetUserMedia.

(** Senders only hold tracks that exist. *)
Definition senders_exist (st : state) (pc : peer_connection) : bool :=
  forallb (λ s, match s with
                | Some tid => bool_decide (tid < length (tracks st))
                | None => true
                end) (senders pc).

(** The rule the specification text gives for a remote candidate that
    arrives while no remote description is set: it goes on the queue. *)
Definition queues_candidate (pr : props) (st : state) (d : ice_data)
    : Prop :=
  ∃ c, new_RTCIceCandidate (i_candidate d) = Some c ∧
       iceCandidatesQueue (fst (step pr st (Recv (WebrtcIceCandidate d)))) =
       iceCandidatesQueue st ++ [c].

(** Candidates handed to [addIceCandidate], by the listener or from the
    queue *)
Definition applied (a : list action) : list candidate :=
  omap (λ x, match x with AddIceCandidate _ c _ => Some c | _ => None end) a.

End Client.

(** * Further parts of the program *)

(** ** Measures over histories of the server *)

Module ServerHistory.
Import Server.

(** Histories on which the user store never rejects an update and no
    connection announces itself to a user whose set already holds it. *)
Fixpoint steady (st : state) (tr : list event) : bool :=
  match tr with
  | [] => true
  | ev :: tr' =>
      match ev with
      | UserJoin sid u db_ok => db_ok && bool_decide (sid ∉ lookup st u)
      | Disconnect _ db_ok => db_ok
      | ClientEmit _ _ => true
      end && steady (fst (step st ev)) tr'
  end.

(** How often [user_status_change] with status [s] was broadcast for [u]. *)
Definition status_count (u : user_id) (s : presence) (out : list effect)
    : nat :=
  length (List.filter
            (λ e, match e with
                  | BroadcastFrom _ (UserStatusChange u' s') =>
                      bool_decide (u' = u) && bool_decide (s' = s)
                  | _ => false
                  end) out).

(** 1 when the user has an entry, 0 otherwise. *)
Definition present (st : state) (u : user_id) : nat :=
  match lookup st u with
  | [] => 0
  | _ :: _ => 1
  end.

(** *** The [status_update] handler

    [socket.on('status_update', async (data) => ...)] writes
    [data.status] to the user store and, when that went through, relays
    [data] as [user_status_change] to every other socket; it reads and
    writes neither map. [data] is what the client sent, [None] for a
    payload without fields to read ([undefined], [null]): reading
    [data.userId] then throws inside the [try]. *)
Record status_data := StatusData {
  sd_userId : string;
  sd_status : string
}.

(** What reaches the server, the [status_update] event included *)
Inductive request :=
| Handled (ev : event)
| StatusUpdate (sid : socket_id) (data : option status_data) (db_ok : bool).

(** What the server does in answer: an effect of the other handlers, or
    one of the two calls of [status_update] *)
Inductive emission :=
| Made (e : effect)
| DbSetStatusTo (userId status : string)
| Relay (sid : socket_id) (data : status_data).

Definition status_update (sid : socket_id) (data : option status_data)
    (db_ok : bool) : list emission :=
  match data with
  | Some d =>
      DbSetStatusTo (sd_userId d) (sd_status d) ::
      (if db_ok then [Relay sid d] else [])
  | None => []
  end.

Definition serve (st : state) (rq : request) : state * list emission :=
  match rq with
  | Handled ev => (fst (step st ev), map Made (snd (step st ev)))
  | StatusUpdate sid data db_ok => (st, status_update sid data db_ok)
  end.

Fixpoint serve_all (st : state) (rqs : list request)
    : state * list emission :=
  match rqs with
  | [] => (st, [])
  | rq :: rqs' =>
      let '(st1, out1) := serve st rq in
      let '(st2, out2) := serve_all st1 rqs' in
      (st2, out1 ++ out2)
  end.

(** The status string a [user_status_change] of the [user_join] and
    [disconnect] handlers carries *)
Definition status_name (s : presence) : string :=
  match s with
  | Online => "online"
  | Offline => "offline"
  end.

(** [steady] for histories with [status_update] events, on which it puts
    no condition *)
Fixpoint steady_requests (st : state) (rqs : list request) : bool :=
  match rqs with
  | [] => true
  | rq :: rqs' =>
      match rq with
      | Handled ev => steady st [ev]
      | StatusUpdate _ _ _ => true
      end && steady_requests (fst (serve st rq)) rqs'
  end.

(** The [user_status_change] broadcasts that tell the other sockets
    that [u] is [s], whichever handler sent them *)
Definition announced (u : user_id) (s : presence) (out : list emission)
    : nat :=
  length (List.filter
            (λ e, match e with
                  | Made (BroadcastFrom _ (UserStatusChange u' s')) =>
                      bool_decide (u' = u) && bool_decide (s' = s)
                  | Relay _ d =>
                      bool_decide (sd_userId d = u) &&
                      bool_decide (sd_status d = status_name s)
                  | _ => false
                  end) out).

(** The [status_update] events of a history that ask to announce [u] as
    [s] and whose write to the user store went through *)
Definition asked (u : user_id) (s : presence) (rqs : list request) : nat :=
  length (List.filter
            (λ rq, match rq with
                   | StatusUpdate _ (Some d) true =>
                       bool_decide (sd_userId d = u) &&
                       bool_decide (sd_status d = status_name s)
                   | _ => false
                   end) rqs).

End ServerHistory.

(** ** Measures over executions of the call component *)

Module CallHistory.
Import Client.

(** What may become of a peer connection over time: it keeps its senders
    (as many as it was created with) and, once set, a remote
    description. *)
Definition same_connection (pc pc' : peer_connection) : Prop :=
  length (senders pc') = length (senders pc) ∧
  (remoteDescription pc ≠ None → remoteDescription pc' ≠ None).

(** The offer a suspended [webrtc_offer] listener is working on *)
Definition cont_offer (k : cont) : option offer_data :=
  match k with
  | KOfferSetRemote d | KOfferAddIce d | KOfferCreateAnswer d
  | KOfferSetLocal d _ => Some d
  | _ => None
  end.

(** The offers delivered to the component in a history *)
Definition offers_received (tr : list event) : list offer_data :=
  omap (λ ev, match ev with
              | Recv (WebrtcOffer d) => Some d
              | _ => None
              end) tr.

(** Where the messages the component sends may go: offers, candidates
    and [webrtc_call_ended] to the friend of the props and under the
    chat of the props; an answer to the sender of an offer that was
    delivered and addressed to this user, under that offer's chat. *)
Definition addressed (pr : props) (offers : list offer_data) (m : signal)
    : Prop :=
  match m with
  | WebrtcOffer d =>
      d = OfferData (friendId pr) (userId pr) (userName pr) (o_offer d)
                    (callType pr) (chatId pr)
  | WebrtcAnswer d =>
      a_from d = userId pr ∧
      ∃ o, o ∈ offers ∧ o_to o = userId pr ∧
           a_to d = o_from o ∧ a_chatId d = o_chatId o
  | WebrtcIceCandidate d => i_to d = friendId pr ∧ i_chatId d = chatId pr
  | WebrtcCallEnded d => d = EndedData (friendId pr) (chatId pr)
  | CallFailed _ | UserStatusChange _ _ => False
  end.

Definition pending_offers_known (pr : props) (offers : list offer_data)
    (st : state) : Prop :=
  ∀ i k d, tasks st !! i = Some k → cont_offer k = Some d →
           d ∈ offers ∧ o_to d = userId pr.

(** How many offers a suspended handler may still send *)
Definition offer_weight (pr : props) (k : cont) : nat :=
  match k with
  | KGetUserMedia => if isInitiator pr then 1 else 0
  | KInitCreateOffer | KInitSetLocal _ | KNegCreateOffer | KNegSetLocal _ => 1
  | _ => 0
  end.

Definition pending_offers (pr : props) (st : state) : nat :=
  sum_list (map (offer_weight pr) (tasks st)).

Definition is_offer (m : signal) : bool :=
  match m with
  | WebrtcOffer _ => true
  | _ => false
  end.

Definition offers_sent (a : list action) : nat :=
  length (List.filter is_offer (sent a)).

(** How often the browser fired [negotiationneeded] *)
Definition negotiations (tr : list event) : nat :=
  length (List.filter (λ ev, match ev with
                             | PcNegotiationNeeded => true
                             | _ => false
                             end) tr).

(** Whether a suspended handler may still send an answer *)
Definition answer_weight (k : cont) : nat :=
  match cont_offer k with
  | Some _ => 1
  | None => 0
  end.

Definition pending_answers (st : state) : nat :=
  sum_list (map answer_weight (tasks st)).

Definition is_answer (m : signal) : bool :=
  match m with
  | WebrtcAnswer _ => true
  | _ => false
  end.

Definition answers_sent (a : list action) : nat :=
  length (List.filter is_answer (sent a)).

(** Whether the [webrtc_offer] listener takes up the offer it is given:
    the component is mounted, has its connection, and the offer is
    addressed to this user. *)
Definition takes_offer (pr : props) (st : state) (ev : event) : bool :=
  match ev with
  | Recv (WebrtcOffer d) =>
      mounted st && has_pc st && bool_decide (o_to d = userId pr)
  | _ => false
  end.

(** How many of the offers delivered in a history were taken up *)
Fixpoint offers_taken (pr : props) (st : state) (tr : list event) : nat :=
  match tr with
  | [] => 0
  | ev :: tr' =>
      (if takes_offer pr st ev then 1 else 0)
      + offers_taken pr (fst (step pr st ev)) tr'
  end.

End CallHistory.

(** ** [toggleMute] of the call component *)

Module Mute.
Import Client.

Definition is_audio (st : state) (tid : nat) : bool :=
  bool_decide (t_kind <$> tracks st !! tid = Some AudioTrack).

(** [stream.getAudioTracks()] *)
Definition audio_tracks (st : state) (ls : nat) : list nat :=
  List.filter (is_audio st) (stream_tracks st ls).

(** [track.enabled = !track.enabled] *)
Definition flip_track (t : track) :=
  Track (t_kind t) (negb (t_enabled t)) (t_ended t).

(** [toggleMute], called from the button of the last committed render,
    with [isMuted] as that render saw it; returns the new [isMuted]. *)
Definition toggleMute (isMuted : bool) (st : state) : state * bool :=
  match rendered_localStream st with
  | Some ls =>
      (set_tracks
         (foldl (λ ts tid, alter flip_track tid ts) (tracks st)
                (audio_tracks st ls)) st,
       negb isMuted)
  | None => (st, isMuted)
  end.

(** A [MediaStream] holds a track at most once. *)
Definition streams_are_sets (st : state) : Prop :=
  ∀ ls tids, streams st !! ls = Some tids → NoDup tids.

(** The component with its mute button. [isMuted] is only set by clicks,
    and a click is followed by its render before the next one, so every
    click sees the current [isMuted]; the stream it sees is that of the
    last committed render. *)
Inductive button_event :=
| Component (ev : event)
| ClickToggleMute.

Definition button_step (pr : props) (s : state * bool) (ev : button_event)
    : state * bool :=
  match ev with
  | Component ev => (fst (step pr (fst s) ev), snd s)
  | ClickToggleMute =>
      if mounted (fst s) then toggleMute (snd s) (fst s) else s
  end.

Definition button_run (pr : props) (s : state * bool)
    (tr : list button_event)
    : state * bool :=
  foldl (button_step pr) s tr.

Definition button_init (pr : props) : state * bool := (init pr, false).

(** Every audio track is enabled exactly when [isMuted] is off. *)
Definition microphone_follows (s : state * bool) : Prop :=
  ∀ tid t, tracks (fst s) !! tid = Some t → t_kind t = AudioTrack →
           t_enabled t = negb (snd s).

(** The audio tracks of [trk'] are tracks of [trk], as enabled as
    there. *)
Definition audio_kept (trk trk' : list track) : Prop :=
  ∀ tid t', trk' !! tid = Some t' → t_kind t' = AudioTrack →
    ∃ t, trk !! tid = Some t ∧ t_kind t = AudioTrack ∧
         t_enabled t = t_enabled t'.

(** The media request of the mount effect is the one resumed. *)
Definition media_arrives (st : state) (ev : event) : Prop :=
  ∃ i, ev = Resume i Resolved ∧ tasks st !! i = Some KGetUserMedia.

(** What holds of the component and its button together *)
Record in_step (s : state * bool) : Prop := {
  is_consistent : consistent (fst s);
  is_sets : streams_are_sets (fst s);
  is_mic : microphone_follows s;
  is_pending : ∀ i, tasks (fst s) !! i = Some KGetUserMedia →
                    localStream (fst s) = None;
  is_rendered : ∀ ls, rendered_localStream (fst s) = Some ls →
                      localStream (fst s) = Some ls;
  is_unrendered : rendered_localStream (fst s) = None → snd s = false;
  is_local : mounted (fst s) = true →
     ∀ ls tid t, localStream (fst s) = Some ls →
       tracks (fst s) !! tid = Some t → t_kind t = AudioTrack →
       tid ∈ stream_tracks (fst s) ls;
  is_silent : mounted (fst s) = true → localStream (fst s) = None →
     ∀ tid t, tracks (fst s) !! tid = Some t → t_kind t ≠ AudioTrack
}.

(** The tracks [getUserMedia] gives the mount effect *)
Definition new_media (pr : props) : list track :=
  [Track AudioTrack true false] ++
  (if bool_decide (callType pr = Video)
   then [Track VideoTrack true false] else []).

End Mute.

(** ** The chat page ([pages/Chat.tsx])

    The state the socket listeners and the call buttons work on, and the
    filter [loadChats] applies to the server's chat list. *)

Module Page.

(** [types.ts]; a field that may be absent is an [option]. *)
Record friend := Friend {
  f_id : string;
  f_username : string;
  f_displayName : string;
  f_status : option string
}.

Record message := Message {
  m_id : string;
  m_sender : string;
  m_content : string;
  m_timestamp : option string;
  m_chat : option string
}.

Record chat_data := ChatData {
  c_id : string;
  c_friend : friend;
  c_lastMessage : option message
}.

(** The payload of [new_message] *)
Record new_message := NewMessage {
  nm_chatId : option string;
  nm_message : message;
  nm_senderName : option string
}.

Record incoming_call := IncomingCall {
  ic_from : user_id;
  ic_fromName : string;
  ic_callType : call_type;
  ic_chatId : string
}.

(** [a || b] on strings that may be absent: the empty string is falsy. *)
Definition js_or (a b : option string) : option string :=
  match a with
  | Some s => if Server.truthy s then a else b
  | None => b
  end.

(** [a || b] where [b] is a string *)
Definition js_or_string (a : option string) (b : string) : string :=
  default b (js_or a (Some b)).

(** A computed property name: [undefined] is the key ["undefined"]. *)
Definition property_key (k : option string) : string :=
  default "undefined" k.

(** [array.findIndex(p)], [None] for -1 *)
Fixpoint findIndex {A} (p : A → bool) (l : list A) : option nat :=
  match l with
  | [] => None
  | x :: l' => if p x then Some 0 else S <$> findIndex p l'
  end.

(** [array.filter((element, index) => ...)] from position [index] on *)
Fixpoint js_filter {A} (f : A → nat → bool) (index : nat) (l : list A)
    : list A :=
  match l with
  | [] => []
  | x :: l' =>
      if f x index then x :: js_filter f (S index) l'
      else js_filter f (S index) l'
  end.

(** The filter of [loadChats]:
    [response.chats?.filter((chat, index, self) => ...) || []] *)
Definition keep_chat (self : list chat_data) (chat : chat_data)
    (index : nat) : bool :=
  let firstIndexById :=
    findIndex (λ c, String.eqb (c_id c) (c_id chat)) self in
  if negb (bool_decide (Some index = firstIndexById)) then false
  else
    let firstIndexByFriend :=
      findIndex (λ c, String.eqb (f_id (c_friend c)) (f_id (c_friend chat)))
                self in
    bool_decide (Some index = firstIndexByFriend).

Definition uniqueChats (chats : option (list chat_data)) : list chat_data :=
  match chats with
  | Some self => js_filter (keep_chat self) 0 self
  | None => []
  end.

Record state := St {
  friends : list friend;
  chats : list chat_data;
  activeChat : option chat_data;
  messages : list message;
  unreadMessages : gmap string nat;
  notifications : list string;
  inCall : bool;
  incomingCall : option incoming_call
}.

Definition set_friends v st :=
  St v (chats st) (activeChat st) (messages st) (unreadMessages st)
     (notifications st) (inCall st) (incomingCall st).
Definition set_chats v st :=
  St (friends st) v (activeChat st) (messages st) (unreadMessages st)
     (notifications st) (inCall st) (incomingCall st).
Definition set_messages v st :=
  St (friends st) (chats st) (activeChat st) v (unreadMessages st)
     (notifications st) (inCall st) (incomingCall st).
Definition set_unreadMessages v st :=
  St (friends st) (chats st) (activeChat st) (messages st) v
     (notifications st) (inCall st) (incomingCall st).
Definition set_notifications v st :=
  St (friends st) (chats st) (activeChat st) (messages st)
     (unreadMessages st) v (inCall st) (incomingCall st).
Definition set_incomingCall v st :=
  St (friends st) (chats st) (activeChat st) (messages st)
     (unreadMessages st) (notifications st) (inCall st) v.

(** The [new_message] listener. Its state updates are functional
    ([setMessages(prev => ...)]) and so act on the current state;
    [activeChat] is read from the closure of the render that registered
    the listener. [now] is [new Date().toISOString()]. *)
Definition on_new_message (user_id : string)
    (closure_activeChat : option chat_data) (now : string)
    (data : new_message) (st : state) : state :=
  let msg := nm_message data in
  let senderId := m_sender msg in
  let senderName := js_or_string (nm_senderName data) "Someone" in
  let chatId := js_or (nm_chatId data) (m_chat msg) in
  let st1 :=
    set_messages
      (let messageExists :=
         existsb (λ m, String.eqb (m_id m) (m_id msg)) (messages st) in
       if negb messageExists then
         messages st ++
         [Message (m_id msg) (m_sender msg) (m_content msg)
                  (js_or (m_timestamp msg) (Some now)) (m_chat msg)]
       else messages st) st in
  if negb (String.eqb senderId user_id) then
    let isActiveChat :=
      match closure_activeChat with
      | Some c => bool_decide (Some (c_id c) = chatId)
      | None => false
      end in
    let st2 :=
      if isActiveChat then st1
      else
        set_notifications
          (notifications st1 ++
           [String.append "New message from " senderName])
          (set_unreadMessages
             (<[property_key chatId :=
                  default 0 (unreadMessages st1 !! property_key chatId) + 1]>
                (unreadMessages st1)) st1) in
    set_chats
      (map (λ chat,
              if bool_decide (Some (c_id chat) = chatId)
              then ChatData (c_id chat) (c_friend chat) (Some msg)
              else chat) (chats st2)) st2
  else st1.

(** The listener as [initializeSocket] registers it: the effect that
    calls [initializeSocket] has no dependencies, so the closure is that
    of the first render, where [activeChat] is [null]. *)
Definition new_message_listener (user_id : string) :=
  on_new_message user_id None.

(** The [webrtc_offer] listener of the page *)
Definition on_webrtc_offer (d : offer_data) (st : state) : state :=
  set_incomingCall
    (Some (IncomingCall (o_from d) (o_fromName d) (o_callType d)
                        (o_chatId d))) st.

(** [rejectCall], called from the prompt of a render that has the
    current [incomingCall]; [socket]: whether the socket is set. Returns
    what it emits. *)
Definition rejectCall (socket : bool) (st : state) : state * list signal :=
  match incomingCall st with
  | Some ic =>
      if socket then
        (set_incomingCall None st,
         [WebrtcCallEnded (EndedData (ic_from ic) (ic_chatId ic))])
      else (st, [])
  | None => (st, [])
  end.

(** The unread count shown for a chat: [unreadMessages[chat._id] || 0] *)
Definition unreadCount (st : state) (chatId : string) : nat :=
  default 0 (unreadMessages st !! chatId).

(** Deliveries of [new_message], each with the time it arrives at *)
Definition deliver (user_id : string) (st : state)
    (ds : list (string * new_message)) : state :=
  foldl (λ st d, new_message_listener user_id (fst d) (snd d) st) st ds.

(** Deliveries that count as unread for [chatId] *)
Definition counts_for (user_id chatId : string) (d : string * new_message)
    : bool :=
  negb (String.eqb (m_sender (nm_message (snd d))) user_id) &&
  bool_decide
    (property_key (js_or (nm_chatId (snd d)) (m_chat (nm_message (snd d))))
     = chatId).

Definition set_activeChat v st :=
  St (friends st) (chats st) v (messages st) (unreadMessages st)
     (notifications st) (inCall st) (incomingCall st).

(** [{ ...friend, status }] *)
Definition with_status (status : string) (f : friend) : friend :=
  Friend (f_id f) (f_username f) (f_displayName f) (Some status).

(** The [user_status_change] listener of the page *)
Definition on_user_status_change (userId status : string) (st : state)
    : state :=
  let upd_friend f :=
    if String.eqb (f_id f) userId then with_status status f else f in
  let upd_chat c :=
    if String.eqb (f_id (c_friend c)) userId
    then ChatData (c_id c) (with_status status (c_friend c)) (c_lastMessage c)
    else c in
  set_activeChat (upd_chat <$> activeChat st)
    (set_chats (map upd_chat (chats st))
       (set_friends (map upd_friend (friends st)) st)).

End Page.

(** ** The page, its socket and its call components

    The page creates one socket in [initializeSocket] and registers its
    listeners on it; the socket is handed to every [VideoCall] the page
    renders, which registers its own listeners on the same object.
    [socket.on] and [socket.off] are called nowhere else: whatever else
    the page does is an update of its state, and when it renders or
    removes a call component is left open. *)

Module Tab.
Import Client.

(** A callback registered with [socket.on]: one of the page's, or one of
    the [i]-th call component the page has rendered *)
Inductive listener :=
| OfPage
| OfCall (i : nat).

#[global] Instance listener_eq_dec : EqDecision listener.
Proof. solve_decision. Defined.

(** The socket as an event emitter: the callbacks of each event name, in
    the order they were registered *)
Abbreviation emitter := (gmap string (list listener)).

(** [socket.on(ev, callback)] *)
Definition on (ev : string) (l : listener) (e : emitter) : emitter :=
  <[ev := default [] (e !! ev) ++ [l]]> e.

(** [socket.off(ev)], called with the event name alone: every callback
    of that event is removed, whoever registered it *)
Definition off (ev : string) (e : emitter) : emitter := delete ev e.

Definition listeners (ev : string) (e : emitter) : list listener :=
  default [] (e !! ev).

Definition event_name (m : signal) : string :=
  match m with
  | WebrtcOffer _ => "webrtc_offer"
  | WebrtcAnswer _ => "webrtc_answer"
  | WebrtcIceCandidate _ => "webrtc_ice_candidate"
  | WebrtcCallEnded _ => "webrtc_call_ended"
  | CallFailed _ => "call_failed"
  | UserStatusChange _ _ => "user_status_change"
  end.

(** The events [initializeSocket] registers a callback for *)
Definition page_events : list string :=
  ["connect"; "disconnect"; "reconnect"; "friend_request_received";
   "friend_request_accepted"; "new_message"; "webrtc_offer";
   "user_status_change"; "user_profile_updated"].

(** The events the listener effect of [VideoCall] registers a callback
    for, and calls [socket.off] for in its clean-up *)
Definition call_events : list string :=
  ["call_failed"; "webrtc_offer"; "webrtc_answer"; "webrtc_ice_candidate";
   "webrtc_call_ended"].

Definition initializeSocket : emitter :=
  foldl (λ e ev, on ev OfPage e) ∅ page_events.

Definition listener_effect (i : nat) (e : emitter) : emitter :=
  foldl (λ e ev, on ev (OfCall i) e) e call_events.

Definition listener_effect_cleanup (e : emitter) : emitter :=
  foldl (λ e ev, off ev e) e call_events.

Record state := Tab {
  page : Page.state;
  socket : emitter;
  calls : list (props * Client.state)
}.

(** The page after its mount effects, before anything has happened *)
Definition init : state :=
  Tab (Page.St [] [] None [] ∅ [] false None) initializeSocket [].

Inductive event :=
| Deliver (m : signal)           (* the socket receives a message *)
| ClickReject                    (* the reject button of the prompt *)
| PageUpdate (f : Page.state → Page.state)
                                 (* any other update of the page's state *)
| MountCall (pr : props)         (* the page renders a [VideoCall] *)
| CallEvent (i : nat) (ev : Client.event)
                                 (* what the [i]-th call component meets *)
| ParentRender (i : nat).        (* the page renders again, and with it the
                                    [i]-th call component, which is given
                                    a new [onEndCall] *)

Inductive output :=
| ByCall (i : nat) (a : action)
| ByPage (m : signal).

(** The page's callback for a message *)
Definition page_listener (m : signal) (p : Page.state) : Page.state :=
  match m with
  | WebrtcOffer d => Page.on_webrtc_offer d p
  | UserStatusChange userId status =>
      Page.on_user_status_change userId (ServerHistory.status_name status)
        p
  | _ => p
  end.

Definition set_page v t := Tab v (socket t) (calls t).
Definition set_socket v t := Tab (page t) v (calls t).
Definition set_calls v t := Tab (page t) (socket t) v.

(** The [i]-th call component meets [ev] *)
Definition call_step (i : nat) (ev : Client.event) (t : state)
    : state * list output :=
  match calls t !! i with
  | Some (pr, cl) =>
      let '(cl', a) := Client.step pr cl ev in
      (set_calls (<[i := (pr, cl')]> (calls t)) t, map (ByCall i) a)
  | None => (t, [])
  end.

Definition is_mounted (i : nat) (t : state) : bool :=
  match calls t !! i with
  | Some (_, cl) => mounted cl
  | None => false
  end.

(** One callback called with a message *)
Definition call_listener (m : signal) (r : state * list output)
    (l : listener) : state * list output :=
  match l with
  | OfPage => (set_page (page_listener m (page (fst r))) (fst r), snd r)
  | OfCall i =>
      let '(t', o) := call_step i (Recv m) (fst r) in (t', snd r ++ o)
  end.

(** [handleEndCall] is made anew when [localStream] differs from the one
    of the last render ([cleanup] depends on it): the listener effect,
    which depends on [handleEndCall], is then cleaned up and run again
    when the render is committed. *)
Definition stream_changed (i : nat) (t : state) : bool :=
  match calls t !! i with
  | Some (_, cl) =>
      mounted cl &&
      negb (bool_decide (rendered_localStream cl = localStream cl))
  | None => false
  end.

Definition rerun_listener_effect (i : nat) (t : state) : state :=
  set_socket (listener_effect i (listener_effect_cleanup (socket t))) t.

Definition step (t : state) (ev : event) : state * list output :=
  match ev with
  | Deliver m =>
      foldl (call_listener m) (t, []) (listeners (event_name m) (socket t))
  | ClickReject =>
      let '(p, ms) := Page.rejectCall true (page t) in
      (set_page p t, map ByPage ms)
  | PageUpdate f => (set_page (f (page t)) t, [])
  | MountCall pr =>
      if existsb (λ c, mounted (snd c)) (calls t) then (t, [])
      else
        (set_calls (calls t ++ [(pr, Client.init pr)])
           (set_socket (listener_effect (length (calls t)) (socket t)) t),
         [])
  | CallEvent i ev =>
      let '(t1, o) := call_step i ev t in
      match ev with
      | Unmount =>
          if is_mounted i t
          then (set_socket (listener_effect_cleanup (socket t1)) t1, o)
          else (t1, o)
      | Render =>
          if stream_changed i t then (rerun_listener_effect i t1, o)
          else (t1, o)
      | _ => (t1, o)
      end
  | ParentRender i =>
      let '(t1, o) := call_step i Render t in
      if is_mounted i t then (rerun_listener_effect i t1, o) else (t1, o)
  end.

Fixpoint run (t : state) (tr : list event) : state * list output :=
  match tr with
  | [] => (t, [])
  | ev :: tr' =>
      let '(t1, o1) := step t ev in
      let '(t2, o2) := run t1 tr' in
      (t2, o1 ++ o2)
  end.

(** Whether [ev] makes a call component clean up its listener effect *)
Definition cleans_up (t : state) (ev : event) : bool :=
  match ev with
  | CallEvent i Unmount => is_mounted i t
  | CallEvent i Render => stream_changed i t
  | ParentRender i => is_mounted i t
  | _ => false
  end.

(** Histories in which no call component has cleaned up its listener
    effect *)
Fixpoint undisturbed (t : state) (tr : list event) : bool :=
  match tr with
  | [] => true
  | ev :: tr' => negb (cleans_up t ev) && undisturbed (fst (step t ev)) tr'
  end.

(** Only call components have a callback in [ls] *)
Definition calls_only (ls : list listener) : Prop := ∃ js, ls = map OfCall js.

(** What the page sent *)
Definition by_page (o : list output) : list signal :=
  omap (λ x, match x with ByPage m => Some m | _ => None end) o.

End Tab.

(** ** The friends routes ([routes/friends.js])

    Users are documents keyed by their id, written as an ObjectId prints
    (its [toString()]); an entry of [friends], [friendRequests.sent] or
    [friendRequests.received] is the id of its [user]. The caller's id
    [req.user.id] is the one the server signed into the token, as
    printed. The [userId] of a request is the string the client sent: a
    query or a [push] casts it to an ObjectId, a comparison with [===]
    takes it as it is spelled. A route runs from its first query to its
    response without another request in between; a [save()] may fail.
    Of what a notification carries, the avatar and the status are left
    out. *)

Module Friends.

Record user_doc := UserDoc {
  username : string;
  displayName : string;
  friends : list user_id;
  sent : list user_id;
  received : list user_id
}.

Abbreviation db := (gmap user_id user_doc).

Definition set_friends v d :=
  UserDoc (username d) (displayName d) v (sent d) (received d).
Definition set_sent v d :=
  UserDoc (username d) (displayName d) (friends d) v (received d).
Definition set_received v d :=
  UserDoc (username d) (displayName d) (friends d) (sent d) v.

Record response := Response { status : nat; message : string }.

(** [io.to(`user_${to}`).emit(...)] *)
Inductive notice :=
| FriendRequestReceived (to : string) (from : user_id)
    (fromName fromDisplay : string)
| FriendRequestAccepted (to : string) (from : user_id)
    (fromName fromDisplay : string)
| NewFriend (to : user_id) (friend : string)
    (friendName friendDisplay : string)
| FriendRequestDeclined (to : string) (from : user_id)
    (fromName fromDisplay : string)
| FriendRemoved (to : string) (from : user_id)
    (fromName fromDisplay : string).

Definition result : Type := response * db * list notice.

Definition server_error := Response 500 "Server error".

(** [objectId.id]: the 12 bytes of the ObjectId whose string form is
    [oid] *)
Inductive buffer := Buffer (oid : user_id).

(** [s === b] for a string and a [Buffer]: operands of different types
    are never strictly equal. *)
Definition strict_eq_buffer (s : string) (b : buffer) : bool := false.

(** [list.some(entry => entry.user.toString() === userId)] *)
Definition has (userId : string) (entries : list user_id) : bool :=
  existsb (λ entry, String.eqb entry userId) entries.

(** [list.filter(entry => entry.user.toString() !== userId)] *)
Definition without (userId : string) (entries : list user_id)
    : list user_id :=
  List.filter (λ entry, negb (String.eqb entry userId)) entries.

(** [sent.filter(req => req.user.toString() !== req.user.id)]: the
    parameter [req] of the callback hides the request, so the entry is
    compared with its own [id]. *)
Definition without_shadowed (entries : list user_id) : list user_id :=
  List.filter (λ req, negb (strict_eq_buffer req (Buffer req))) entries.

(** What [User.findById(s)] comes back with *)
Inductive found :=
| CastError                         (* [s] is no ObjectId: the query rejects *)
| NoUser                            (* [null] *)
| User (id : user_id) (doc : user_doc).

Section routes.

(** [new ObjectId(s)] for a string [s] that is not the id of a stored
    user as printed: the id it stands for, if any. Which strings stand
    for an id depends on the driver (24 hexadecimal digits in either
    case; older versions also take any 12 characters), so the routes are
    given for any such function. *)
Variable ObjectId : string → option user_id.

(** The id a string is cast to. The keys of the store are ids as
    printed, and what an id prints as is cast back to that id. *)
Definition cast (d : db) (s : string) : option user_id :=
  match d !! s with
  | Some _ => Some s
  | None => ObjectId s
  end.

Definition findById (d : db) (s : string) : found :=
  match cast d s with
  | Some id =>
      match d !! id with
      | Some doc => User id doc
      | None => NoUser
      end
  | None => CastError
  end.

(** [doc.save()] sends what was changed in the copy [doc]: an element
    that was pushed is appended to the stored list, a list that was
    assigned is stored as assigned. *)
Definition push_friend (x : user_id) (doc : user_doc) :=
  set_friends (friends doc ++ [x]) doc.
Definition push_sent (x : user_id) (doc : user_doc) :=
  set_sent (sent doc ++ [x]) doc.
Definition push_received (x : user_id) (doc : user_doc) :=
  set_received (received doc ++ [x]) doc.

(** [POST /request] by [me] with [userId] in the body; [ok1], [ok2]:
    whether the two [save()] calls succeed. *)
Definition request (me : user_id) (userId : string) (ok1 ok2 : bool)
    (d : db) : result :=
  if bool_decide (userId = me) then
    (Response 400 "Cannot send friend request to yourself", d, [])
  else
    match findById d userId with
    | CastError => (server_error, d, [])
    | NoUser => (Response 404 "User not found", d, [])
    | User target targetUser =>
        match d !! me with
        | None => (server_error, d, [])
        | Some currentUser =>
            if has userId (friends currentUser) then
              (Response 400 "Already friends with this user", d, [])
            else if has userId (sent currentUser) then
              (Response 400 "Friend request already sent", d, [])
            else if has userId (received currentUser) then
              (Response 400 "This user has already sent you a friend request",
               d, [])
            else if negb ok1 then (server_error, d, [])
            else
              let d1 := alter (push_sent target) me d in
              if negb ok2 then (server_error, d1, [])
              else
                (Response 200 "Friend request sent successfully",
                 alter (push_received me) target d1,
                 [FriendRequestReceived userId me (username currentUser)
                                        (displayName currentUser)])
        end
    end.

(** [POST /accept] *)
Definition accept (me : user_id) (userId : string) (ok1 ok2 : bool)
    (d : db) : result :=
  match findById d userId with
  | CastError => (server_error, d, [])
  | NoUser => (Response 404 "User not found", d, [])
  | User requester requesterUser =>
      match d !! me with
      | None => (server_error, d, [])
      | Some currentUser =>
          if negb (has userId (received currentUser)) then
            (Response 400 "No friend request from this user", d, [])
          else if negb ok1 then (server_error, d, [])
          else
            let d1 :=
              alter (λ doc,
                       push_friend requester
                         (set_received (without userId (received currentUser))
                                       doc)) me d in
            if negb ok2 then (server_error, d1, [])
            else
              (Response 200 "Friend request accepted",
               alter (λ doc,
                        push_friend me
                          (set_sent (without_shadowed (sent requesterUser))
                                    doc)) requester d1,
               [FriendRequestAccepted userId me (username currentUser)
                                      (displayName currentUser);
                NewFriend me userId (username requesterUser)
                          (displayName requesterUser)])
      end
  end.

(** [POST /decline] *)
Definition decline (me : user_id) (userId : string) (ok1 ok2 : bool)
    (d : db) : result :=
  match findById d userId with
  | CastError => (server_error, d, [])
  | NoUser => (Response 404 "User not found", d, [])
  | User requester requesterUser =>
      match d !! me with
      | None => (server_error, d, [])
      | Some currentUser =>
          if negb ok1 then (server_error, d, [])
          else
            let d1 :=
              alter (set_received (without userId (received currentUser)))
                    me d in
            if negb ok2 then (server_error, d1, [])
            else
              (Response 200 "Friend request declined",
               alter (set_sent (without_shadowed (sent requesterUser)))
                     requester d1,
               [FriendRequestDeclined userId me
                  (username currentUser) (displayName currentUser)])
      end
  end.

(** [DELETE /:userId] *)
Definition remove (me : user_id) (userId : string) (ok1 ok2 : bool)
    (d : db) : result :=
  match findById d userId with
  | CastError => (server_error, d, [])
  | NoUser => (Response 404 "User not found", d, [])
  | User friend friendUser =>
      match d !! me with
      | None => (server_error, d, [])
      | Some currentUser =>
          if negb ok1 then (server_error, d, [])
          else
            let d1 :=
              alter (set_friends (without userId (friends currentUser)))
                    me d in
            if negb ok2 then (server_error, d1, [])
            else
              (Response 200 "Friend removed successfully",
               alter (set_friends (without me (friends friendUser)))
                     friend d1,
               [FriendRemoved userId me (username currentUser)
                              (displayName currentUser)])
      end
  end.

(** A request to one of the routes, by the authenticated user [me] *)
Inductive call :=
| Request (me : user_id) (userId : string) (ok1 ok2 : bool)
| Accept (me : user_id) (userId : string) (ok1 ok2 : bool)
| Decline (me : user_id) (userId : string) (ok1 ok2 : bool)
| Remove (me : user_id) (userId : string) (ok1 ok2 : bool).

Definition handle (c : call) (d : db) : result :=
  match c with
  | Request me userId ok1 ok2 => request me userId ok1 ok2 d
  | Accept me userId ok1 ok2 => accept me userId ok1 ok2 d
  | Decline me userId ok1 ok2 => decline me userId ok1 ok2 d
  | Remove me userId ok1 ok2 => remove me userId ok1 ok2 d
  end.

(** Requests served one after the other; the store at the end *)
Fixpoint run (d : db) (cs : list call) : db :=
  match cs with
  | [] => d
  | c :: cs' => run (snd (fst (handle c d))) cs'
  end.

Definition saves_succeed (c : call) : bool :=
  match c with
  | Request _ _ ok1 ok2 | Accept _ _ ok1 ok2 | Decline _ _ ok1 ok2
  | Remove _ _ ok1 ok2 => ok1 && ok2
  end.

Definition names (c : call) : string :=
  match c with
  | Request _ userId _ _ | Accept _ userId _ _ | Decline _ userId _ _
  | Remove _ userId _ _ => userId
  end.

(** [userId] names no user of the store, or names one by the id as
    printed. *)
Definition as_printed (d : db) (userId : string) : bool :=
  match findById d userId with
  | User id _ => bool_decide (id = userId)
  | _ => true
  end.

End routes.

Definition friends_of (d : db) (u : user_id) : list user_id :=
  default [] (friends <$> d !! u).
Definition sent_of (d : db) (u : user_id) : list user_id :=
  default [] (sent <$> d !! u).
Definition received_of (d : db) (u : user_id) : list user_id :=
  default [] (received <$> d !! u).

(** What the routes keep true of the store when every save succeeds and
    ids are named as printed *)
Record friendly (d : db) : Prop := {
  fr_mutual : ∀ u v, v ∈ friends_of d u → u ∈ friends_of d v;
  fr_not_self : ∀ u, u ∉ friends_of d u;
  fr_once : ∀ u, NoDup (friends_of d u);
  fr_pending_new : ∀ u v, v ∈ received_of d u → v ∉ friends_of d u;
  fr_pending_one_way : ∀ u v, v ∈ received_of d u → u ∉ received_of d v
}.

(** Newly registered users: no friends, no requests *)
Definition fresh (d : db) : bool :=
  forallb (λ p, match friends (snd p), sent (snd p), received (snd p) with
                | [], [], [] => true
                | _, _, _ => false
                end) (map_to_list d).

(** What a route did to the three lists of every user, when it wrote
    anything at all *)
Record wrote (d d' : db)
    (fr se re : user_id → list user_id → list user_id) : Prop := {
  w_friends : ∀ u, friends_of d' u = fr u (friends_of d u);
  w_sent : ∀ u, sent_of d' u = se u (sent_of d u);
  w_received : ∀ u, received_of d' u = re u (received_of d u)
}.

Definition at_user (k : user_id) (f : list user_id → list user_id)
    (u : user_id) (l : list user_id) : list user_id :=
  if decide (u = k) then f l else l.

Definition same (u : user_id) (l : list user_id) : list user_id := l.

(** A request seen as received is one its sender has as sent. *)
Definition backed (d : db) : Prop :=
  ∀ u v, v ∈ received_of d u → u ∈ sent_of d v.

(** Everybody's friends are users of the store. *)
Definition friends_are_users (d : db) : bool :=
  forallb (λ p, forallb (λ x, bool_decide (is_Some (d !! x)))
                        (friends (snd p))) (map_to_list d).

(** An [ObjectId] to try the routes with: a string of 24 hexadecimal
    digits, in either case, stands for the id that prints as these
    digits in lower case. *)
Definition is_hex (c : Ascii.ascii) : bool :=
  let n := Ascii.nat_of_ascii c in
  Nat.leb 48 n && Nat.leb n 57 || Nat.leb 97 n && Nat.leb n 102
  || Nat.leb 65 n && Nat.leb n 70.

Definition lower_hex (c : Ascii.ascii) : Ascii.ascii :=
  let n := Ascii.nat_of_ascii c in
  if Nat.leb 65 n && Nat.leb n 70 then Ascii.ascii_of_nat (n + 32) else c.

Definition hex_id (s : string) : option user_id :=
  let digits := String.list_ascii_of_string s in
  if Nat.eqb (length digits) 24 && forallb is_hex digits
  then Some (String.string_of_list_ascii (map lower_hex digits))
  else None.

End Friends.

(** ** Opening a chat ([routes/messages.js], [POST /chat/:userId])

    The chat collection is the list of its documents, oldest first; a new
    document gets an id no other document has. As for the friends routes,
    a request runs without another one in between, and [:userId] is the
    string the client put in the path: the query and the new document
    cast it to an ObjectId, [===] takes it as spelled. *)

Module Chats.
Import Friends.

Record chat := Chat {
  chat_id : nat;
  participants : list user_id;
  isGroupChat : bool
}.

Record store := Store {
  users : db;
  chats : list chat
}.

(** [{ participants: { $all: [a, b] }, isGroupChat: false }] *)
Definition direct_between (a b : user_id) (c : chat) : bool :=
  bool_decide (a ∈ participants c) && bool_decide (b ∈ participants c)
  && negb (isGroupChat c).

(** [Chat.findOne(query)] *)
Definition findOne (q : chat → bool) (cs : list chat) : option chat :=
  List.find q cs.

Definition fresh_id (cs : list chat) : nat :=
  S (foldr Nat.max 0 (map chat_id cs)).

Definition failed := Response 500 "Failed to create/get chat".

Section routes.

Variable ObjectId : string → option user_id.

(** [POST /chat/:userId] by [currentUserId]; [ok]: whether [chat.save()]
    succeeds. The answer is a status with the chat, or with the text
    given under [error]. *)
Definition open_chat (currentUserId : user_id) (otherUserId : string)
    (ok : bool) (st : store) : response * option chat * store :=
  if bool_decide (currentUserId = otherUserId) then
    (Response 400 "Cannot create chat with yourself", None, st)
  else
    match cast ObjectId (users st) otherUserId with
    | None => (failed, None, st)
    | Some other =>
        match findOne (direct_between currentUserId other) (chats st) with
        | Some chat => (Response 200 "", Some chat, st)
        | None =>
            match users st !! currentUserId with
            | None => (failed, None, st)
            | Some currentUser =>
                let isFriend := has otherUserId (friends currentUser) in
                if negb isFriend then
                  (Response 403 "Can only chat with friends", None, st)
                else
                  let chat := Chat (fresh_id (chats st))
                                   [currentUserId; other] false in
                  if negb ok then (failed, None, st)
                  else
                    (Response 200 "", Some chat,
                     Store (users st) (chats st ++ [chat]))
            end
        end
    end.

(** Requests to the friends routes and to [/chat/:userId], one after the
    other *)
Inductive call :=
| FriendsCall (c : Friends.call)
| OpenChat (currentUserId : user_id) (otherUserId : string) (ok : bool).

Definition handle (c : call) (st : store) : store :=
  match c with
  | FriendsCall c =>
      Store (snd (fst (Friends.handle ObjectId c (users st)))) (chats st)
  | OpenChat me other ok => snd (open_chat me other ok st)
  end.

Fixpoint run (st : store) (cs : list call) : store :=
  match cs with
  | [] => st
  | c :: cs' => run (handle c st) cs'
  end.

End routes.

(** Two chat documents for the same pair of users *)
Definition same_pair (c1 c2 : chat) : Prop :=
  ∃ a b, a ≠ b ∧ direct_between a b c1 = true ∧ direct_between a b c2 = true.

Record tidy (st : store) : Prop := {
  t_direct : ∀ c, c ∈ chats st →
    ∃ a b, a ≠ b ∧ participants c = [a; b] ∧ isGroupChat c = false;
  t_ids : NoDup (chat_id <$> chats st);
  t_one : ∀ i j c1 c2,
    chats st !! i = Some c1 → chats st !! j = Some c2 →
    same_pair c1 c2 → i = j;
  t_friends : ∀ u x, x ∈ friends_of (users st) u → is_Some (users st !! x)
}.

End Chats.

(** * Properties of the server *)

Module ServerFacts.
Import Server.

(** ** Sets of socket ids *)

Lemma set_add_nonempty x s : set_add x s ≠ [].
Proof.
  unfold set_add. destruct (decide (x ∈ s)) as [Hin|Hin].
  - intros ->. by apply not_elem_of_nil in Hin.
  - by destruct s.
Qed.

Lemma elem_of_set_add y x s : y ∈ set_add x s ↔ y = x ∨ y ∈ s.
Proof.
  unfold set_add. destruct (decide (x ∈ s)) as [Hin|Hin].
  - split; [by right|]. by intros [->|H].
  - rewrite elem_of_app, list_elem_of_singleton. tauto.
Qed.

Lemma elem_of_set_delete y x s : y ∈ set_delete x s ↔ y ∈ s ∧ y ≠ x.
Proof. unfold set_delete. by rewrite list_elem_of_filter, (comm and). Qed.

Lemma set_delete_notin x s : x ∉ s → set_delete x s = s.
Proof.
  unfold set_delete. induction s as [|y s IH]; intros Hx; [done|].
  apply not_elem_of_cons in Hx as [Hne Hx].
  rewrite filter_cons_True by done. by rewrite IH.
Qed.

Lemma set_add_fresh_length x s : x ∉ s → length (set_add x s) = S (length s).
Proof.
  intros Hx. unfold set_add. rewrite decide_False by done.
  rewrite length_app. simpl. lia.
Qed.

Lemma set_add_member x s : x ∈ s → set_add x s = s.
Proof. intros Hx. unfold set_add. by rewrite decide_True. Qed.

(** ** The two mutating handlers, as map updates *)

Lemma user_join_state sid u ok st :
  fst (user_join sid u ok st) =
  State (<[u := set_add sid (lookup st u)]> (onlineUsers st))
        (<[sid := u]> (userSockets st)).
Proof.
  unfold user_join, lookup. simpl. f_equal.
  apply map_eq. intros k. destruct (decide (k = u)) as [->|Hne].
  - rewrite lookup_alter_eq, lookup_insert_eq.
    destruct (onlineUsers st !! u) as [s|] eqn:E; simpl.
    + by rewrite E.
    + by rewrite lookup_insert_eq.
  - rewrite lookup_alter_ne, lookup_insert_ne by done.
    destruct (onlineUsers st !! u); [done|]. by rewrite lookup_insert_ne.
Qed.

Lemma user_join_count sid u ok st :
  snd (user_join sid u ok st) =
  JoinRoom sid (String.append "user_" u) ::
  (if Nat.eqb (length (set_add sid (lookup st u))) 1 then
     DbSetStatus u Online ::
     (if ok then [BroadcastFrom sid (UserStatusChange u Online)] else [])
   else []).
Proof.
  pose proof (user_join_state sid u ok st) as Hst.
  unfold user_join in *. simpl in *. injection Hst as Hou.
  rewrite Hou, lookup_insert_eq. done.
Qed.

Lemma lookup_user_join sid u ok st v :
  lookup (fst (user_join sid u ok st)) v =
  if decide (v = u) then set_add sid (lookup st u) else lookup st v.
Proof.
  rewrite user_join_state. unfold lookup at 1. simpl.
  destruct (decide (v = u)) as [->|Hne].
  - by rewrite lookup_insert_eq.
  - by rewrite lookup_insert_ne.
Qed.

Lemma lookup_disconnect sid ok st v :
  lookup (fst (disconnect sid ok st)) v =
  match userSockets st !! sid with
  | Some u =>
      if truthy u && bool_decide (v = u)
      then set_delete sid (lookup st u) else lookup st v
  | None => lookup st v
  end.
Proof.
  unfold disconnect, lookup.
  destruct (userSockets st !! sid) as [u|]; [|done].
  destruct (truthy u); [|done]. simpl.
  destruct (onlineUsers st !! u) as [s|] eqn:E; simpl.
  - destruct (Nat.eqb_spec (length (set_delete sid s)) 0) as [H0|H0]; simpl;
      destruct (bool_decide_reflect (v = u)) as [->|Hne].
    + rewrite lookup_delete_eq. simpl. symmetry. by apply nil_length_inv.
    + by rewrite lookup_delete_ne.
    + by rewrite lookup_insert_eq.
    + by rewrite lookup_insert_ne.
  - destruct (bool_decide_reflect (v = u)) as [->|Hne]; [|done].
    by rewrite E.
Qed.

(** ** Runs *)

Lemma run_events_app st tr1 tr2 :
  run st (tr1 ++ tr2) =
  (fst (run (fst (run st tr1)) tr2),
   snd (run st tr1) ++ snd (run (fst (run st tr1)) tr2)).
Proof.
  revert st. induction tr1 as [|ev tr1 IH]; intros st; simpl.
  - by destruct (run st tr2).
  - destruct (step st ev) as [st1 o1]. rewrite IH.
    destruct (run st1 tr1) as [st2 o2]. simpl.
    by rewrite <- app_assoc.
Qed.

Lemma final_snoc tr ev : final (tr ++ [ev]) = fst (step (final tr) ev).
Proof.
  unfold final. rewrite run_events_app. simpl.
  by destruct (step (fst (run init tr)) ev).
Qed.

(** ** No entry of [onlineUsers] is an empty set *)


Lemma step_no_empty_set st ev :
  no_empty_set st → no_empty_set (fst (step st ev)).
Proof.
  intros Hinv u. destruct ev as [sid v ok|sid m|sid ok]; cbn [step fst].
  - rewrite user_join_state. simpl.
    destruct (decide (u = v)) as [->|Hne].
    + rewrite lookup_insert_eq. intros [= H]. by apply set_add_nonempty in H.
    + rewrite lookup_insert_ne by done. apply Hinv.
  - apply Hinv.
  - unfold disconnect. destruct (userSockets st !! sid) as [v|]; [|apply Hinv].
    destruct (truthy v); [|apply Hinv].
    destruct (onlineUsers st !! v) as [s|] eqn:E; simpl; [|apply Hinv].
    destruct (Nat.eqb_spec (length (set_delete sid s)) 0) as [H0|H0]; simpl.
    + destruct (decide (u = v)) as [->|Hne].
      * by rewrite lookup_delete_eq.
      * rewrite lookup_delete_ne by done. apply Hinv.
    + destruct (decide (u = v)) as [->|Hne].
      * rewrite lookup_insert_eq. intros [= H]. by rewrite H in H0.
      * rewrite lookup_insert_ne by done. apply Hinv.
Qed.

Lemma final_no_empty_set tr : no_empty_set (final tr).
Proof.
  induction tr as [|ev tr IH] using rev_ind.
  - intros u. unfold final. simpl. by rewrite lookup_empty.
  - rewrite final_snoc. by apply step_no_empty_set.
Qed.

(** ** The registry against the connection history *)


Lemma one_identity_snoc acc tr ev :
  one_identity acc (tr ++ [ev]) =
  one_identity acc tr && admissible (joined acc tr) ev.
Proof.
  revert acc. induction tr as [|e tr IH]; intros acc; simpl.
  - destruct ev; simpl; by rewrite ?andb_true_r.
  - destruct e; simpl; rewrite IH; by rewrite ?andb_assoc.
Qed.

Lemma live_connections_snoc tr ev u :
  live_connections (tr ++ [ev]) u = live_step u (live_connections tr u) ev.
Proof. unfold live_connections. by rewrite fold_left_app. Qed.

Lemma joined_snoc acc tr ev :
  joined acc (tr ++ [ev]) = joined_step (joined acc tr) ev.
Proof. unfold joined. by rewrite fold_left_app. Qed.

Lemma same_identity_spec sid u acc s w :
  forallb (same_identity sid u) acc = true → (s, w) ∈ acc → s = sid → w = u.
Proof.
  rewrite forallb_forall. intros H Hin%list_elem_of_In ->.
  apply H in Hin. unfold same_identity in Hin. simpl in Hin.
  rewrite String.eqb_refl in Hin. simpl in Hin. by apply String.eqb_eq.
Qed.

Lemma tracks_history_init : tracks_history [] init.
Proof.
  split.
  - intros u. unfold lookup. simpl. by rewrite lookup_empty.
  - intros sid u H. by apply not_elem_of_nil in H.
  - intros sid u. simpl. by rewrite lookup_empty.
Qed.

Lemma tracks_history_step tr st ev :
  tracks_history tr st →
  admissible (joined [] tr) ev = true →
  tracks_history (tr ++ [ev]) (fst (step st ev)).
Proof.
  intros [Hl Ho Hb] Hadm.
  destruct ev as [sid v ok|sid m|sid ok]; cbn [step fst].
  - (* user_join *)
    simpl in Hadm. apply andb_true_iff in Hadm as [Hv Hsame].
    assert (Hone : ∀ w, sid ∈ live_connections tr w → w = v).
    { intros w Hin. apply Ho, Hb in Hin as [_ Hin].
      by eapply same_identity_spec. }
    split.
    + intros u. rewrite lookup_user_join, live_connections_snoc. simpl.
      destruct (decide (u = v)) as [->|Hne].
      * rewrite decide_True by done. by rewrite Hl.
      * rewrite decide_False by done. apply Hl.
    + intros s u. rewrite live_connections_snoc, user_join_state. simpl.
      destruct (decide (v = u)) as [->|Hne].
      * rewrite elem_of_set_add. intros [->|Hin].
        -- by rewrite lookup_insert_eq.
        -- destruct (decide (s = sid)) as [->|Hs].
           ++ by rewrite lookup_insert_eq.
           ++ rewrite lookup_insert_ne by done. by apply Ho.
      * intros Hin. rewrite lookup_insert_ne; [by apply Ho|].
        intros ->. apply Hne. symmetry. by apply Hone.
    + intros s u. rewrite user_join_state, joined_snoc. simpl.
      destruct (decide (s = sid)) as [->|Hne].
      * rewrite lookup_insert_eq. intros [= <-]. split; [done|left].
      * rewrite lookup_insert_ne by done. intros H.
        destruct (Hb _ _ H). split; [done|by right].
  - (* a signaling event leaves both maps alone *)
    split.
    + intros u. rewrite live_connections_snoc. apply Hl.
    + intros s u. rewrite live_connections_snoc. apply Ho.
    + intros s u H. rewrite joined_snoc. by apply Hb.
  - (* disconnect *)
    assert (Hus : userSockets (fst (disconnect sid ok st)) =
                  delete sid (userSockets st)).
    { unfold disconnect. destruct (userSockets st !! sid) as [u|] eqn:E.
      - destruct (Hb _ _ E) as [-> _].
        destruct (onlineUsers st !! u); [|done].
        by destruct (Nat.eqb _ 0).
      - simpl. symmetry. by apply delete_id. }
    split.
    + intros u. rewrite lookup_disconnect, live_connections_snoc. simpl.
      destruct (userSockets st !! sid) as [w|] eqn:E.
      * destruct (Hb _ _ E) as [-> _]. simpl.
        destruct (bool_decide_reflect (u = w)) as [->|Hne].
        -- by rewrite Hl.
        -- rewrite Hl. symmetry. apply set_delete_notin.
           intros Hin. apply Ho in Hin. congruence.
      * rewrite Hl. symmetry. apply set_delete_notin.
        intros Hin. apply Ho in Hin. congruence.
    + intros s u. rewrite live_connections_snoc, Hus. simpl.
      rewrite elem_of_set_delete. intros [Hin Hne].
      rewrite lookup_delete_ne by done. by apply Ho.
    + intros s u. rewrite Hus, joined_snoc. simpl.
      destruct (decide (s = sid)) as [->|Hne].
      * by rewrite lookup_delete_eq.
      * rewrite lookup_delete_ne by done. apply Hb.
Qed.

Lemma one_identity_tracks_history tr :
  one_identity [] tr = true → tracks_history tr (final tr).
Proof.
  induction tr as [|ev tr IH] using rev_ind; intros Hwf.
  - apply tracks_history_init.
  - rewrite one_identity_snoc in Hwf.
    apply andb_true_iff in Hwf as [Hwf Hadm].
    rewrite final_snoc. by apply tracks_history_step; [apply IH|].
Qed.

(** Without that discipline the registry can keep a closed socket: a
    socket that joins as A and then as B is only removed from B's set
    when it closes. *)
Example rebinding_leaves_stale_entry :
  let tr := [UserJoin "s1" "A" true; UserJoin "s1" "B" true;
             Disconnect "s1" true] in
  lookup (final tr) "A" = ["s1"] ∧ live_connections tr "A" = [].
Proof. by vm_compute. Qed.

(** C1 fails for a connection that announces a second identity. A
    connection that announces itself as [A], then as [B], and then
    closes is taken out of [B]'s set only, the identity [userSockets]
    holds for it at that time. [A] stays a key of [onlineUsers], mapped
    to the closed connection, although no connection of [A] is live, and
    an offer for [A] is forwarded to the closed socket instead of being
    answered with [call_failed]. *)
Theorem presence_outlives_rebound_connection :
  let tr := [UserJoin "s1" "A" true; UserJoin "s1" "B" true;
             Disconnect "s1" true] in
  let offer := WebrtcOffer (OfferData "A" "C" "Carol" "sdp" Audio "chat") in
  live_connections tr "A" = [] ∧
  "A" ∈ dom (onlineUsers (final tr)) ∧
  lookup (final tr) "A" = ["s1"] ∧
  userSockets (final tr) !! "s1" = None ∧
  snd (step (final tr) (ClientEmit "s2" offer)) = [IoTo "s1" offer].
Proof.
  intros tr offer. split; [reflexivity|]. split.
  - apply elem_of_dom. exists ["s1"]. by vm_compute.
  - split; [by vm_compute|]. split; by vm_compute.
Qed.

(** What does hold after every finite sequence of [user_join] and
    [disconnect] events (interleaved with any signaling traffic): a user
    id is a key of [onlineUsers] exactly when its connection set is
    non-empty, and no key is mapped to the empty set. When moreover every
    connection announces a single, non-empty identity, the stored set is
    the list of that user's connections that joined and have not closed,
    so the user is present exactly when such a connection exists. *)
Theorem presence_invariant (tr : list event) (u : user_id) :
  (u ∈ dom (onlineUsers (final tr)) ↔ lookup (final tr) u ≠ []) ∧
  onlineUsers (final tr) !! u ≠ Some [] ∧
  (one_identity [] tr = true →
     lookup (final tr) u = live_connections tr u ∧
     (u ∈ dom (onlineUsers (final tr)) ↔ live_connections tr u ≠ [])).
Proof.
  pose proof (final_no_empty_set tr u) as Hne.
  assert (Hiff : u ∈ dom (onlineUsers (final tr)) ↔ lookup (final tr) u ≠ []).
  { rewrite elem_of_dom. unfold lookup.
    destruct (onlineUsers (final tr) !! u) as [s|] eqn:E; simpl.
    - split; [|by eauto]. intros _ ->. by apply Hne.
    - split; [by intros [? ?]|done]. }
  split; [done|]. split; [done|].
  intros Hwf. apply one_identity_tracks_history in Hwf as [Hl _ _].
  split; [apply Hl|]. by rewrite <- Hl.
Qed.

Lemma presence_invariant_witness :
  let tr := [UserJoin "c1" "alice" true; UserJoin "c1" "alice" true;
             UserJoin "c2" "alice" true;
             ClientEmit "c1" (WebrtcCallEnded (EndedData "bob" "chat"));
             Disconnect "c1" true] in
  one_identity [] tr = true ∧
  lookup (final tr) "alice" = live_connections tr "alice" ∧
  ("alice" ∈ dom (onlineUsers (final tr)) ↔
   live_connections tr "alice" ≠ []).
Proof.
  intros tr. split; [reflexivity|].
  apply (presence_invariant tr "alice"). reflexivity.
Defined.

(** ** Stored sets have no repetitions, and hold every bound socket *)

Lemma set_add_NoDup x s : NoDup s → NoDup (set_add x s).
Proof.
  intros Hs. unfold set_add. destruct (decide (x ∈ s)) as [Hin|Hin]; [done|].
  apply NoDup_app. split; [done|]. split; [|apply NoDup_singleton].
  intros y Hy ->%list_elem_of_singleton. done.
Qed.

Lemma set_delete_NoDup x s : NoDup s → NoDup (set_delete x s).
Proof. apply NoDup_filter. Qed.


Lemma step_well_kept st ev : well_kept st → well_kept (fst (step st ev)).
Proof.
  intros [Hnd Hb]. destruct ev as [sid v ok|sid m|sid ok]; cbn [step fst].
  - split.
    + intros u. rewrite lookup_user_join.
      destruct (decide (u = v)); [by apply set_add_NoDup|done].
    + intros s u. rewrite lookup_user_join, user_join_state. simpl.
      destruct (decide (s = sid)) as [->|Hne].
      * rewrite lookup_insert_eq. intros [= ->].
        rewrite decide_True by done. apply elem_of_set_add. by left.
      * rewrite lookup_insert_ne by done. intros H%Hb.
        destruct (decide (u = v)) as [->|]; [|done].
        apply elem_of_set_add. by right.
  - by split.
  - split.
    + intros u. rewrite lookup_disconnect.
      destruct (userSockets st !! sid) as [w|]; [|done].
      destruct (truthy w && bool_decide (u = w)); [|done].
      by apply set_delete_NoDup.
    + intros s u. rewrite lookup_disconnect. unfold disconnect.
      destruct (userSockets st !! sid) as [w|] eqn:E; [|by apply Hb].
      destruct (truthy w); simpl; [|by apply Hb].
      assert (Hus : ∀ x, userSockets (x : state * list effect).1 =
                         delete sid (userSockets st) →
                         userSockets x.1 !! s = Some u →
                         s ≠ sid ∧ userSockets st !! s = Some u).
      { intros x -> H. destruct (decide (s = sid)) as [->|Hne].
        - by rewrite lookup_delete_eq in H.
        - by rewrite lookup_delete_ne in H. }
      intros H. eapply Hus in H as [Hne H].
      * apply Hb in H.
        destruct (bool_decide_reflect (u = w)) as [->|]; [|done].
        by apply elem_of_set_delete.
      * destruct (onlineUsers st !! w); [|done]. by destruct (Nat.eqb _ 0).
Qed.

Lemma final_well_kept tr : well_kept (final tr).
Proof.
  induction tr as [|ev tr IH] using rev_ind.
  - split.
    + intros u. unfold lookup, final. simpl. rewrite lookup_empty.
      apply NoDup_nil_2.
    + intros sid u. unfold final. simpl. by rewrite lookup_empty.
  - rewrite final_snoc. by apply step_well_kept.
Qed.

(** ** The relay *)

(** C2 does not hold as written: an answer whose recipient has no
    connection is dropped without any reply, and the reply to an offer
    carries another reason. *)
Lemma unreachable_reply_counterexample :
  lookup init "bob" = [] ∧
  ¬ replies_unreachable init "c1"
      (WebrtcAnswer (AnswerData "bob" "alice" "sdp" "chat")) ∧
  ¬ replies_unreachable init "c1"
      (WebrtcOffer (OfferData "bob" "alice" "Alice" "sdp" Audio "chat")).
Proof. split; [done|]. split; by intros [=]. Qed.

(** C2, amended. When the recipient has no connection, no kind of
    signaling message is forwarded and both maps stay as they are.
    The sender is told only for [webrtc_offer], by a [call_failed] with
    the reason "User is offline" on its own socket; [webrtc_answer],
    [webrtc_ice_candidate] and [webrtc_call_ended] are dropped without a
    reply. This is the only place the relay emits [call_failed]. *)
Theorem unreachable_recipient (st : state) (sid : socket_id) (m : signal)
    (u : user_id) :
  signal_to m = Some u →
  lookup st u = [] →
  step st (ClientEmit sid m) =
    (st, match m with
         | WebrtcOffer _ => [SocketEmit sid (CallFailed "User is offline")]
         | _ => []
         end) ∧
  forwards (snd (step st (ClientEmit sid m))) = [] ∧
  (∀ st' sid' m' s r,
     SocketEmit s (CallFailed r) ∈ snd (step st' (ClientEmit sid' m')) →
     ∃ d, m' = WebrtcOffer d ∧ lookup st' (o_to d) = [] ∧
          s = sid' ∧ r = "User is offline").
Proof.
  intros Hto Hl.
  assert (Hstep : step st (ClientEmit sid m) =
    (st, match m with
         | WebrtcOffer _ => [SocketEmit sid (CallFailed "User is offline")]
         | _ => []
         end)).
  { destruct m; simpl in *; try done; injection Hto as ->; by rewrite Hl. }
  split; [done|]. split.
  - rewrite Hstep. by destruct m.
  - clear. intros st sid m s r. simpl.
    destruct m as [d|d|d|d|?|? ?]; simpl.
    + destruct (lookup st (o_to d)) eqn:E.
      * intros [= -> ->]%list_elem_of_singleton. by exists d.
      * by intros [=]%list_elem_of_singleton.
    + destruct (lookup st (a_to d));
        [by intros ?%not_elem_of_nil|by intros [=]%list_elem_of_singleton].
    + destruct (lookup st (i_to d));
        [by intros ?%not_elem_of_nil|by intros [=]%list_elem_of_singleton].
    + intros (c & [=] & _)%list_elem_of_fmap.
    + by intros ?%not_elem_of_nil.
    + by intros ?%not_elem_of_nil.
Qed.

Lemma unreachable_recipient_witness :
  let offer := WebrtcOffer (OfferData "bob" "alice" "Alice" "sdp" Video "chat") in
  step init (ClientEmit "c1" offer) =
    (init, [SocketEmit "c1" (CallFailed "User is offline")]) ∧
  forwards (snd (step init (ClientEmit "c1" offer))) = [].
Proof.
  intros offer.
  destruct (unreachable_recipient init "c1" offer "bob") as (H1 & H2 & _);
    [reflexivity|reflexivity|].
  exact (conj H1 H2).
Defined.

(** C3. When the recipient has at least one connection, [webrtc_offer],
    [webrtc_answer] and [webrtc_ice_candidate] are forwarded, unchanged,
    to exactly one socket, the first of the recipient's set, and
    [webrtc_call_ended] is forwarded to every socket of the set, once
    each. Nothing else is emitted and the maps are not touched. *)
Theorem forward_to_recipient (st : state) (sid : socket_id) (m : signal)
    (u : user_id) (first : socket_id) (rest : list socket_id) :
  signal_to m = Some u →
  lookup st u = first :: rest →
  step st (ClientEmit sid m) =
    (st, match m with
         | WebrtcCallEnded _ => map (λ socketId, IoTo socketId m) (first :: rest)
         | _ => [IoTo first m]
         end).
Proof.
  intros Hto Hl.
  destruct m; simpl in *; try done; injection Hto as ->; by rewrite Hl.
Qed.

Lemma forward_to_recipient_witness :
  let st := final [UserJoin "c1" "alice" true; UserJoin "c2" "bob" true;
                   UserJoin "c3" "bob" true] in
  let offer := WebrtcOffer (OfferData "bob" "alice" "Alice" "sdp" Video "chat") in
  let ended := WebrtcCallEnded (EndedData "bob" "chat") in
  lookup st "bob" = ["c2"; "c3"] ∧
  step st (ClientEmit "c1" offer) = (st, [IoTo "c2" offer]) ∧
  step st (ClientEmit "c1" ended) = (st, [IoTo "c2" ended; IoTo "c3" ended]).
Proof.
  intros st offer ended.
  split; [reflexivity|]. split.
  - apply (forward_to_recipient st "c1" offer "bob" "c2" ["c3"]); reflexivity.
  - apply (forward_to_recipient st "c1" ended "bob" "c2" ["c3"]); reflexivity.
Defined.



(** ** Status broadcasts *)

(** C5 does not hold as written: the first connection of a user takes
    the count from zero to one, but when the status update in the user
    store is rejected the handler's [catch] is entered before
    [socket.broadcast.emit], so no "online" broadcast goes out. *)
Lemma online_broadcast_counterexample :
  ¬ online_exactly_on_first init "c1" "alice" false.
Proof.
  unfold online_exactly_on_first. intros [_ H].
  apply H; [split; reflexivity|reflexivity].
Qed.

(** C5, amended. Registering a connection that is not yet in the user's
    set broadcasts "online" exactly when the set was empty before and
    the status update in the user store succeeded; so a second connection
    of a user who is already online never re-emits it. Closing a bound
    connection broadcasts "offline" exactly when no connection of the
    user remains and the status update succeeded; so closing one of
    several connections never emits it. Neither handler broadcasts
    anything else. *)
Theorem status_broadcast_transitions (st : state) (u : user_id)
    (db_ok : bool) :
  (∀ sid, sid ∉ lookup st u →
     broadcasts (snd (step st (UserJoin sid u db_ok))) =
       if bool_decide (lookup st u = []) && db_ok
       then [BroadcastFrom sid (UserStatusChange u Online)] else []) ∧
  (∀ sid, userSockets st !! sid = Some u → truthy u = true →
     sid ∈ lookup st u →
     broadcasts (snd (step st (Disconnect sid db_ok))) =
       if bool_decide (set_delete sid (lookup st u) = []) && db_ok
       then [BroadcastFrom sid (UserStatusChange u Offline)] else []).
Proof.
  split.
  - intros sid Hfresh. cbn [step]. rewrite user_join_count.
    rewrite set_add_fresh_length by done.
    destruct (lookup st u) as [|c s]; simpl; [by destruct db_ok|].
    by destruct s.
  - intros sid Hus Hu Hin. cbn [step]. unfold disconnect.
    rewrite Hus, Hu. unfold lookup in *.
    destruct (onlineUsers st !! u) as [s|]; simpl in *;
      [|by apply not_elem_of_nil in Hin].
    destruct (set_delete sid s); simpl; [by destruct db_ok|done].
Qed.

Lemma status_broadcast_transitions_witness :
  let st := final [UserJoin "c1" "alice" true] in
  ("c2" ∉ lookup st "alice") ∧
  broadcasts (snd (step st (UserJoin "c2" "alice" true))) = [] ∧
  userSockets st !! "c1" = Some "alice" ∧
  "c1" ∈ lookup st "alice" ∧
  broadcasts (snd (step st (Disconnect "c1" true))) =
    [BroadcastFrom "c1" (UserStatusChange "alice" Offline)].
Proof.
  intros st.
  assert (H2 : "c2" ∉ lookup st "alice") by (vm_compute; by intros [=]%list_elem_of_singleton).
  assert (H1 : "c1" ∈ lookup st "alice") by (vm_compute; left).
  destruct (status_broadcast_transitions st "alice" true) as [Hjoin Hdisc].
  split; [exact H2|]. split; [exact (Hjoin "c2" H2)|].
  split; [reflexivity|]. split; [exact H1|].
  exact (Hdisc "c1" eq_refl eq_refl H1).
Defined.

End ServerFacts.

(** * Properties of the client *)

Module ClientFacts.
Import Client.

Lemma run_app pr st tr1 tr2 :
  run pr st (tr1 ++ tr2) =
  (fst (run pr (fst (run pr st tr1)) tr2),
   snd (run pr st tr1) ++ snd (run pr (fst (run pr st tr1)) tr2)).
Proof.
  revert st. induction tr1 as [|ev tr1 IH]; intros st; simpl.
  - by destruct (run pr st tr2).
  - destruct (step pr st ev) as [st1 a1]. rewrite IH.
    destruct (run pr st1 tr1) as [st2 a2]. simpl.
    by rewrite <- app_assoc.
Qed.

Lemma run_cons pr st ev tr :
  run pr st (ev :: tr) =
  (fst (run pr (fst (step pr st ev)) tr),
   snd (step pr st ev) ++ snd (run pr (fst (step pr st ev)) tr)).
Proof.
  cbn [run]. destruct (step pr st ev) as [st1 a1]. cbn [fst snd].
  by destruct (run pr st1 tr).
Qed.

(** ** Projections of the call log *)

Lemma flushed_app a b : flushed (a ++ b) = flushed a ++ flushed b.
Proof. apply omap_app. Qed.
Lemma queued_app a b : queued (a ++ b) = queued a ++ queued b.
Proof. apply omap_app. Qed.
Lemma premature_app a b : premature (a ++ b) = premature a ++ premature b.
Proof. apply omap_app. Qed.
Lemma sent_app a b : sent (a ++ b) = sent a ++ sent b.
Proof. apply omap_app. Qed.
Lemma negotiation_sent_app a b :
  negotiation_sent (a ++ b) = negotiation_sent a ++ negotiation_sent b.
Proof. apply omap_app. Qed.





Lemma omap_map_None {A B C} (f : B → option C) (g : A → B) (l : list A) :
  (∀ x, f (g x) = None) → omap f (map g l) = [].
Proof. intros H. induction l as [|x l IH]; [done|]. simpl. by rewrite H. Qed.

Ltac unfold_step :=
  unfold step, resume, on_socket, toggleVideo, on_connectionstatechange,
    on_negotiationneeded, on_icecandidate, handleEndCall, cleanup,
    offer_flush, answer_flush, flush_next, initializePeerConnection,
    new_stream, stop_tracks, toggle_finish, stream_addTrack, spawn, with_pc,
    has_remote.

Ltac log_simpl :=
  unfold flushed, queued, premature, sent, negotiation_sent;
  repeat (rewrite omap_app || (rewrite omap_map_None by done) || simpl).

Ltac step_cases :=
  unfold_step; repeat (case_match; simplify_eq; simpl in *; try done).

Lemma step_fifo pr st ev :
  flushed (snd (step pr st ev)) ++ iceCandidatesQueue (fst (step pr st ev)) =
  iceCandidatesQueue st ++ queued (snd (step pr st ev)).
Proof.
  step_cases; log_simpl; rewrite ?app_nil_r; try done.
Qed.


(** ** Suspended handlers and the connection they use *)

Lemma consistent_init pr : consistent (init pr).
Proof.
  split; intros i; simpl.
  - intros k. destruct i; simpl; [by intros [= <-]|done].
  - by destruct i.
Qed.

Ltac lookup_cases H :=
  first
    [ apply list_lookup_insert_Some in H as [(?&?&?)|(?&H)]
    | apply lookup_snoc_Some in H as [(?&H)|(?&?)]
    | idtac ].

Lemma step_consistent pr st ev :
  consistent st → consistent (fst (step pr st ev)).
Proof.
  intros [HA HB]. destruct st as [ls ivo cs err pc q rls rivo mt trk strm tsk].
  unfold has_pc, has_remote in HA. simpl in HA, HB.
  split; unfold has_pc, has_remote.
  - step_cases; intros j k Hj; lookup_cases Hj; simplify_eq; try done;
      try (specialize (HA _ _ Hj); by destruct k);
      try (match goal with
           | H : tsk !! _ = Some _ |- _ => specialize (HA _ _ H); done
           end).
    all: specialize (HA _ _ Hj); destruct k; try done;
      apply HB in Hj; apply HB in H; congruence.
  - step_cases; intros j Hj; lookup_cases Hj; simplify_eq; try done;
      by apply HB.
Qed.

Lemma run_consistent pr st tr :
  consistent st → consistent (fst (run pr st tr)).
Proof.
  revert st. induction tr as [|ev tr IH]; intros st Hst; [done|].
  rewrite run_cons. cbn [fst]. by apply IH, step_consistent.
Qed.

(** [addIceCandidate] is never called on a connection without a remote
    description. *)
Lemma step_never_premature pr st ev :
  consistent st → premature (snd (step pr st ev)) = [].
Proof.
  intros [HA _]. destruct st as [ls ivo cs err pc q rls rivo mt trk strm tsk].
  unfold has_pc, has_remote in HA. simpl in HA.
  step_cases; log_simpl; try done;
    try match goal with
    | H : tsk !! _ = Some _ |- _ => by specialize (HA _ _ H)
    end.
Qed.

Lemma run_never_premature pr st tr :
  consistent st → premature (snd (run pr st tr)) = [].
Proof.
  revert st. induction tr as [|ev tr IH]; intros st Hst; [done|].
  rewrite run_cons. cbn [snd]. rewrite premature_app.
  rewrite step_never_premature by done.
  by rewrite IH by by apply step_consistent.
Qed.

Lemma run_fifo pr st tr :
  flushed (snd (run pr st tr)) ++ iceCandidatesQueue (fst (run pr st tr)) =
  iceCandidatesQueue st ++ queued (snd (run pr st tr)).
Proof.
  revert st. induction tr as [|ev tr IH]; intros st.
  - simpl. by rewrite app_nil_r.
  - rewrite run_cons. cbn [fst snd]. rewrite flushed_app, queued_app.
    rewrite <- app_assoc, IH, !app_assoc. f_equal. apply step_fifo.
Qed.

(** ** The flush loops, run without interruption *)

Lemma step_resume pr st i k r x :
  tasks st !! i = Some k →
  resume pr k r st = Some x →
  step pr st (Resume i r) =
    (set_tasks (<[i := x.2]> (tasks x.1.1)) x.1.1, x.1.2).
Proof.
  intros Hk Hr. cbn [step]. rewrite Hk, Hr. by destruct x as [[? ?] ?].
Qed.


Lemma offer_flush_run pr i d q : ∀ st,
  tasks st !! i = Some (KOfferAddIce d) →
  has_remote st = true →
  iceCandidatesQueue st = q →
  let r := run pr st (replicate (S (length q)) (Resume i Resolved)) in
  snd r = map (λ c, AddIceCandidate OfferFlush c true) q ++ [CreateAnswer] ∧
  iceCandidatesQueue (fst r) = [] ∧
  remote_of (fst r) = remote_of st ∧
  tasks (fst r) !! i = Some (KOfferCreateAnswer d).
Proof.
  induction q as [|c q IH]; intros st Hk Hrd Hq r; subst r.
  - cbn [length replicate]. rewrite run_cons.
    erewrite step_resume; [|done|done]. unfold offer_flush, flush_next.
    rewrite Hq. cbn. split; [done|]. split; [done|]. split; [done|].
    apply list_lookup_insert_eq. by eapply lookup_lt_Some.
  - cbn [length replicate]. rewrite run_cons.
    erewrite step_resume; [|done|done]. unfold offer_flush, flush_next.
    rewrite Hq, Hrd. cbn [fst snd].
    set (st1 := set_tasks _ _).
    destruct (IH st1) as (Ha & Hq' & Hr' & Hk').
    + apply list_lookup_insert_eq. by eapply lookup_lt_Some.
    + unfold st1, has_remote in *. simpl. done.
    + done.
    + cbn [length replicate] in *. rewrite Ha. done.
Qed.

Lemma answer_flush_run pr i q : ∀ st,
  tasks st !! i = Some KAnswerAddIce →
  has_remote st = true →
  iceCandidatesQueue st = q →
  let r := run pr st (replicate (S (length q)) (Resume i Resolved)) in
  snd r = map (λ c, AddIceCandidate AnswerFlush c true) q ∧
  iceCandidatesQueue (fst r) = [] ∧
  remote_of (fst r) = remote_of st ∧
  callStatus (fst r) = Connected ∧
  tasks (fst r) !! i = Some Finished.
Proof.
  induction q as [|c q IH]; intros st Hk Hrd Hq r; subst r.
  - cbn [length replicate]. rewrite run_cons.
    erewrite step_resume; [|done|done]. unfold answer_flush, flush_next.
    rewrite Hq. cbn. split; [done|]. split; [done|]. split; [done|].
    split; [done|].
    apply list_lookup_insert_eq. by eapply lookup_lt_Some.
  - cbn [length replicate]. rewrite run_cons.
    erewrite step_resume; [|done|done]. unfold answer_flush, flush_next.
    rewrite Hq, Hrd. cbn [fst snd].
    set (st1 := set_tasks _ _).
    destruct (IH st1) as (Ha & Hq' & Hr' & Hk').
    + apply list_lookup_insert_eq. by eapply lookup_lt_Some.
    + unfold st1, has_remote in *. simpl. done.
    + done.
    + cbn [length replicate] in *. rewrite Ha. done.
Qed.

(** [setRemoteDescription(offer)] settles: the queue is drained, oldest
    first, before [createAnswer] is called. *)
Lemma offer_remote_then_flush pr st i d pc :
  tasks st !! i = Some (KOfferSetRemote d) →
  peerConnectionRef st = Some pc →
  let q := iceCandidatesQueue st in
  let r := run pr st (replicate (S (length q)) (Resume i Resolved)) in
  snd r = map (λ c, AddIceCandidate OfferFlush c true) q ++ [CreateAnswer] ∧
  iceCandidatesQueue (fst r) = [] ∧
  remote_of (fst r) = Some (o_offer d) ∧
  tasks (fst r) !! i = Some (KOfferCreateAnswer d).
Proof.
  intros Hk Hpc q r. subst q r.
  assert (Hi : i < length (tasks st)) by by eapply lookup_lt_Some.
  destruct (iceCandidatesQueue st) as [|c q] eqn:Hq.
  - cbn [length replicate]. rewrite run_cons.
    erewrite step_resume; [|done|done].
    unfold offer_flush, flush_next, with_pc. rewrite Hpc. cbn.
    rewrite Hq. cbn. split; [done|]. split; [done|]. split; [done|].
    by apply list_lookup_insert_eq.
  - cbn [length replicate]. rewrite run_cons.
    erewrite step_resume; [|done|done].
    unfold offer_flush, flush_next, with_pc. rewrite Hpc. cbn -[run].
    rewrite Hq. cbn [fst snd].
    set (st1 := set_tasks _ _).
    destruct (offer_flush_run pr i d q st1) as (Ha & Hq' & Hr' & Hk').
    + by apply list_lookup_insert_eq.
    + done.
    + done.
    + cbn [length replicate] in *. rewrite Ha. done.
Qed.

Lemma answer_remote_then_flush pr st i d pc :
  tasks st !! i = Some (KAnswerSetRemote d) →
  peerConnectionRef st = Some pc →
  let q := iceCandidatesQueue st in
  let r := run pr st (replicate (S (length q)) (Resume i Resolved)) in
  snd r = map (λ c, AddIceCandidate AnswerFlush c true) q ∧
  iceCandidatesQueue (fst r) = [] ∧
  remote_of (fst r) = Some (a_answer d) ∧
  callStatus (fst r) = Connected ∧
  tasks (fst r) !! i = Some Finished.
Proof.
  intros Hk Hpc q r. subst q r.
  assert (Hi : i < length (tasks st)) by by eapply lookup_lt_Some.
  destruct (iceCandidatesQueue st) as [|c q] eqn:Hq.
  - cbn [length replicate]. rewrite run_cons.
    erewrite step_resume; [|done|done].
    unfold answer_flush, flush_next, with_pc. rewrite Hpc. cbn.
    rewrite Hq. cbn. split; [done|]. split; [done|]. split; [done|].
    split; [done|]. by apply list_lookup_insert_eq.
  - cbn [length replicate]. rewrite run_cons.
    erewrite step_resume; [|done|done].
    unfold answer_flush, flush_next, with_pc. rewrite Hpc. cbn -[run].
    rewrite Hq. cbn [fst snd].
    set (st1 := set_tasks _ _).
    destruct (answer_flush_run pr i q st1) as (Ha & Hq' & Hr' & Hc' & Hk').
    + by apply list_lookup_insert_eq.
    + done.
    + done.
    + cbn [length replicate] in *. rewrite Ha. done.
Qed.


(** ** Before there is a peer connection *)

Lemma step_keeps_pc pr st ev :
  has_pc st = true → has_pc (fst (step pr st ev)) = true.
Proof.
  destruct st as [ls ivo cs err pc q rls rivo mt trk strm tsk].
  unfold has_pc. simpl. intros Hpc. step_cases.
Qed.

Lemma run_keeps_pc pr st tr :
  has_pc st = true → has_pc (fst (run pr st tr)) = true.
Proof.
  revert st. induction tr as [|ev tr IH]; intros st Hst; [done|].
  rewrite run_cons. cbn [fst]. by apply IH, step_keeps_pc.
Qed.

Lemma step_no_pc_silent pr st ev :
  consistent st → has_pc st = false →
  negotiation_sent (snd (step pr st ev)) = [].
Proof.
  intros [HA _]. destruct st as [ls ivo cs err pc q rls rivo mt trk strm tsk].
  unfold has_pc, has_remote in *. simpl in *. intros Hpc.
  destruct pc; [done|].
  step_cases; log_simpl; try done;
    try match goal with
    | H : tsk !! _ = Some _ |- _ => by specialize (HA _ _ H)
    end.
Qed.

Lemma run_no_pc_silent pr st tr :
  consistent st → has_pc (fst (run pr st tr)) = false →
  negotiation_sent (snd (run pr st tr)) = [].
Proof.
  revert st. induction tr as [|ev tr IH]; intros st Hst Hend; [done|].
  rewrite run_cons in *. cbn [fst snd] in *. rewrite negotiation_sent_app.
  rewrite IH by (done || by apply step_consistent).
  rewrite step_no_pc_silent; [done|done|].
  destruct (has_pc st) eqn:E; [|done].
  by rewrite run_keeps_pc in Hend by by apply step_keeps_pc.
Qed.


Lemma step_media_settled pr st ev :
  media_settled st → has_pc st = false →
  media_settled (fst (step pr st ev)) ∧ has_pc (fst (step pr st ev)) = false.
Proof.
  destruct st as [ls ivo cs err pc q rls rivo mt trk strm tsk].
  unfold media_settled, has_pc. simpl. intros Hm Hpc. destruct pc; [done|].
  split.
  - step_cases; intros j Hj; lookup_cases Hj; simplify_eq; try done;
      by eapply Hm.
  - step_cases; by edestruct Hm.
Qed.

Lemma run_media_settled pr st tr :
  media_settled st → has_pc st = false →
  has_pc (fst (run pr st tr)) = false.
Proof.
  revert st. induction tr as [|ev tr IH]; intros st Hm Hpc; [done|].
  rewrite run_cons. cbn [fst].
  destruct (step_media_settled pr st ev Hm Hpc). by apply IH.
Qed.

(** ** Tracks keep their kind *)

Lemma foldl_alter_length (f : track → track) (l : list nat) :
  ∀ trk : list track,
  length (foldl (λ ts tid, alter f tid ts) trk l) = length trk.
Proof.
  induction l as [|x l IH]; intros trk; simpl; [done|].
  by rewrite IH, length_alter.
Qed.

Lemma foldl_alter_kind (f : track → track) (l : list nat) :
  (∀ t, t_kind (f t) = t_kind t) →
  ∀ (trk : list track) (tid : nat),
    t_kind <$> foldl (λ ts x, alter f x ts) trk l !! tid =
    t_kind <$> trk !! tid.
Proof.
  intros Hf. induction l as [|x l IH]; intros trk tid; simpl; [done|].
  rewrite IH, list_lookup_alter. case_decide; simplify_eq; [|done].
  destruct (trk !! tid); simpl; [|done]. by rewrite Hf.
Qed.

Lemma find_video_sender_ext st st' ss : ∀ k,
  (∀ tid, Some tid ∈ ss → is_video st' tid = is_video st tid) →
  find_video_sender st' ss k = find_video_sender st ss k.
Proof.
  induction ss as [|s ss IH]; intros k H; simpl; [done|].
  destruct s as [tid|].
  - rewrite H by left. rewrite IH; [done|]. intros ? ?. apply H. by right.
  - apply IH. intros ? ?. apply H. by right.
Qed.


Lemma senders_exist_spec st pc tid :
  senders_exist st pc = true → Some tid ∈ senders pc →
  tid < length (tracks st).
Proof.
  unfold senders_exist. rewrite forallb_forall. intros H Hin.
  apply list_elem_of_In, H in Hin. by apply bool_decide_eq_true in Hin.
Qed.

(** ** Renegotiation *)

Lemma lookup_snoc_length {A} (l : list A) (x : A) :
  (l ++ [x]) !! length l = Some x.
Proof. by apply list_lookup_middle. Qed.

(** Turning the camera off only flips [enabled] on the video tracks. *)
Lemma toggle_off_step pr st ls pc :
  mounted st = true → callType pr = Video →
  rendered_localStream st = Some ls → rendered_isVideoOff st = false →
  peerConnectionRef st = Some pc →
  step pr st ClickToggleVideo =
    (set_isVideoOff true
       (set_tracks (foldl (λ ts tid, alter disable_track tid ts) (tracks st)
                          (video_tracks st ls)) st), []).
Proof.
  intros Hm Hc Hls Hoff Hpc. cbn [step]. rewrite Hm. unfold toggleVideo.
  by rewrite Hls, Hc, Hpc, Hoff.
Qed.

(** Turning it back on: a new track is acquired and put on the sender
    that carried the old one. *)
Lemma toggle_on_run pr st ls pc j :
  mounted st = true → callType pr = Video →
  rendered_localStream st = Some ls → rendered_isVideoOff st = true →
  peerConnectionRef st = Some pc →
  (∀ tid, Some tid ∈ senders pc → tid < length (tracks st)) →
  find_video_sender st (senders pc) 0 = Some j →
  let i := length (tasks st) in
  let n := length (tracks st) in
  let r := run pr st [ClickToggleVideo; Resume i Resolved; Resume i Resolved] in
  snd r = map TrackStop (video_tracks st ls)
          ++ [GetUserMedia false true; ReplaceTrack j n] ∧
  peerConnectionRef (fst r) = Some (pc_set_sender j n pc) ∧
  t_kind <$> tracks (fst r) !! n = Some VideoTrack ∧
  isVideoOff (fst r) = false ∧
  length (tasks (fst r)) = S i.
Proof.
  intros Hm Hc Hls Hoff Hpc Hex Hfind i n r. subst r.
  rewrite run_cons. cbn [step]. rewrite Hm. unfold toggleVideo.
  rewrite Hls, Hc, Hpc, Hoff. cbn [negb stop_tracks fst snd].
  set (trk1 := foldl _ _ _).
  set (st1 := spawn _ _).
  assert (Hlen1 : length trk1 = n) by apply foldl_alter_length.
  assert (Hk1 : tasks st1 !! i = Some (KToggleGetUserMedia ls))
    by apply lookup_snoc_length.
  rewrite run_cons. erewrite (step_resume pr st1); [|exact Hk1|].
  2:{ cbn [resume new_stream]. simpl. rewrite Hpc.
      rewrite (find_video_sender_ext st).
      - rewrite Hfind. done.
      - intros tid Htid. unfold is_video. simpl. f_equal.
        rewrite lookup_app_l by (rewrite Hlen1; by apply Hex).
        unfold trk1. rewrite foldl_alter_kind; done. }
  cbn [fst snd]. unfold stream_tracks. cbn -[run].
  rewrite !lookup_snoc_length. cbn -[run].
  rewrite Hlen1.
  set (st2 := set_tasks _ _).
  rewrite run_cons.
  erewrite (step_resume pr st2 i (KToggleReplace ls j n)); [| |done].
  2:{ unfold st2. simpl. apply list_lookup_insert_eq.
      rewrite length_app. simpl. lia. }
  cbn [fst snd run]. rewrite app_nil_r.
  split; [by rewrite <- app_assoc|].
  split; [unfold with_pc; simpl; by rewrite Hpc|].
  split.
  { unfold with_pc. simpl. rewrite Hpc. simpl.
    rewrite <- Hlen1. by rewrite lookup_snoc_length. }
  split; [done|].
  unfold with_pc. simpl. rewrite Hpc. simpl.
  rewrite !length_insert, length_app. simpl. lia.
Qed.


(** A renegotiation trigger on a stable connection: one offer is
    created, applied locally and sent. *)
Lemma negotiation_run pr st pc o :
  peerConnectionRef st = Some pc → signalingState pc = Stable →
  let i := length (tasks st) in
  let r := run pr st [PcNegotiationNeeded; Resume i (ResolvedSdp o);
                      Resume i Resolved] in
  snd r = [CreateOffer; SetLocalDescription o; Emit (offer_of pr o)] ∧
  peerConnectionRef (fst r) = Some (pc_set_signaling HaveLocalOffer pc) ∧
  tracks (fst r) = tracks st ∧
  length (tasks (fst r)) = S i.
Proof.
  intros Hpc Hst i r. subst r.
  rewrite run_cons. cbn [step]. unfold on_negotiationneeded.
  rewrite Hpc, Hst. cbn [bool_decide fst snd].
  rewrite bool_decide_false by (by intros H).
  cbn [fst snd]. set (st1 := spawn _ _).
  rewrite run_cons.
  erewrite (step_resume pr st1 i KNegCreateOffer);
    [|apply lookup_snoc_length|done].
  cbn [fst snd]. set (st2 := set_tasks _ _).
  rewrite run_cons.
  erewrite (step_resume pr st2 i (KNegSetLocal o)); [| |done].
  2:{ unfold st2. simpl. apply list_lookup_insert_eq.
      rewrite length_app. simpl. lia. }
  cbn [fst snd run]. unfold with_pc. simpl. rewrite Hpc. simpl.
  split; [done|]. split; [done|]. split; [done|].
  rewrite !length_insert, length_app. simpl. lia.
Qed.

(** A trigger that fires while an exchange is in flight is dropped. *)
Lemma negotiation_dropped pr st pc :
  peerConnectionRef st = Some pc → signalingState pc ≠ Stable →
  step pr st PcNegotiationNeeded = (st, []).
Proof.
  intros Hpc Hst. cbn [step]. unfold on_negotiationneeded.
  by rewrite Hpc, bool_decide_true.
Qed.

Lemma video_tracks_ext st st' ls :
  streams st' = streams st →
  (∀ tid, t_kind <$> tracks st' !! tid = t_kind <$> tracks st !! tid) →
  video_tracks st' ls = video_tracks st ls.
Proof.
  intros Hs Hk. unfold video_tracks, stream_tracks. rewrite Hs.
  apply List.filter_ext. intros tid. unfold is_video. by rewrite Hk.
Qed.

(** C7. Video off, then on, within one call, on a stable connection
    whose video track sits on sender [j]: the component stops the old
    video track, acquires a new one and calls [replaceTrack] on sender
    [j]; it adds no sender and sends nothing. When the browser then
    raises [negotiationneeded], one offer is created, set as local
    description and sent; a further [negotiationneeded] raised while
    that offer is outstanding is dropped, so exactly one offer has been
    sent. More generally every trigger on a stable connection sends
    exactly one fresh offer once [createOffer] and [setLocalDescription]
    succeed, and every trigger on a connection that is not stable
    changes nothing and sends nothing. *)
Theorem video_toggle_renegotiates_once (pr : props) :
  (∀ st ls pc j o,
     mounted st = true → callType pr = Video →
     localStream st = Some ls → rendered_localStream st = Some ls →
     rendered_isVideoOff st = false →
     peerConnectionRef st = Some pc → signalingState pc = Stable →
     senders_exist st pc = true →
     find_video_sender st (senders pc) 0 = Some j →
     let i := length (tasks st) in
     let n := length (tracks st) in
     let off_on := [ClickToggleVideo; Render; ClickToggleVideo;
                    Resume i Resolved; Resume i Resolved] in
     let negotiate := [PcNegotiationNeeded; Resume (S i) (ResolvedSdp o);
                       Resume (S i) Resolved] in
     let r := run pr st (off_on ++ negotiate ++ [PcNegotiationNeeded]) in
     snd (run pr st off_on) =
       map TrackStop (video_tracks st ls)
       ++ [GetUserMedia false true; ReplaceTrack j n] ∧
     snd r = snd (run pr st off_on)
             ++ [CreateOffer; SetLocalDescription o; Emit (offer_of pr o)] ∧
     sent (snd r) = [offer_of pr o] ∧
     peerConnectionRef (fst r) =
       Some (PeerConnection HaveLocalOffer (connectionState pc)
               (remoteDescription pc) (<[j := Some n]> (senders pc))) ∧
     t_kind <$> tracks (fst r) !! n = Some VideoTrack) ∧
  (∀ st pc o,
     peerConnectionRef st = Some pc → signalingState pc = Stable →
     let i := length (tasks st) in
     sent (snd (run pr st [PcNegotiationNeeded; Resume i (ResolvedSdp o);
                           Resume i Resolved])) = [offer_of pr o]) ∧
  (∀ st pc,
     peerConnectionRef st = Some pc → signalingState pc ≠ Stable →
     step pr st PcNegotiationNeeded = (st, [])).
Proof.
  split; [|split].
  - intros st ls pc j o Hm Hc Hls Hrls Hoff Hpc Hst Hex Hfind i n
      off_on negotiate r.
    (* off *)
    pose proof (toggle_off_step pr st ls pc Hm Hc Hrls Hoff Hpc) as Hoffstep.
    set (st1 := set_isVideoOff true _) in Hoffstep.
    set (st2 := set_rendered st1).
    assert (Hk : ∀ tid, t_kind <$> tracks st2 !! tid = t_kind <$> tracks st !! tid).
    { intros tid. unfold st2, st1. simpl. by apply foldl_alter_kind. }
    assert (Hlen : length (tracks st2) = n).
    { unfold st2, st1. simpl. apply foldl_alter_length. }
    (* on *)
    destruct (toggle_on_run pr st2 ls pc j) as (Ha & Hpc3 & Hn & _ & Hlen3);
      try done.
    { intros tid Htid. rewrite Hlen. by eapply senders_exist_spec. }
    { rewrite <- Hfind. apply find_video_sender_ext.
      intros tid _. unfold is_video. by rewrite Hk. }
    rewrite Hlen in Ha, Hpc3, Hn.
    change (length (tasks st2)) with i in Ha, Hpc3, Hn, Hlen3.
    rewrite (video_tracks_ext st st2) in Ha by done.
    set (on := [ClickToggleVideo; Resume i Resolved; Resume i Resolved]) in *.
    assert (Hrun1 : run pr st off_on = (fst (run pr st2 on), snd (run pr st2 on))).
    { unfold off_on. rewrite run_cons, Hoffstep. cbn [fst snd].
      rewrite run_cons. cbn [step]. replace (mounted st1) with true by done.
      cbn [fst snd app]. fold st2. done. }
    set (st3 := fst (run pr st2 on)) in *.
    (* negotiation *)
    destruct (negotiation_run pr st3 (pc_set_sender j n pc) o)
      as (Hb & Hpc4 & Htr4 & Hlen4); [done|done|].
    rewrite Hlen3 in Hb, Hpc4, Htr4, Hlen4.
    fold negotiate in Hb, Hpc4, Htr4, Hlen4.
    set (st4 := fst (run pr st3 negotiate)) in *.
    pose proof (negotiation_dropped pr st4 _ Hpc4) as Hd.
    assert (Hr : r = (st4, snd (run pr st off_on) ++ snd (run pr st3 negotiate))).
    { unfold r. rewrite run_app, Hrun1. cbn [fst snd]. fold st3.
      rewrite run_app. fold st4. cbn [fst snd].
      rewrite run_cons, Hd by done. cbn [fst snd run].
      by rewrite !app_nil_r. }
    rewrite Hr, Hrun1. cbn [fst snd]. rewrite Ha, Hb.
    split; [done|]. split; [done|]. split.
    + log_simpl. done.
    + split; [by rewrite Hpc4|]. by rewrite Htr4.
  - intros st pc o Hpc Hst i. subst i.
    destruct (negotiation_run pr st pc o Hpc Hst) as (Hb & _).
    by rewrite Hb.
  - apply negotiation_dropped.
Qed.

Lemma video_toggle_renegotiates_once_witness :
  let pr := Props "alice" "Alice" "bob" "Bob" "chat" true Video in
  (* an established video call: offer sent, answer applied *)
  let st :=
    fst (run pr (init pr)
           [Resume 0 Resolved; Render; Resume 0 (ResolvedSdp "offer-1");
            Resume 0 Resolved;
            Recv (WebrtcAnswer (AnswerData "alice" "bob" "answer-1" "chat"));
            Resume 1 Resolved]) in
  let events :=
    [ClickToggleVideo; Render; ClickToggleVideo; Resume 2 Resolved;
     Resume 2 Resolved;
     PcNegotiationNeeded; Resume 3 (ResolvedSdp "offer-2"); Resume 3 Resolved;
     PcNegotiationNeeded] in
  sent (snd (run pr st events)) = [offer_of pr "offer-2"] ∧
  peerConnectionRef (fst (run pr st events)) =
    Some (PeerConnection HaveLocalOffer CsNew (Some "answer-1")
            [Some 0; Some 2]).
Proof.
  intros pr st events.
  destruct (video_toggle_renegotiates_once pr) as (H & _).
  destruct (H st 0 (PeerConnection Stable CsNew (Some "answer-1")
                      [Some 0; Some 1]) 1 "offer-2")
    as (_ & _ & Hsent & Hpc & _); try reflexivity.
  exact (conj Hsent Hpc).
Defined.

(** ** Media failure *)

(** C9. The media request is still pending, whatever has happened since
    the component mounted, and [getUserMedia] is rejected. The component,
    if still mounted, goes straight to [ended] and shows "Could not access
    camera/microphone. Please check permissions."; no peer connection
    exists, and neither before the rejection nor at any time after it,
    whatever events follow, is a [webrtc_offer], [webrtc_answer] or
    [webrtc_ice_candidate] put on the socket. *)
Theorem media_failure_ends_call_silently (pr : props)
    (before after : list event) :
  let st1 := fst (run pr (init pr) before) in
  tasks st1 !! 0 = Some KGetUserMedia →
  mounted st1 = true →
  let st2 := fst (step pr st1 (Resume 0 Rejected)) in
  callStatus st2 = Ended ∧
  error st2 = Some err_media ∧
  peerConnectionRef st2 = None ∧
  negotiation_sent
    (snd (run pr (init pr) (before ++ Resume 0 Rejected :: after))) = [].
Proof.
  intros st1 Hk Hm st2.
  assert (Hc1 : consistent st1) by apply run_consistent, consistent_init.
  assert (Hpc1 : has_pc st1 = false).
  { apply (cons_tasks _ Hc1) in Hk. simpl in Hk. by destruct (has_pc st1). }
  assert (Hst2 : st2 =
    set_tasks (<[0 := Finished]> (tasks st1))
      (set_callStatus Ended (set_error err_media st1))).
  { unfold st2. erewrite step_resume; [|done|]; [|simpl; by rewrite Hm].
    done. }
  assert (Hpc2 : has_pc st2 = false) by by rewrite Hst2.
  assert (Hm2 : media_settled st2).
  { rewrite Hst2. intros i. simpl. intros Hi.
    apply list_lookup_insert_Some in Hi as [(_ & [=] & _)|(Hne & Hi)].
    apply (cons_media _ Hc1) in Hi. congruence. }
  split; [by rewrite Hst2|]. split; [by rewrite Hst2|].
  split; [rewrite Hst2; simpl; unfold has_pc in Hpc1;
          by destruct (peerConnectionRef st1)|].
  rewrite run_app. cbn [fst snd]. rewrite negotiation_sent_app. fold st1.
  rewrite run_no_pc_silent by (apply consistent_init || done).
  rewrite run_cons. cbn [fst snd]. rewrite negotiation_sent_app. fold st2.
  rewrite step_no_pc_silent by done.
  rewrite run_no_pc_silent; [done|by apply step_consistent|].
  by apply run_media_settled.
Qed.

Lemma media_failure_ends_call_silently_witness :
  let pr := Props "alice" "Alice" "bob" "Bob" "chat" true Video in
  let c := CandidateInit "candidate:1" (Some "0") (Some 0) in
  let before := [Recv (WebrtcIceCandidate (IceData "alice" c "chat"));
                 ClickToggleVideo] in
  let after :=
    [Recv (WebrtcOffer (OfferData "alice" "bob" "Bob" "sdp" Video "chat"));
     PcNegotiationNeeded; PcIceCandidate (Some c);
     Recv (CallFailed "User is offline"); Resume 1 Resolved] in
  let st1 := fst (run pr (init pr) before) in
  let st2 := fst (step pr st1 (Resume 0 Rejected)) in
  callStatus st2 = Ended ∧
  error st2 = Some err_media ∧
  peerConnectionRef st2 = None ∧
  negotiation_sent
    (snd (run pr (init pr) (before ++ Resume 0 Rejected :: after))) = [].
Proof.
  intros pr c before after st1 st2.
  apply (media_failure_ends_call_silently pr before after); reflexivity.
Defined.

(** ** Remote ICE candidates *)

(** C6 does not hold as written: a candidate that arrives before the
    component has its peer connection, while the local media is still
    being acquired, arrives before any remote description is set, and is
    not queued: the listener's [if (peerConnectionRef.current)] skips
    it, and it is not applied later either, when the connection exists
    and has taken the offer. *)
Lemma early_candidate_counterexample :
  let callee := Props "bob" "Bob" "alice" "Alice" "chat" false Audio in
  let c := CandidateInit "candidate:1" (Some "0") (Some 0) in
  let d := IceData "bob" c "chat" in
  let offer := OfferData "bob" "alice" "Alice" "offer-sdp" Audio "chat" in
  let later := [Resume 0 Resolved; Recv (WebrtcOffer offer);
                Resume 1 Resolved; Resume 1 (ResolvedSdp "answer-sdp");
                Resume 1 Resolved] in
  let r := run callee (init callee) (Recv (WebrtcIceCandidate d) :: later) in
  remote_of (init callee) = None ∧
  ¬ queues_candidate callee (init callee) d ∧
  remote_of (fst r) = Some "offer-sdp" ∧
  sent (snd r) = [WebrtcAnswer (AnswerData "alice" "bob" "answer-sdp" "chat")] ∧
  queued (snd r) = [] ∧ applied (snd r) = [].
Proof.
  intros callee c d offer later r. split; [reflexivity|]. split.
  - intros (c' & _ & Hq). vm_compute in Hq. discriminate Hq.
  - by vm_compute.
Qed.

(** C6, amended. A remote candidate that arrives while the peer
    connection exists and has no remote description is pushed on the
    queue and not applied.
    When [setRemoteDescription] settles, in the offer listener as in the
    answer listener, the listener goes straight on to hand the queued
    candidates to [addIceCandidate], oldest first, until the queue is
    empty. In every execution of the component, candidates leave the
    queue in the order they entered it, and [addIceCandidate] is never
    called on a connection without a remote description. A candidate
    that arrives while the component has no peer connection is dropped:
    the listener changes nothing and calls nothing. *)
Theorem ice_candidates_wait_for_remote_description (pr : props) :
  (∀ st pc d c,
     mounted st = true → peerConnectionRef st = Some pc →
     remoteDescription pc = None →
     new_RTCIceCandidate (i_candidate d) = Some c →
     step pr st (Recv (WebrtcIceCandidate d)) =
       (set_queue (iceCandidatesQueue st ++ [c]) st, [QueueCandidate c])) ∧
  (∀ st pc i d,
     tasks st !! i = Some (KOfferSetRemote d) →
     peerConnectionRef st = Some pc →
     let q := iceCandidatesQueue st in
     let r := run pr st (replicate (S (length q)) (Resume i Resolved)) in
     snd r = map (λ c, AddIceCandidate OfferFlush c true) q ++ [CreateAnswer] ∧
     iceCandidatesQueue (fst r) = [] ∧
     remote_of (fst r) = Some (o_offer d)) ∧
  (∀ st pc i d,
     tasks st !! i = Some (KAnswerSetRemote d) →
     peerConnectionRef st = Some pc →
     let q := iceCandidatesQueue st in
     let r := run pr st (replicate (S (length q)) (Resume i Resolved)) in
     snd r = map (λ c, AddIceCandidate AnswerFlush c true) q ∧
     iceCandidatesQueue (fst r) = [] ∧
     remote_of (fst r) = Some (a_answer d)) ∧
  (∀ tr,
     let r := run pr (init pr) tr in
     premature (snd r) = [] ∧
     flushed (snd r) ++ iceCandidatesQueue (fst r) = queued (snd r)) ∧
  (∀ st d,
     peerConnectionRef st = None →
     step pr st (Recv (WebrtcIceCandidate d)) = (st, [])).
Proof.
  split; [|split; [|split; [|split]]];
    [| | | |intros st d Hpc; cbn [step]; unfold on_socket; rewrite Hpc;
            by destruct (mounted st)].
  - intros st pc d c Hm Hpc Hrd Hc. cbn [step]. rewrite Hm.
    unfold on_socket. by rewrite Hpc, Hc, Hrd.
  - intros st pc i d Hk Hpc q r.
    destruct (offer_remote_then_flush pr st i d pc Hk Hpc) as (?&?&?&_).
    done.
  - intros st pc i d Hk Hpc q r.
    destruct (answer_remote_then_flush pr st i d pc Hk Hpc) as (?&?&?&_).
    done.
  - intros tr r. split.
    + apply run_never_premature, consistent_init.
    + unfold r. by rewrite run_fifo.
Qed.

Lemma ice_candidates_wait_for_remote_description_witness :
  let caller := Props "alice" "Alice" "bob" "Bob" "chat" true Video in
  let callee := Props "bob" "Bob" "alice" "Alice" "chat" false Audio in
  let c1 := CandidateInit "candidate:1" (Some "0") (Some 0) in
  let c2 := CandidateInit "candidate:2" (Some "0") (Some 0) in
  let ice c := Recv (WebrtcIceCandidate (IceData "x" c "chat")) in
  let offer := OfferData "bob" "alice" "Alice" "offer-sdp" Audio "chat" in
  let answer := AnswerData "alice" "bob" "answer-sdp" "chat" in
  (* the callee has its connection, then two candidates, then the offer *)
  let st_callee :=
    fst (run callee (init callee)
           [Resume 0 Resolved; ice c1; ice c2; Recv (WebrtcOffer offer)]) in
  (* the caller has sent its offer, then two candidates, then the answer *)
  let st_caller :=
    fst (run caller (init caller)
           [Resume 0 Resolved; Resume 0 (ResolvedSdp "offer-sdp");
            Resume 0 Resolved; ice c1; ice c2;
            Recv (WebrtcAnswer answer)]) in
  iceCandidatesQueue st_callee = [c1; c2] ∧
  snd (run callee st_callee (replicate 3 (Resume 1 Resolved))) =
    [AddIceCandidate OfferFlush c1 true; AddIceCandidate OfferFlush c2 true;
     CreateAnswer] ∧
  iceCandidatesQueue st_caller = [c1; c2] ∧
  snd (run caller st_caller (replicate 3 (Resume 1 Resolved))) =
    [AddIceCandidate AnswerFlush c1 true; AddIceCandidate AnswerFlush c2 true].
Proof.
  intros caller callee c1 c2 ice offer answer st_callee st_caller.
  split; [reflexivity|]. split.
  - destruct (ice_candidates_wait_for_remote_description callee)
      as (_ & Hoffer & _).
    destruct (Hoffer st_callee
                (PeerConnection Stable CsNew None [Some 0]) 1 offer)
      as (H & _); [reflexivity|reflexivity|exact H].
  - split; [reflexivity|].
    destruct (ice_candidates_wait_for_remote_description caller)
      as (_ & _ & Hanswer & _).
    destruct (Hanswer st_caller
                (PeerConnection HaveLocalOffer CsNew None [Some 0; Some 1])
                1 answer)
      as (H & _); [reflexivity|reflexivity|exact H].
Defined.



(** ** Ending a call *)

Lemma stop_tracks_ended (l : list nat) :
  ∀ (trk : list track) (tid : nat) (t : track),
    tid ∈ l ∨ (∃ t0, trk !! tid = Some t0 ∧ t_ended t0 = true) →
    foldl (λ ts x, alter stop_track x ts) trk l !! tid = Some t →
    t_ended t = true.
Proof.
  induction l as [|x l IH]; intros trk tid t Hin Ht; simpl in Ht.
  - destruct Hin as [Hin|(t0 & Ht0 & He)]; [by apply not_elem_of_nil in Hin|].
    congruence.
  - eapply IH; [|exact Ht].
    destruct (decide (tid ∈ l)) as [|Hnl]; [by left|right].
    destruct (trk !! tid) as [t0|] eqn:E.
    + rewrite list_lookup_alter. case_decide; simplify_eq.
      * rewrite E. by eexists.
      * destruct Hin as [Hin|(t1 & Ht1 & He)].
        -- apply elem_of_cons in Hin as [->|]; done.
        -- exists t0. split; [done|]. congruence.
    + exfalso.
      pose proof (foldl_alter_kind stop_track (x :: l) (λ _, eq_refl) trk tid)
        as Hk.
      simpl in Hk. by rewrite Ht, E in Hk.
Qed.

(** With the stream in its closure, [cleanup] stops every track of the
    stream and closes the connection. *)
Lemma cleanup_releases st ls :
  let r := cleanup (Some ls) st in
  all_stopped (fst r) (stream_tracks st ls) = true ∧
  snd r = map TrackStop (stream_tracks st ls)
          ++ (if has_pc st then [PcClose] else []) ∧
  (signalingState <$> peerConnectionRef (fst r)) =
    (λ _, SignalingClosed) <$> peerConnectionRef st ∧
  callStatus (fst r) = Ended.
Proof.
  intros r. subst r. unfold cleanup, has_pc. simpl.
  assert (Hall : ∀ st', tracks st' =
      foldl (λ ts x, alter stop_track x ts) (tracks st) (stream_tracks st ls) →
      all_stopped st' (stream_tracks st ls) = true).
  { intros st' Htr. unfold all_stopped. apply forallb_forall.
    intros tid Hin%list_elem_of_In. rewrite Htr.
    destruct (foldl _ _ _ !! tid) as [t|] eqn:E; [|done].
    eapply stop_tracks_ended; [|exact E]. by left. }
  destruct (peerConnectionRef st) as [pc|] eqn:E; simpl; rewrite ?E;
    (split; [by apply Hall|done]).
Qed.

(** The local hang-up and a matching [webrtc_call_ended], once the
    render that follows [setLocalStream] has been committed, release
    everything. *)
Lemma hang_up_releases pr st ls :
  mounted st = true → rendered_localStream st = Some ls →
  let r := step pr st ClickEndCall in
  all_stopped (fst r) (stream_tracks st ls) = true ∧
  (signalingState <$> peerConnectionRef (fst r)) =
    (λ _, SignalingClosed) <$> peerConnectionRef st ∧
  callStatus (fst r) = Ended.
Proof.
  intros Hm Hls r. subst r. cbn [step]. rewrite Hm, Hls.
  unfold handleEndCall.
  destruct (cleanup_releases st ls) as (H1 & _ & H3 & H4).
  by destruct (cleanup (Some ls) st).
Qed.

Lemma call_ended_releases pr st ls d :
  mounted st = true → rendered_localStream st = Some ls →
  e_chatId d = chatId pr →
  let r := step pr st (Recv (WebrtcCallEnded d)) in
  all_stopped (fst r) (stream_tracks st ls) = true ∧
  (signalingState <$> peerConnectionRef (fst r)) =
    (λ _, SignalingClosed) <$> peerConnectionRef st ∧
  callStatus (fst r) = Ended.
Proof.
  intros Hm Hls Hd r. subst r. cbn [step on_socket]. rewrite Hm, Hls.
  rewrite bool_decide_true by done. unfold handleEndCall.
  destruct (cleanup_releases st ls) as (H1 & _ & H3 & H4).
  by destruct (cleanup (Some ls) st).
Qed.

(** The handler installed on the connection, and the clean-up of the
    mount effect, run [cleanup] with [localStream = null]: the
    connection is closed, the tracks are left as they are. *)
Lemma peer_link_end_keeps_tracks pr st pc s :
  peerConnectionRef st = Some pc →
  s = CsFailed ∨ s = CsDisconnected ∨ s = CsClosed →
  step pr st (PcConnectionStateChange s) =
    (set_callStatus Ended (set_pc (pc_close (pc_set_connection s pc)) st),
     [Emit (WebrtcCallEnded (EndedData (friendId pr) (chatId pr)));
      PcClose; OnEndCall]).
Proof.
  intros Hpc Hs. cbn [step]. rewrite Hpc.
  unfold on_connectionstatechange, with_pc. rewrite Hpc.
  by destruct Hs as [->|[->| ->]].
Qed.

Lemma unmount_keeps_tracks pr st :
  tracks (fst (step pr st Unmount)) = tracks st.
Proof.
  cbn [step]. destruct (mounted st); [|done]. unfold cleanup. simpl.
  by destruct (peerConnectionRef st).
Qed.

(** C8 fails for the peer-link trigger. A video call has acquired its
    microphone and camera tracks and built its connection; the
    connection then reports [failed]. The call ends and the connection
    is closed, but no track is stopped, neither by the handler nor by
    the unmount that [onEndCall] brings about: both capture tracks are
    still live. *)
Theorem peer_link_failure_leaves_capture_running :
  let pr := Props "alice" "Alice" "bob" "Bob" "chat" true Video in
  let r := run pr (init pr)
             [Resume 0 Resolved; Render; PcConnectionStateChange CsFailed;
              Unmount] in
  callStatus (fst r) = Ended ∧
  (signalingState <$> peerConnectionRef (fst r)) = Some SignalingClosed ∧
  localStream (fst r) = Some 0 ∧
  stream_tracks (fst r) 0 = [0; 1] ∧
  tracks (fst r) =
    [Track AudioTrack true false; Track VideoTrack true false] ∧
  all_stopped (fst r) [0; 1] = false ∧
  snd r = [NewPeerConnection; AddTrack 0; AddTrack 1; CreateOffer;
           Emit (WebrtcCallEnded (EndedData "bob" "chat"));
           PcClose; OnEndCall; PcClose].
Proof. vm_compute. by repeat split. Qed.

(** The same call ended from the button: every track is stopped. The
    unmount that follows closes the connection a second time. *)
Example hang_up_stops_capture :
  let pr := Props "alice" "Alice" "bob" "Bob" "chat" true Video in
  let r := run pr (init pr)
             [Resume 0 Resolved; Render; ClickEndCall; Unmount] in
  all_stopped (fst r) [0; 1] = true ∧
  snd r = [NewPeerConnection; AddTrack 0; AddTrack 1; CreateOffer;
           Emit (WebrtcCallEnded (EndedData "bob" "chat"));
           TrackStop 0; TrackStop 1; PcClose; OnEndCall; PcClose].
Proof. vm_compute. by repeat split. Qed.

End ClientFacts.

(** * Further properties *)

(** ** The server over histories *)

Module ServerHistoryFacts.
Import Server ServerFacts ServerHistory.

Lemma run_step st ev tr :
  run st (ev :: tr) =
  (fst (run (fst (step st ev)) tr),
   snd (step st ev) ++ snd (run (fst (step st ev)) tr)).
Proof.
  cbn [run]. destruct (step st ev) as [st1 o1]. cbn [fst snd].
  by destruct (run st1 tr).
Qed.

(** ** The two maps against each other *)

(** X1. After any history, every socket that [userSockets] maps to a user
    is a member of that user's set in [onlineUsers]. In histories where a
    connection only ever announces one non-empty identity the converse
    holds too: a member of a user's set is mapped to that user. *)
Theorem maps_agree (tr : list event) :
  (∀ sid u, userSockets (final tr) !! sid = Some u →
            sid ∈ lookup (final tr) u) ∧
  (one_identity [] tr = true →
   ∀ sid u, sid ∈ lookup (final tr) u →
            userSockets (final tr) !! sid = Some u).
Proof.
  split.
  - apply final_well_kept.
  - intros Hone sid u Hin.
    destruct (one_identity_tracks_history tr Hone) as [Hl Ho _].
    apply Ho. by rewrite <- Hl.
Qed.

Lemma maps_agree_witness :
  let tr := [UserJoin "c1" "alice" true; UserJoin "c2" "bob" false;
             UserJoin "c3" "alice" true; Disconnect "c1" true] in
  one_identity [] tr = true ∧
  ("c3" ∈ lookup (final tr) "alice") ∧
  userSockets (final tr) !! "c3" = Some "alice".
Proof.
  intros tr. split; [reflexivity|].
  assert (Hin : "c3" ∈ lookup (final tr) "alice") by (vm_compute; left).
  split; [exact Hin|].
  destruct (maps_agree tr) as [_ H]. exact (H eq_refl "c3" "alice" Hin).
Defined.


Lemma set_delete_set_add_fresh (sid : socket_id) (s : js_set) :
  sid ∉ s → set_delete sid (set_add sid s) = s.
Proof.
  intros Hin. unfold set_add. rewrite decide_False by done.
  unfold set_delete.
  rewrite filter_app, filter_cons_False, filter_nil, app_nil_r
    by (by intros ?).
  by apply set_delete_notin.
Qed.

Lemma join_disconnect_state (st : state) (sid : socket_id) (u : user_id)
    (ok1 ok2 : bool) :
  no_empty_set st →
  truthy u = true →
  userSockets st !! sid = None →
  sid ∉ lookup st u →
  fst (run st [UserJoin sid u ok1; Disconnect sid ok2]) = st.
Proof.
  intros Hne Hu Hus Hin.
  rewrite run_step. cbn [run fst step]. rewrite user_join_state.
  unfold disconnect. cbn [userSockets onlineUsers].
  rewrite !lookup_insert_eq, Hu.
  rewrite set_delete_set_add_fresh by done.
  destruct st as [ou us]. unfold lookup in *. simpl in *.
  destruct (ou !! u) as [s|] eqn:E; simpl.
  - destruct s as [|c s]; [by destruct (Hne u)|]. simpl.
    f_equal.
    + rewrite insert_insert_eq. by apply insert_id.
    + by apply delete_insert_id.
  - f_equal; by apply delete_insert_id.
Qed.

(** X2. A connection that is not in the registry announces a non-empty
    identity and then closes: the state is exactly what it was before,
    whether or not the user had other connections and whatever the user
    store answered. *)
Theorem join_then_disconnect_restores (tr : list event) (sid : socket_id)
    (u : user_id) (ok1 ok2 : bool) :
  truthy u = true →
  userSockets (final tr) !! sid = None →
  sid ∉ lookup (final tr) u →
  final (tr ++ [UserJoin sid u ok1; Disconnect sid ok2]) = final tr.
Proof.
  intros Hu Hus Hin. unfold final at 1. rewrite run_events_app.
  cbn [fst]. fold (final tr).
  apply join_disconnect_state; auto using final_no_empty_set.
Qed.

Lemma join_then_disconnect_restores_witness :
  let tr := [UserJoin "c1" "alice" true; UserJoin "c2" "bob" true] in
  final (tr ++ [UserJoin "c3" "alice" true; Disconnect "c3" false]) =
  final tr.
Proof.
  intros tr.
  apply (join_then_disconnect_restores tr "c3" "alice" true false).
  - reflexivity.
  - vm_compute. reflexivity.
  - refine (bool_decide_unpack _ _). vm_compute. exact I.
Defined.

Lemma step_keeps_empty_identity (st : state) (ev : event) (sid : socket_id) :
  sid ∈ lookup st "" → sid ∈ lookup (fst (step st ev)) "".
Proof.
  intros Hin. destruct ev as [c u ok|c m|c ok]; cbn [step fst]; [| done |].
  - rewrite lookup_user_join. destruct (decide ("" = u)) as [<-|]; [|done].
    apply elem_of_set_add. by right.
  - rewrite lookup_disconnect.
    destruct (userSockets st !! c) as [u|]; [|done].
    destruct (truthy u) eqn:Hu; [|done]. simpl.
    case_bool_decide as E; [|done]. subst u. done.
Qed.

Lemma run_keeps_empty_identity (st : state) (tr : list event)
    (sid : socket_id) :
  sid ∈ lookup st "" → sid ∈ lookup (fst (run st tr)) "".
Proof.
  revert st. induction tr as [|ev tr IH]; intros st Hin; [done|].
  rewrite run_step. cbn [fst]. by apply IH, step_keeps_empty_identity.
Qed.

(** X3. A connection that announces the empty user id is added to the
    set kept under that id and stays there for good: the [if (userId)]
    guard of the disconnect handler skips the removal, so neither its own
    disconnect nor any other event takes it out. *)
Theorem empty_identity_is_never_removed (st : state) (sid : socket_id)
    (ok : bool) (tr : list event) :
  sid ∈ lookup (fst (run st (UserJoin sid "" ok :: tr))) "".
Proof.
  rewrite run_step. cbn [fst]. apply run_keeps_empty_identity.
  cbn [step]. rewrite lookup_user_join, decide_True by done.
  apply elem_of_set_add. by left.
Qed.

Lemma status_count_app u s o1 o2 :
  status_count u s (o1 ++ o2) = status_count u s o1 + status_count u s o2.
Proof. unfold status_count. by rewrite List.filter_app, length_app. Qed.

Lemma status_count_relay u s sid m st :
  status_count u s (relay sid m st) = 0.
Proof.
  unfold status_count, relay.
  destruct m as [d|d|d|d|?|? ?]; simpl; try done.
  - by destruct (lookup st (o_to d)).
  - by destruct (lookup st (a_to d)).
  - by destruct (lookup st (i_to d)).
  - by induction (lookup st (e_to d)).
Qed.

Lemma steady_step_balance (st : state) (ev : event) (u : user_id) :
  no_empty_set st →
  steady st [ev] = true →
  status_count u Online (snd (step st ev)) + present st u =
  status_count u Offline (snd (step st ev)) + present (fst (step st ev)) u.
Proof.
  intros Hne Hev. cbn [steady] in Hev. rewrite andb_true_r in Hev.
  destruct ev as [c v ok|c m|c ok].
  - apply andb_true_iff in Hev as [-> Hfresh%bool_decide_eq_true].
    unfold present. cbn [step]. rewrite lookup_user_join, user_join_count.
    unfold set_add. rewrite decide_False by done.
    destruct (decide (u = v)) as [->|Huv].
    + destruct (lookup st v) as [|c0 s].
      * unfold status_count. simpl. by rewrite !bool_decide_eq_true_2.
      * destruct (Nat.eqb_spec (length ((c0 :: s) ++ [c])) 1) as [Hlen|_];
          [simpl in Hlen; rewrite length_app in Hlen; simpl in Hlen; lia|].
        done.
    + destruct (lookup st v) as [|c0 s].
      * unfold status_count. simpl. by rewrite bool_decide_eq_false_2.
      * destruct (Nat.eqb_spec (length ((c0 :: s) ++ [c])) 1) as [Hlen|_];
          [simpl in Hlen; rewrite length_app in Hlen; simpl in Hlen; lia|].
        done.
  - cbn [step fst snd]. by rewrite !status_count_relay.
  - simpl in Hev. subst ok. cbn [step]. unfold present.
    rewrite lookup_disconnect. unfold disconnect.
    destruct (userSockets st !! c) as [v|]; [|done].
    destruct (truthy v) eqn:Hv; [|done]. simpl.
    unfold lookup at 1 2.
    destruct (onlineUsers st !! v) as [conns|] eqn:E; simpl.
    + destruct conns as [|c0 conns]; [by destruct (Hne v)|].
      destruct (set_delete c (c0 :: conns)) as [|c1 s] eqn:Ed; simpl.
      * case_bool_decide as Huv.
        -- subst v. unfold lookup. rewrite E. simpl.
           unfold status_count. simpl. by rewrite !bool_decide_eq_true_2.
        -- unfold status_count. simpl.
           rewrite bool_decide_eq_false_2 by done. done.
      * case_bool_decide as Huv; [|done].
        subst v. unfold lookup. by rewrite E.
    + case_bool_decide as Huv; [|done].
      subst v. unfold lookup. by rewrite E.
Qed.

Lemma serve_all_step st rq rqs :
  serve_all st (rq :: rqs) =
  (fst (serve_all (fst (serve st rq)) rqs),
   snd (serve st rq) ++ snd (serve_all (fst (serve st rq)) rqs)).
Proof.
  cbn [serve_all]. destruct (serve st rq) as [st1 o1]. cbn [fst snd].
  by destruct (serve_all st1 rqs).
Qed.

Lemma announced_app u s o1 o2 :
  announced u s (o1 ++ o2) = announced u s o1 + announced u s o2.
Proof. unfold announced. by rewrite List.filter_app, length_app. Qed.

Lemma announced_made u s out :
  announced u s (map Made out) = status_count u s out.
Proof.
  unfold announced, status_count. induction out as [|e out IH]; [done|].
  cbn [map List.filter]. destruct e as [| |? m| |]; try done.
  destruct m; try done.
  destruct (bool_decide _ && bool_decide _); simpl; by rewrite IH.
Qed.

Lemma serve_no_empty_set st rq :
  no_empty_set st → no_empty_set (fst (serve st rq)).
Proof.
  destruct rq as [ev|? ? ?]; [|done]. apply step_no_empty_set.
Qed.

Lemma serve_balance st rq u :
  no_empty_set st →
  steady_requests st [rq] = true →
  announced u Online (snd (serve st rq)) + asked u Offline [rq]
    + present st u =
  announced u Offline (snd (serve st rq)) + asked u Online [rq]
    + present (fst (serve st rq)) u.
Proof.
  intros Hne Hst. cbn [steady_requests] in Hst. rewrite andb_true_r in Hst.
  destruct rq as [ev|sid data ok].
  - cbn [serve fst snd]. rewrite !announced_made.
    pose proof (steady_step_balance st ev u Hne Hst) as H.
    unfold asked. simpl. lia.
  - cbn [serve fst snd]. unfold status_update, announced, asked.
    destruct data as [d|]; [|done]. destruct ok; [|done].
    cbn [List.filter].
    repeat (case_bool_decide; simplify_eq); simpl; try lia;
      destruct s; done.
Qed.

Lemma serve_all_balance (st : state) (rqs : list request) (u : user_id) :
  no_empty_set st →
  steady_requests st rqs = true →
  announced u Online (snd (serve_all st rqs)) + asked u Offline rqs
    + present st u =
  announced u Offline (snd (serve_all st rqs)) + asked u Online rqs
    + present (fst (serve_all st rqs)) u.
Proof.
  revert st. induction rqs as [|rq rqs IH]; intros st Hne Hst; [done|].
  rewrite serve_all_step. cbn [fst snd]. rewrite !announced_app.
  cbn [steady_requests] in Hst. apply andb_true_iff in Hst as [Hrq Hrqs].
  pose proof (serve_balance st rq u Hne) as H1.
  cbn [steady_requests] in H1. rewrite Hrq in H1. specialize (H1 eq_refl).
  pose proof (IH _ (serve_no_empty_set st rq Hne) Hrqs) as H2.
  assert (Ha : ∀ s, asked u s (rq :: rqs) = asked u s [rq] + asked u s rqs).
  { intros s. unfold asked. cbn [List.filter].
    by destruct (match rq with StatusUpdate _ (Some d) true => _ | _ => _ end). }
  rewrite !Ha. lia.
Qed.

(** X4. Counting every [user_status_change] the other sockets are sent,
    those the [user_join] and [disconnect] handlers make and those the
    [status_update] handler relays for a client: when the user store
    never rejects the update of a join or a disconnect and no connection
    announces itself to a user whose set already holds it, the "online"
    broadcasts for a user, less the "online" relays asked for, are as
    many as the "offline" broadcasts, less the "offline" relays asked
    for, plus one if the user has an entry now. *)
Theorem status_broadcasts_balance (rqs : list request) (u : user_id) :
  steady_requests init rqs = true →
  let r := serve_all init rqs in
  announced u Online (snd r) + asked u Offline rqs =
  announced u Offline (snd r) + asked u Online rqs + present (fst r) u.
Proof.
  intros H r.
  assert (H0 : present init u = 0).
  { unfold present, lookup. simpl. by rewrite lookup_empty. }
  assert (Hne : no_empty_set init).
  { intros v. unfold init. simpl. by rewrite lookup_empty. }
  pose proof (serve_all_balance init rqs u Hne H) as Hb.
  unfold r. lia.
Qed.

Lemma status_broadcasts_balance_witness :
  let rqs := [Handled (UserJoin "c1" "alice" true);
              StatusUpdate "c9" (Some (StatusData "alice" "offline")) true;
              Handled (UserJoin "c2" "alice" true);
              StatusUpdate "c1" (Some (StatusData "alice" "away")) true;
              StatusUpdate "c1" None true;
              Handled (Disconnect "c1" true);
              StatusUpdate "c9" (Some (StatusData "alice" "online")) false;
              Handled (Disconnect "c2" true);
              Handled (UserJoin "c3" "alice" true)] in
  let r := serve_all init rqs in
  announced "alice" Online (snd r) = 2 ∧
  announced "alice" Offline (snd r) = 2 ∧
  asked "alice" Offline rqs = 1 ∧ asked "alice" Online rqs = 0 ∧
  present (fst r) "alice" = 1.
Proof.
  intros rqs r.
  pose proof (status_broadcasts_balance rqs "alice" eq_refl) as H.
  cbv zeta in H. fold r in H.
  assert (H1 : announced "alice" Offline (snd r) = 2) by reflexivity.
  assert (H2 : asked "alice" Offline rqs = 1) by reflexivity.
  assert (H3 : asked "alice" Online rqs = 0) by reflexivity.
  assert (H4 : present (fst r) "alice" = 1) by reflexivity.
  rewrite H1, H2, H3, H4 in H. split; [lia|]. by repeat split.
Defined.

(** X5. The user's only connection closes and a signaling message for
    that user arrives afterwards: the disconnect removes the user's entry
    and writes "offline" (broadcasting it when the write succeeds); the
    message is not forwarded, and only an offer is answered, with
    [call_failed] "User is offline" on the sender's socket. *)
Theorem last_disconnect_makes_unreachable (st : state) (sid c : socket_id)
    (B : user_id) (ok : bool) (m : signal) :
  userSockets st !! sid = Some B →
  truthy B = true →
  lookup st B = [sid] →
  signal_to m = Some B →
  let st1 := fst (step st (Disconnect sid ok)) in
  st1 = State (delete B (onlineUsers st)) (delete sid (userSockets st)) ∧
  snd (step st (Disconnect sid ok)) =
    DbSetStatus B Offline ::
    (if ok then [BroadcastFrom sid (UserStatusChange B Offline)] else []) ∧
  step st1 (ClientEmit c m) =
    (st1, match m with
          | WebrtcOffer _ => [SocketEmit c (CallFailed "User is offline")]
          | _ => []
          end).
Proof.
  intros Hus HB Hl Hto st1.
  assert (Hd : disconnect sid ok st =
    (State (delete B (onlineUsers st)) (delete sid (userSockets st)),
     DbSetStatus B Offline ::
     (if ok then [BroadcastFrom sid (UserStatusChange B Offline)] else []))).
  { unfold disconnect. rewrite Hus, HB. unfold lookup in Hl.
    destruct (onlineUsers st !! B) as [conns|]; [|done]. simpl in Hl.
    subst conns. unfold set_delete.
    rewrite filter_cons_False, filter_nil by (by intros ?). done. }
  subst st1. cbn [step]. rewrite Hd. cbn [fst snd].
  split; [done|]. split; [done|]. f_equal.
  set (st' := State _ _).
  assert (Hl' : lookup st' B = []).
  { unfold lookup, st'. simpl. by rewrite lookup_delete_eq. }
  destruct m as [d|d|d|d|?|? ?]; simpl in *; try done;
    injection Hto as ->; by rewrite Hl'.
Qed.

Lemma last_disconnect_makes_unreachable_witness :
  let st := final [UserJoin "b1" "bob" true] in
  let offer :=
    WebrtcOffer (OfferData "bob" "alice" "Alice" "sdp" Audio "chat") in
  let st1 := fst (step st (Disconnect "b1" true)) in
  snd (step st (Disconnect "b1" true)) =
    [DbSetStatus "bob" Offline;
     BroadcastFrom "b1" (UserStatusChange "bob" Offline)] ∧
  step st1 (ClientEmit "a1" offer) =
    (st1, [SocketEmit "a1" (CallFailed "User is offline")]).
Proof.
  intros st offer st1.
  destruct (last_disconnect_makes_unreachable st "b1" "a1" "bob" true offer)
    as (_ & H2 & H3); [reflexivity|reflexivity|reflexivity|reflexivity|].
  exact (conj H2 H3).
Defined.

(** X6. In a history where a connection only ever announces one
    non-empty identity, whatever the relay forwards is the message it
    received, unchanged, and it goes to a connection of the addressee that
    announced itself and has not closed. *)
Theorem forwards_reach_live_connections (tr : list event)
    (sid c : socket_id) (m m' : signal) :
  one_identity [] tr = true →
  IoTo c m' ∈ snd (step (final tr) (ClientEmit sid m)) →
  m' = m ∧ ∃ u, signal_to m = Some u ∧ c ∈ live_connections tr u.
Proof.
  intros Hone Hin.
  destruct (one_identity_tracks_history tr Hone) as [Hl _ _].
  cbn [step snd] in Hin. unfold relay in Hin.
  destruct m as [d|d|d|d|?|? ?]; simpl.
  - destruct (lookup (final tr) (o_to d)) as [|c0 s] eqn:E.
    + by apply list_elem_of_singleton in Hin.
    + apply list_elem_of_singleton in Hin. injection Hin as -> ->.
      split; [done|]. exists (o_to d). split; [done|].
      rewrite <- Hl, E. left.
  - destruct (lookup (final tr) (a_to d)) as [|c0 s] eqn:E.
    + by apply not_elem_of_nil in Hin.
    + apply list_elem_of_singleton in Hin. injection Hin as -> ->.
      split; [done|]. exists (a_to d). split; [done|].
      rewrite <- Hl, E. left.
  - destruct (lookup (final tr) (i_to d)) as [|c0 s] eqn:E.
    + by apply not_elem_of_nil in Hin.
    + apply list_elem_of_singleton in Hin. injection Hin as -> ->.
      split; [done|]. exists (i_to d). split; [done|].
      rewrite <- Hl, E. left.
  - apply list_elem_of_fmap in Hin as (c' & [= -> ->] & Hc).
    split; [done|]. exists (e_to d). split; [done|]. by rewrite <- Hl.
  - by apply not_elem_of_nil in Hin.
  - by apply not_elem_of_nil in Hin.
Qed.

Lemma forwards_reach_live_connections_witness :
  let tr := [UserJoin "b1" "bob" true; UserJoin "b2" "bob" true;
             Disconnect "b1" true] in
  let m := WebrtcAnswer (AnswerData "bob" "alice" "sdp" "chat") in
  ∃ u, signal_to m = Some u ∧ "b2" ∈ live_connections tr u.
Proof.
  intros tr m.
  apply (forwards_reach_live_connections tr "a1" "b2" m m eq_refl).
  vm_compute. left.
Defined.

End ServerHistoryFacts.

(** ** The call component over executions *)

Module CallHistoryFacts.
Import Client ClientFacts CallHistory.

(** ** Media that arrives after the component is gone *)

(** X7. The component is unmounted while its media request is pending,
    whatever else has happened, and [getUserMedia] then succeeds. Every
    track of the stream just obtained is stopped at once and nothing else
    is done: [localStream] is left as it was. No peer connection exists
    then or at any later time, and no [webrtc_offer], [webrtc_answer] or
    [webrtc_ice_candidate] is put on the socket before or after. *)
Theorem late_media_is_released (pr : props) (before after : list event) :
  let st1 := fst (run pr (init pr) before) in
  tasks st1 !! 0 = Some KGetUserMedia →
  mounted st1 = false →
  let r := step pr st1 (Resume 0 Resolved) in
  let ls := length (streams st1) in
  stream_tracks (fst r) ls =
    seq (length (tracks st1))
        (if bool_decide (callType pr = Video) then 2 else 1) ∧
  snd r = map TrackStop (stream_tracks (fst r) ls) ∧
  all_stopped (fst r) (stream_tracks (fst r) ls) = true ∧
  localStream (fst r) = localStream st1 ∧
  peerConnectionRef
    (fst (run pr (init pr) (before ++ Resume 0 Resolved :: after))) = None ∧
  negotiation_sent
    (snd (run pr (init pr) (before ++ Resume 0 Resolved :: after))) = [].
Proof.
  intros st1 Hk Hm r ls.
  assert (Hc1 : consistent st1) by apply run_consistent, consistent_init.
  assert (Hpc1 : has_pc st1 = false).
  { apply (cons_tasks _ Hc1) in Hk. simpl in Hk. by destruct (has_pc st1). }
  set (n := if bool_decide (callType pr = Video) then 2 else 1).
  set (new_tracks :=
    [Track AudioTrack true false] ++
    (if bool_decide (callType pr = Video)
     then [Track VideoTrack true false] else [])).
  set (tids := seq (length (tracks st1)) n).
  assert (Hn : length new_tracks = n).
  { unfold new_tracks, n. by case_bool_decide. }
  assert (Hr : r =
    (set_tasks (<[0 := Finished]> (tasks st1))
       (set_tracks
          (foldl (λ ts tid, alter stop_track tid ts)
                 (tracks st1 ++ new_tracks) tids)
          (set_streams (streams st1 ++ [tids])
             (set_tracks (tracks st1 ++ new_tracks) st1))),
     map TrackStop tids)).
  { unfold r. erewrite step_resume; [|done|].
    2:{ cbn [resume]. unfold new_stream, stop_tracks, stream_tracks.
        cbn [mounted set_streams set_tracks streams tracks].
        rewrite Hm. fold new_tracks. rewrite Hn. fold tids.
        rewrite lookup_snoc_length. cbn [default]. reflexivity. }
    done. }
  assert (Hst : stream_tracks (fst r) ls = tids).
  { rewrite Hr. unfold stream_tracks, ls. simpl.
    by rewrite lookup_snoc_length. }
  assert (Hpc2 : has_pc (fst r) = false) by by rewrite Hr.
  assert (Hm2 : media_settled (fst r)).
  { rewrite Hr. intros i. simpl. intros Hi.
    apply list_lookup_insert_Some in Hi as [(_ & [=] & _)|(Hne & Hi)].
    apply (cons_media _ Hc1) in Hi. congruence. }
  assert (Hend : has_pc (fst (run pr (fst r) after)) = false)
    by by apply run_media_settled.
  split; [done|]. split; [by rewrite Hst, Hr|]. split.
  { rewrite Hst. unfold all_stopped. apply forallb_forall.
    intros tid Hin%list_elem_of_In. rewrite Hr. simpl.
    destruct (foldl _ _ _ !! tid) as [t|] eqn:E; [|done].
    eapply stop_tracks_ended; [|exact E]. by left. }
  split; [by rewrite Hr|].
  rewrite run_app. cbn [fst snd]. fold st1.
  rewrite run_cons. cbn [fst snd]. fold r. split.
  - unfold has_pc in Hend. by destruct (peerConnectionRef _).
  - rewrite !negotiation_sent_app.
    rewrite run_no_pc_silent by (apply consistent_init || done).
    pose proof (step_no_pc_silent pr st1 (Resume 0 Resolved) Hc1 Hpc1) as Hs.
    fold r in Hs. rewrite Hs.
    rewrite run_no_pc_silent; [done|by apply step_consistent|done].
Qed.

Lemma late_media_is_released_witness :
  let pr := Props "alice" "Alice" "bob" "Bob" "chat" true Video in
  let before := [Recv (CallFailed "User is offline"); Unmount] in
  let after :=
    [Resume 1 Resolved; PcNegotiationNeeded;
     Recv (WebrtcOffer (OfferData "alice" "bob" "Bob" "sdp" Video "chat"))] in
  let st1 := fst (run pr (init pr) before) in
  let r := step pr st1 (Resume 0 Resolved) in
  snd r = [TrackStop 0; TrackStop 1] ∧
  all_stopped (fst r) [0; 1] = true ∧
  peerConnectionRef
    (fst (run pr (init pr) (before ++ Resume 0 Resolved :: after))) = None.
Proof.
  intros pr before after st1 r.
  destruct (late_media_is_released pr before after eq_refl eq_refl)
    as (H1 & H2 & H3 & _ & H5 & _).
  exact (conj H2 (conj H3 H5)).
Defined.


(** ** The connection is made once *)

Lemma same_connection_refl pc : same_connection pc pc.
Proof. by split. Qed.

Lemma same_connection_trans pc1 pc2 pc3 :
  same_connection pc1 pc2 → same_connection pc2 pc3 →
  same_connection pc1 pc3.
Proof. intros [H1 H2] [H3 H4]. split; [congruence|auto]. Qed.

Lemma step_same_connection pr st ev pc :
  consistent st →
  peerConnectionRef st = Some pc →
  ∃ pc', peerConnectionRef (fst (step pr st ev)) = Some pc' ∧
         same_connection pc pc'.
Proof.
  intros [HA _]. destruct st as [ls ivo cs err pc0 q rls rivo mt trk strm tsk].
  unfold has_pc, has_remote in *. simpl in *. intros ->.
  step_cases;
    try (simplify_eq; eexists; split; [reflexivity|];
         split; simpl; rewrite ?length_insert; (done || congruence));
    try match goal with
    | H : tsk !! _ = Some _ |- _ => by specialize (HA _ _ H)
    end.
Qed.

Lemma run_same_connection pr tr : ∀ st pc,
  consistent st →
  peerConnectionRef st = Some pc →
  ∃ pc', peerConnectionRef (fst (run pr st tr)) = Some pc' ∧
         same_connection pc pc'.
Proof.
  induction tr as [|ev tr IH]; intros st pc Hc Hpc.
  - exists pc. split; [done|apply same_connection_refl].
  - rewrite run_cons. cbn [fst].
    destruct (step_same_connection pr st ev pc Hc Hpc) as (pc1 & H1 & Hs1).
    destruct (IH _ pc1 (step_consistent pr st ev Hc) H1) as (pc2 & H2 & Hs2).
    exists pc2. split; [done|]. by eapply same_connection_trans.
Qed.

(** X8. Once the component has made its peer connection it keeps one for
    the rest of its life, whatever events follow: the connection always
    has as many senders as it was created with (turning the camera back
    on replaces a sender's track, it never adds a sender), and a remote
    description, once set, stays set. *)
Theorem connection_is_made_once (pr : props) (before after : list event)
    (pc : peer_connection) :
  peerConnectionRef (fst (run pr (init pr) before)) = Some pc →
  ∃ pc', peerConnectionRef (fst (run pr (init pr) (before ++ after)))
           = Some pc' ∧
         length (senders pc') = length (senders pc) ∧
         (remoteDescription pc ≠ None → remoteDescription pc' ≠ None).
Proof.
  intros Hpc. rewrite run_app. cbn [fst].
  apply run_same_connection; [|done].
  apply run_consistent, consistent_init.
Qed.

Lemma connection_is_made_once_witness :
  let pr := Props "bob" "Bob" "alice" "Alice" "chat" false Video in
  let offer := OfferData "bob" "alice" "Alice" "sdp" Video "chat" in
  let before := [Resume 0 Resolved; Render; Recv (WebrtcOffer offer);
                 Resume 1 Resolved] in
  let after := [ClickToggleVideo; Render; ClickToggleVideo;
                Resume 2 Resolved; Resume 2 Resolved; ClickEndCall] in
  ∃ pc', peerConnectionRef (fst (run pr (init pr) (before ++ after)))
           = Some pc' ∧
         length (senders pc') = 2 ∧
         remoteDescription pc' ≠ None.
Proof.
  intros pr offer before after.
  destruct (connection_is_made_once pr before after
              (PeerConnection HaveRemoteOffer CsNew (Some "sdp")
                 [Some 0; Some 1]) eq_refl)
    as (pc' & H1 & H2 & H3).
  exists pc'. split; [exact H1|]. split; [exact H2|].
  apply H3. discriminate.
Defined.

(** ** Where messages go *)

Lemma addressed_mono pr offers more m :
  addressed pr offers m → addressed pr (offers ++ more) m.
Proof.
  destruct m; simpl; try done.
  intros (Hf & o & Ho & H). split; [done|]. exists o.
  split; [|done]. apply elem_of_app. by left.
Qed.

Lemma step_addressed pr offers st ev :
  pending_offers_known pr offers st →
  pending_offers_known pr (offers ++ offers_received [ev])
    (fst (step pr st ev)) ∧
  ∀ m, m ∈ sent (snd (step pr st ev)) →
       addressed pr (offers ++ offers_received [ev]) m.
Proof.
  intros HA. destruct st as [ls ivo cs err pc q rls rivo mt trk strm tsk].
  unfold pending_offers_known in *. simpl in *.
  split.
  - step_cases; intros j kj dj Hj Hkj; lookup_cases Hj; simplify_eq;
      simpl in Hkj; simplify_eq; try done;
      try (destruct (HA _ _ _ Hj Hkj); split; [|done];
           apply elem_of_app; by left);
      try (match goal with
           | H : tsk !! _ = Some _ |- _ =>
               destruct (HA _ _ _ H eq_refl); split; [|done];
               apply elem_of_app; by left
           end);
      try (split; [apply elem_of_app; right; by left|];
           by match goal with
              | H : bool_decide _ = true |- _ =>
                  apply bool_decide_eq_true_1 in H
              end).
  - step_cases; log_simpl; intros m Hm;
      repeat (apply elem_of_cons in Hm as [->|Hm]);
      try (by apply not_elem_of_nil in Hm); simpl; try done;
      try (split; [done|];
           match goal with
           | H : tsk !! _ = Some _ |- _ =>
               destruct (HA _ _ _ H eq_refl);
               eexists; split; [apply elem_of_app; by left|done]
           end).
Qed.

Lemma offers_received_app tr1 tr2 :
  offers_received (tr1 ++ tr2) = offers_received tr1 ++ offers_received tr2.
Proof. apply omap_app. Qed.

Lemma run_addressed pr tr : ∀ offers st,
  pending_offers_known pr offers st →
  ∀ m, m ∈ sent (snd (run pr st tr)) →
       addressed pr (offers ++ offers_received tr) m.
Proof.
  induction tr as [|ev tr IH]; intros offers st HA m Hm.
  - by apply not_elem_of_nil in Hm.
  - rewrite run_cons in Hm. cbn [snd] in Hm. rewrite sent_app in Hm.
    destruct (step_addressed pr offers st ev HA) as [HA' Hs].
    change (ev :: tr) with ([ev] ++ tr).
    rewrite offers_received_app, app_assoc.
    apply elem_of_app in Hm as [Hm|Hm].
    + by apply addressed_mono, Hs.
    + by eapply IH.
Qed.

(** X10. Every message the component puts on the socket is a signaling
    message with these addresses. Offers carry the props: to [friendId],
    from [userId] and [userName], with [callType] and [chatId].
    Candidates and [webrtc_call_ended] go to [friendId] under [chatId].
    An answer is sent from [userId] to the [from] of an offer that was
    delivered to the component and addressed to [userId], under the chat
    id of that offer, whoever [friendId] is. *)
Theorem messages_are_addressed (pr : props) (tr : list event) (m : signal) :
  m ∈ sent (snd (run pr (init pr) tr)) →
  addressed pr (offers_received tr) m.
Proof.
  intros Hm. apply (run_addressed pr tr [] (init pr)); [|done].
  intros i k d Hi Hk. simpl in Hi.
  apply list_elem_of_lookup_2, list_elem_of_singleton in Hi. by subst k.
Qed.


Lemma messages_are_addressed_witness :
  let pr := Props "bob" "Bob" "alice" "Alice" "chat" false Audio in
  let offer := OfferData "bob" "carol" "Carol" "sdp" Audio "other" in
  let tr := [Resume 0 Resolved; Recv (WebrtcOffer offer); Resume 1 Resolved;
             Resume 1 (ResolvedSdp "answer"); Resume 1 Resolved] in
  addressed pr [offer]
    (WebrtcAnswer (AnswerData "carol" "bob" "answer" "other")).
Proof.
  intros pr offer tr.
  apply (messages_are_addressed pr tr).
  vm_compute. left.
Defined.

(** ** Offers *)

Lemma offers_sent_app a b : offers_sent (a ++ b) = offers_sent a + offers_sent b.
Proof.
  unfold offers_sent. by rewrite sent_app, List.filter_app, length_app.
Qed.

Lemma sum_weight_snoc (w : cont → nat) (l : list cont) (k : cont) :
  sum_list (map w (l ++ [k])) = sum_list (map w l) + w k.
Proof. induction l as [|x l IH]; simpl; lia. Qed.

Lemma sum_weight_insert (w : cont → nat) (l : list cont) (i : nat)
    (k k' : cont) :
  l !! i = Some k →
  sum_list (map w (<[i := k']> l)) + w k = sum_list (map w l) + w k'.
Proof.
  revert i. induction l as [|x l IH]; intros i Hi; [done|].
  destruct i as [|i]; simpl in *.
  - injection Hi as ->. lia.
  - specialize (IH i Hi). lia.
Qed.

Lemma resume_offers pr k r st st1 a k' :
  resume pr k r st = Some (st1, a, k') →
  tasks st1 = tasks st ∧
  (offers_sent a + offer_weight pr k' ≤ offer_weight pr k)%nat.
Proof.
  destruct st as [ls ivo cs err pc q rls rivo mt trk strm tsk].
  unfold offers_sent. intros H. split.
  - revert H. step_cases; intros ?; simplify_eq; done.
  - revert H. step_cases; intros ?; simplify_eq; log_simpl; lia.
Qed.

Lemma step_offers pr st ev :
  (offers_sent (snd (step pr st ev)) + pending_offers pr (fst (step pr st ev))
   ≤ pending_offers pr st + negotiations [ev])%nat.
Proof.
  unfold pending_offers, negotiations. destruct ev as [i r|m| | | | |c|s|].
  - cbn [step].
    destruct (tasks st !! i) as [k|] eqn:Hi; [|simpl; lia].
    destruct (resume pr k r st) as [[[st1 a] k']|] eqn:Hr; [|simpl; lia].
    destruct (resume_offers _ _ _ _ _ _ _ Hr) as [Ht Hle].
    cbn [fst snd tasks set_tasks]. rewrite Ht.
    pose proof (sum_weight_insert (offer_weight pr) _ _ _ k' Hi).
    simpl. lia.
  - destruct st as [ls ivo cs err pc q rls rivo mt trk strm tsk].
    unfold offers_sent. step_cases; log_simpl;
      rewrite ?sum_weight_snoc; simpl; lia.
  - destruct st as [ls ivo cs err pc q rls rivo mt trk strm tsk].
    unfold offers_sent. step_cases; log_simpl; lia.
  - destruct st as [ls ivo cs err pc q rls rivo mt trk strm tsk].
    unfold offers_sent. step_cases; log_simpl; lia.
  - destruct st as [ls ivo cs err pc q rls rivo mt trk strm tsk].
    unfold offers_sent. step_cases; log_simpl;
      rewrite ?sum_weight_snoc; simpl; lia.
  - destruct st as [ls ivo cs err pc q rls rivo mt trk strm tsk].
    unfold offers_sent. step_cases; log_simpl; lia.
  - destruct st as [ls ivo cs err pc q rls rivo mt trk strm tsk].
    unfold offers_sent. step_cases; log_simpl; lia.
  - destruct st as [ls ivo cs err pc q rls rivo mt trk strm tsk].
    unfold offers_sent. step_cases; log_simpl; lia.
  - destruct st as [ls ivo cs err pc q rls rivo mt trk strm tsk].
    unfold offers_sent. step_cases; log_simpl;
      rewrite ?sum_weight_snoc; simpl; lia.
Qed.

Lemma run_offers pr tr : ∀ st,
  (offers_sent (snd (run pr st tr)) + pending_offers pr (fst (run pr st tr))
   ≤ pending_offers pr st + negotiations tr)%nat.
Proof.
  induction tr as [|ev tr IH]; intros st; [simpl; lia|].
  rewrite run_cons. cbn [fst snd]. rewrite offers_sent_app.
  pose proof (step_offers pr st ev) as H1.
  pose proof (IH (fst (step pr st ev))) as H2.
  change (ev :: tr) with ([ev] ++ tr).
  unfold negotiations in *. rewrite List.filter_app, length_app. lia.
Qed.

(** X11. The component never sends more offers than it has had reasons
    to: in any execution the number of [webrtc_offer] messages sent is at
    most the number of [negotiationneeded] events fired by the browser,
    plus one for the initiator. A callee that gets no [negotiationneeded]
    sends none. *)
Theorem offers_need_a_trigger (pr : props) (tr : list event) :
  (offers_sent (snd (run pr (init pr) tr))
   ≤ (if isInitiator pr then 1 else 0) + negotiations tr)%nat.
Proof.
  pose proof (run_offers pr tr (init pr)) as H.
  unfold pending_offers at 2 in H. simpl in H. lia.
Qed.

(** ** Ending a call from a render that has the stream *)

(** X12. Once a render that has the stream is committed, ending the call
    from the button or on a [webrtc_call_ended] for this chat sends
    [webrtc_call_ended] to the friend, stops every track of the local
    stream, closes the connection if there is one, sets the status to
    [ended] and calls [onEndCall], in that order. *)
Theorem committed_stream_is_released (pr : props) (st : state) (ls : nat)
    (ev : event) :
  mounted st = true →
  rendered_localStream st = Some ls →
  (ev = ClickEndCall ∨
   ∃ d, ev = Recv (WebrtcCallEnded d) ∧ e_chatId d = chatId pr) →
  let r := step pr st ev in
  all_stopped (fst r) (stream_tracks st ls) = true ∧
  (signalingState <$> peerConnectionRef (fst r)) =
    (λ _, SignalingClosed) <$> peerConnectionRef st ∧
  callStatus (fst r) = Ended ∧
  snd r = Emit (WebrtcCallEnded (EndedData (friendId pr) (chatId pr)))
          :: map TrackStop (stream_tracks st ls)
          ++ (if has_pc st then [PcClose] else []) ++ [OnEndCall].
Proof.
  intros Hm Hls Hev r.
  assert (Hr : r = handleEndCall pr (Some ls) st).
  { unfold r. destruct Hev as [->|(d & -> & Hd)]; cbn [step on_socket];
      rewrite Hm, Hls; [done|]. by rewrite bool_decide_true. }
  rewrite Hr. unfold handleEndCall.
  destruct (cleanup_releases st ls) as (H1 & H2 & H3 & H4).
  destruct (cleanup (Some ls) st) as [st1 a]. simpl in *.
  rewrite H2, <- app_assoc. done.
Qed.

Lemma committed_stream_is_released_witness :
  let pr := Props "alice" "Alice" "bob" "Bob" "chat" true Video in
  let st := fst (run pr (init pr) [Resume 0 Resolved; Render]) in
  let r := step pr st (Recv (WebrtcCallEnded (EndedData "alice" "chat"))) in
  all_stopped (fst r) [0; 1] = true ∧
  snd r = [Emit (WebrtcCallEnded (EndedData "bob" "chat"));
           TrackStop 0; TrackStop 1; PcClose; OnEndCall].
Proof.
  intros pr st r.
  destruct (committed_stream_is_released pr st 0
              (Recv (WebrtcCallEnded (EndedData "alice" "chat")))
              eq_refl eq_refl) as (H1 & _ & _ & H4).
  - right. by eexists.
  - exact (conj H1 H4).
Defined.

Lemma answers_sent_app a b :
  answers_sent (a ++ b) = answers_sent a + answers_sent b.
Proof.
  unfold answers_sent. by rewrite sent_app, List.filter_app, length_app.
Qed.

Lemma resume_answers pr k r st st1 a k' :
  resume pr k r st = Some (st1, a, k') →
  tasks st1 = tasks st ∧
  (answers_sent a + answer_weight k' ≤ answer_weight k)%nat.
Proof.
  destruct st as [ls ivo cs err pc q rls rivo mt trk strm tsk].
  unfold answers_sent. intros H. split.
  - revert H. step_cases; intros ?; simplify_eq; done.
  - revert H. step_cases; intros ?; simplify_eq; log_simpl;
      unfold answer_weight; simpl; lia.
Qed.

Lemma step_answers pr st ev :
  (answers_sent (snd (step pr st ev)) + pending_answers (fst (step pr st ev))
   ≤ pending_answers st + (if takes_offer pr st ev then 1 else 0))%nat.
Proof.
  unfold pending_answers. destruct ev as [i r|m| | | | |c|s|].
  - cbn [step takes_offer].
    destruct (tasks st !! i) as [k|] eqn:Hi; [|simpl; lia].
    destruct (resume pr k r st) as [[[st1 a] k']|] eqn:Hr; [|simpl; lia].
    destruct (resume_answers _ _ _ _ _ _ _ Hr) as [Ht Hle].
    cbn [fst snd tasks set_tasks]. rewrite Ht.
    pose proof (sum_weight_insert answer_weight _ _ _ k' Hi).
    simpl. lia.
  - destruct st as [ls ivo cs err pc q rls rivo mt trk strm tsk].
    unfold answers_sent, takes_offer, has_pc. simpl.
    step_cases; log_simpl;
      rewrite ?sum_weight_snoc; unfold answer_weight; simpl; lia.
  - destruct st as [ls ivo cs err pc q rls rivo mt trk strm tsk].
    unfold answers_sent. step_cases; log_simpl; lia.
  - destruct st as [ls ivo cs err pc q rls rivo mt trk strm tsk].
    unfold answers_sent. step_cases; log_simpl; lia.
  - destruct st as [ls ivo cs err pc q rls rivo mt trk strm tsk].
    unfold answers_sent. step_cases; log_simpl;
      rewrite ?sum_weight_snoc; unfold answer_weight; simpl; lia.
  - destruct st as [ls ivo cs err pc q rls rivo mt trk strm tsk].
    unfold answers_sent. step_cases; log_simpl; lia.
  - destruct st as [ls ivo cs err pc q rls rivo mt trk strm tsk].
    unfold answers_sent. step_cases; log_simpl; lia.
  - destruct st as [ls ivo cs err pc q rls rivo mt trk strm tsk].
    unfold answers_sent. step_cases; log_simpl; lia.
  - destruct st as [ls ivo cs err pc q rls rivo mt trk strm tsk].
    unfold answers_sent. step_cases; log_simpl;
      rewrite ?sum_weight_snoc; unfold answer_weight; simpl; lia.
Qed.

Lemma run_answers pr tr : ∀ st,
  (answers_sent (snd (run pr st tr)) + pending_answers (fst (run pr st tr))
   ≤ pending_answers st + offers_taken pr st tr)%nat.
Proof.
  induction tr as [|ev tr IH]; intros st; [simpl; lia|].
  rewrite run_cons. cbn [fst snd offers_taken]. rewrite answers_sent_app.
  pose proof (step_answers pr st ev) as H1.
  pose proof (IH (fst (step pr st ev))) as H2. lia.
Qed.

(** ** Answers *)

(** X13. The component never sends more answers than offers it took up:
    in any execution the number of [webrtc_answer] messages sent is at
    most the number of offers that were delivered while the component was
    mounted and had its connection, and were addressed to this user. An
    offer that comes before the connection exists is not answered
    later. *)
Theorem answers_need_a_taken_offer (pr : props) (tr : list event) :
  (answers_sent (snd (run pr (init pr) tr))
   ≤ offers_taken pr (init pr) tr)%nat.
Proof.
  pose proof (run_answers pr tr (init pr)) as H.
  unfold pending_answers at 2 in H. simpl in H. lia.
Qed.

(** The offer that rings the callee is delivered before the call
    component has its connection: it is never answered. *)
Example early_offer_is_never_answered :
  let pr := Props "bob" "Bob" "alice" "Alice" "chat" false Video in
  let offer := OfferData "bob" "alice" "Alice" "sdp" Video "chat" in
  let tr := [Recv (WebrtcOffer offer); Resume 0 Resolved; Render;
             PcNegotiationNeeded; Resume 1 (ResolvedSdp "o");
             Resume 1 Resolved] in
  offers_taken pr (init pr) tr = 0 ∧
  sent (snd (run pr (init pr) tr)) =
    [WebrtcOffer (OfferData "alice" "bob" "Bob" "o" Video "chat")].
Proof. vm_compute. by split. Qed.

End CallHistoryFacts.

(** ** Muting *)

Module MuteFacts.
Import Client ClientFacts Mute.

Lemma step_streams_are_sets pr st ev :
  streams_are_sets st → streams_are_sets (fst (step pr st ev)).
Proof.
  destruct st as [ls ivo cs err pc q rls rivo mt trk strm tsk].
  unfold streams_are_sets. simpl. intros HA.
  step_cases; intros j tids Hj;
    repeat match goal with
    | H : (_ ++ [_]) !! _ = Some _ |- _ =>
        apply lookup_snoc_Some in H as [(? & H)|(? & ?)]; simplify_eq
    | H : alter _ _ _ !! _ = Some _ |- _ =>
        rewrite list_lookup_alter in H; case_decide; simplify_eq
    | H : _ <$> _ = Some _ |- _ => apply fmap_Some in H as (? & H & ?)
    end; simplify_eq; try (by eapply HA);
    try apply (NoDup_seq _ 2); try apply (NoDup_seq _ 1);
    try (case_decide;
         [first [by eapply HA|apply NoDup_singleton]
         |apply NoDup_app;
          split; [first [by eapply HA|apply NoDup_singleton]|];
          split; [by intros ? ? ->%list_elem_of_singleton
                 |apply NoDup_singleton]]).
Qed.


Lemma run_streams_are_sets pr tr : ∀ st,
  streams_are_sets st → streams_are_sets (fst (run pr st tr)).
Proof.
  induction tr as [|ev tr IH]; intros st Hst; [done|].
  rewrite run_cons. cbn [fst]. by apply IH, step_streams_are_sets.
Qed.

Lemma foldl_alter_lookup (f : track → track) (l : list nat) :
  NoDup l →
  ∀ (trk : list track) (i : nat),
    foldl (λ ts tid, alter f tid ts) trk l !! i =
    (if decide (i ∈ l) then f else id) <$> trk !! i.
Proof.
  induction 1 as [|x l Hx Hl IH]; intros trk i; simpl.
  - by destruct (trk !! i).
  - rewrite IH, list_lookup_alter.
    destruct (decide (x = i)) as [->|Hne].
    + rewrite (decide_False (P := i ∈ l)) by done.
      rewrite (decide_True (P := i ∈ i :: l)) by left.
      by destruct (trk !! i).
    + destruct (decide (i ∈ l)) as [Hin|Hin].
      * by rewrite (decide_True (P := i ∈ x :: l)) by by right.
      * rewrite (decide_False (P := i ∈ x :: l)); [done|].
        intros [->|?]%elem_of_cons; done.
Qed.

Lemma foldl_alter_notin (f : track → track) (l : list nat) :
  ∀ (trk : list track) (i : nat),
    i ∉ l → foldl (λ ts tid, alter f tid ts) trk l !! i = trk !! i.
Proof.
  induction l as [|x l IH]; intros trk i Hi; simpl; [done|].
  apply not_elem_of_cons in Hi as [Hne Hi].
  rewrite IH by done. rewrite list_lookup_alter.
  by rewrite decide_False.
Qed.

Lemma audio_tracks_ext st st' ls :
  streams st' = streams st →
  (∀ tid, t_kind <$> tracks st' !! tid = t_kind <$> tracks st !! tid) →
  audio_tracks st' ls = audio_tracks st ls.
Proof.
  intros Hs Hk. unfold audio_tracks, stream_tracks. rewrite Hs.
  induction (default [] (streams st !! ls)) as [|x l IH]; simpl; [done|].
  assert (is_audio st' x = is_audio st x) as ->
    by (unfold is_audio; by rewrite Hk).
  by rewrite IH.
Qed.

Lemma audio_tracks_NoDup st ls :
  streams_are_sets st → NoDup (audio_tracks st ls).
Proof.
  intros Hs. unfold audio_tracks, stream_tracks.
  destruct (streams st !! ls) as [tids|] eqn:E; simpl; [|constructor].
  specialize (Hs _ _ E). clear E.
  induction Hs as [|x l Hx Hl IH]; simpl; [constructor|].
  destruct (is_audio st x); [|done]. constructor; [|done].
  intros Hin%list_elem_of_In%filter_In. destruct Hin as [Hin _].
  by apply list_elem_of_In in Hin.
Qed.

Lemma audio_kept_refl trk : audio_kept trk trk.
Proof. intros tid t Ht Hk. by exists t. Qed.

Lemma audio_kept_trans t1 t2 t3 :
  audio_kept t1 t2 → audio_kept t2 t3 → audio_kept t1 t3.
Proof.
  intros H12 H23 tid t Ht Hk.
  destruct (H23 _ _ Ht Hk) as (t' & Ht' & Hk' & He').
  destruct (H12 _ _ Ht' Hk') as (t'' & Ht'' & Hk'' & He'').
  exists t''. split; [done|]. split; [done|]. congruence.
Qed.

Lemma audio_kept_stop (l : list nat) :
  ∀ trk, audio_kept trk (foldl (λ ts tid, alter stop_track tid ts) trk l).
Proof.
  induction l as [|x l IH]; intros trk; simpl; [apply audio_kept_refl|].
  eapply audio_kept_trans; [|apply IH].
  intros tid t' Ht Hk. rewrite list_lookup_alter in Ht.
  case_decide; simplify_eq; [|by exists t'].
  destruct (trk !! tid) as [t|]; simpl in Ht; simplify_eq.
  by exists t.
Qed.

Lemma audio_kept_video (trk : list track) :
  audio_kept trk (trk ++ [Track VideoTrack true false]).
Proof.
  intros tid t' Ht Hk.
  apply lookup_snoc_Some in Ht as [(_ & Ht)|(_ & <-)]; [by exists t'|done].
Qed.

Lemma audio_kept_disable (st : state) (ls : nat) :
  audio_kept (tracks st)
    (foldl (λ ts tid, alter disable_track tid ts) (tracks st)
           (video_tracks st ls)).
Proof.
  intros tid t' Ht Hk.
  destruct (decide (tid ∈ video_tracks st ls)) as [Hin|Hin].
  - exfalso. unfold video_tracks in Hin.
    apply list_elem_of_In, filter_In in Hin as [_ Hv].
    unfold is_video in Hv. apply bool_decide_eq_true in Hv.
    pose proof (foldl_alter_kind disable_track (video_tracks st ls)
                  (λ _, eq_refl) (tracks st) tid) as Hkind.
    rewrite Ht, Hv in Hkind. simpl in Hkind. congruence.
  - rewrite foldl_alter_notin in Ht by done. by exists t'.
Qed.

Ltac audio_solve :=
  repeat first
    [ apply audio_kept_refl
    | apply audio_kept_stop
    | apply audio_kept_video
    | apply (audio_kept_disable (St _ _ _ _ _ _ _ _ _ _ _ _))
    | eapply audio_kept_trans; [|apply audio_kept_stop] ].

Lemma step_audio_kept pr st ev :
  ¬ media_arrives st ev →
  audio_kept (tracks st) (tracks (fst (step pr st ev))).
Proof.
  destruct st as [ls ivo cs err pc q rls rivo mt trk strm tsk].
  unfold media_arrives. simpl. intros Hno.
  step_cases; try audio_solve; exfalso; apply Hno; by eexists.
Qed.


Lemma step_without_media pr st ev :
  ¬ media_arrives st ev →
  let st' := fst (step pr st ev) in
  localStream st' = localStream st ∧
  (rendered_localStream st' = rendered_localStream st ∨
   rendered_localStream st' = localStream st) ∧
  (∀ i, tasks st' !! i = Some KGetUserMedia →
        tasks st !! i = Some KGetUserMedia) ∧
  (mounted st' = true → mounted st = true).
Proof.
  destruct st as [ls ivo cs err pc q rls rivo mt trk strm tsk].
  unfold media_arrives. simpl. intros Hno.
  repeat split.
  - step_cases; exfalso; apply Hno; by eexists.
  - step_cases; try (by left); try (by right);
      exfalso; apply Hno; by eexists.
  - step_cases; intros j Hj; lookup_cases Hj; simplify_eq; try done;
      exfalso; apply Hno; by eexists.
  - step_cases; exfalso; apply Hno; by eexists.
Qed.

Lemma step_stream_grows pr st ev ls tid :
  tid ∈ stream_tracks st ls →
  tid ∈ stream_tracks (fst (step pr st ev)) ls.
Proof.
  destruct st as [l ivo cs err pc q rls rivo mt trk strm tsk].
  unfold stream_tracks. simpl. intros Hin.
  assert (Hsnoc : ∀ x, tid ∈ default [] ((strm ++ [x]) !! ls)).
  { intros x. destruct (strm !! ls) as [tids|] eqn:E;
      [|by apply not_elem_of_nil in Hin].
    by rewrite (lookup_app_l_Some _ _ _ _ E). }
  assert (Halter : ∀ x n y,
    tid ∈ default []
      (alter (λ tids, if decide (y ∈ tids) then tids else tids ++ [y]) n
             (strm ++ [x]) !! ls)).
  { intros x n y. rewrite list_lookup_alter.
    specialize (Hsnoc x). case_decide; [|done]. subst.
    destruct ((strm ++ [x]) !! ls) as [tids|]; [|done]. simpl in *.
    case_decide; [done|]. apply elem_of_app. by left. }
  assert (Halter' : ∀ n y,
    tid ∈ default []
      (alter (λ tids, if decide (y ∈ tids) then tids else tids ++ [y]) n
             strm !! ls)).
  { intros n y. rewrite list_lookup_alter. case_decide; [|done]. subst.
    destruct (strm !! ls) as [tids|]; [|done]. simpl in *.
    case_decide; [done|]. apply elem_of_app. by left. }
  step_cases.
Qed.


Lemma classic_media st ev : media_arrives st ev ∨ ¬ media_arrives st ev.
Proof.
  unfold media_arrives.
  destruct ev as [i r| | | | | | | |]; try (right; by intros (? & ? & ?)).
  destruct r; try (right; by intros (? & ? & ?)).
  destruct (decide (tasks st !! i = Some KGetUserMedia)) as [H|H].
  - left. by exists i.
  - right. intros (j & [= <-] & Hj). done.
Qed.

Lemma media_arrival pr st i :
  tasks st !! i = Some KGetUserMedia →
  let st' := fst (step pr st (Resume i Resolved)) in
  let tids := seq (length (tracks st)) (length (new_media pr)) in
  rendered_localStream st' = rendered_localStream st ∧
  mounted st' = mounted st ∧
  streams st' = streams st ++ [tids] ∧
  (∀ j, tasks st' !! j = Some KGetUserMedia →
        j ≠ i ∧ tasks st !! j = Some KGetUserMedia) ∧
  (if mounted st
   then localStream st' = Some (length (streams st)) ∧
        tracks st' = tracks st ++ new_media pr
   else localStream st' = localStream st ∧
        tracks st' =
          foldl (λ ts tid, alter stop_track tid ts)
                (tracks st ++ new_media pr) tids).
Proof.
  destruct st as [ls ivo cs err pc q rls rivo mt trk strm tsk].
  unfold new_media. simpl. intros Hi. rewrite Hi.
  assert (Hins : ∀ (k : cont) j, k ≠ KGetUserMedia →
    <[i := k]> tsk !! j = Some KGetUserMedia →
    j ≠ i ∧ tsk !! j = Some KGetUserMedia).
  { intros k j Hk Hj.
    apply list_lookup_insert_Some in Hj as [(? & ? & ?)|(? & ?)]; done. }
  unfold_step. simpl.
  destruct mt, (isInitiator pr), (bool_decide (callType pr = Video));
    simpl; unfold stream_tracks; simpl; rewrite ?lookup_snoc_length; simpl;
    repeat (split; [first [done|intros j Hj; eapply Hins; [|exact Hj]; done]|]);
    done.
Qed.


Lemma consistent_set_tracks v st : consistent st → consistent (set_tracks v st).
Proof. intros [H1 H2]. by split. Qed.

Lemma toggleMute_in_step m st :
  mounted st = true → in_step (st, m) → in_step (toggleMute m st).
Proof.
  intros Hm [Hc Hs Hmic Hp Hr Hu Hl Hsil]. simpl in *. unfold toggleMute.
  destruct (rendered_localStream st) as [ls|] eqn:Hls;
    [|split; simpl; rewrite ?Hls; assumption].
  pose proof (Hr ls eq_refl) as Hlocal.
  pose proof (audio_tracks_NoDup st ls Hs) as Hnd.
  assert (Hkind : ∀ tid,
    t_kind <$> foldl (λ ts x, alter flip_track x ts) (tracks st)
                     (audio_tracks st ls) !! tid =
    t_kind <$> tracks st !! tid).
  { intros tid. by apply foldl_alter_kind. }
  split; simpl.
  - by apply consistent_set_tracks.
  - done.
  - intros tid t' Ht Hk. simpl in Ht, Hk |- *.
    rewrite foldl_alter_lookup in Ht by done.
    destruct (tracks st !! tid) as [t|] eqn:E; [|by destruct (decide _)].
    assert (Hin : tid ∈ audio_tracks st ls).
    { unfold audio_tracks.
      apply list_elem_of_In, filter_In. split.
      - apply list_elem_of_In. apply (Hl Hm ls tid t); [done|done|].
        destruct (decide _); simpl in Ht; simplify_eq; done.
      - unfold is_audio. apply bool_decide_eq_true. rewrite E. simpl.
        destruct (decide _); simpl in Ht; simplify_eq; by f_equal. }
    rewrite decide_True in Ht by done. simpl in Ht. simplify_eq. simpl.
    f_equal. apply (Hmic tid t); done.
  - assumption.
  - rewrite Hls. assumption.
  - rewrite Hls. by intros [=].
  - intros _ ls' tid t' Hls' Ht Hk.
    pose proof (Hkind tid) as Hkt. rewrite Ht in Hkt. simpl in Hkt.
    destruct (tracks st !! tid) as [t|] eqn:E; [|done].
    simpl in Hkt. simplify_eq.
    unfold stream_tracks. simpl.
    eapply (Hl Hm _ tid t); [done|done|congruence].
  - intros _ Hnone. congruence.
Qed.

Lemma component_in_step pr st m ev :
  in_step (st, m) → in_step (fst (step pr st ev), m).
Proof.
  intros [Hc Hs Hmic Hp Hr Hu Hl Hsil]. simpl in *.
  assert (Hc' := step_consistent pr st ev Hc).
  assert (Hs' := step_streams_are_sets pr st ev Hs).
  destruct (classic_media st ev) as [(i & -> & Hi)|Hno].
  - (* the media arrives *)
    destruct (media_arrival pr st i Hi) as (Hrl & Hmt & Hstr & Htsk & Hcase).
    pose proof (Hp i Hi) as Hnone.
    assert (Hrnone : rendered_localStream st = None).
    { destruct (rendered_localStream st) as [ls|] eqn:E; [|done].
      specialize (Hr ls eq_refl). congruence. }
    pose proof (Hu Hrnone) as ->.
    assert (Hnomore : ∀ j,
      tasks (fst (step pr st (Resume i Resolved))) !! j
        ≠ Some KGetUserMedia).
    { intros j Hj. destruct (Htsk j Hj) as [Hne Hj'].
      apply (cons_media _ Hc) in Hj'. apply (cons_media _ Hc) in Hi.
      congruence. }
    assert (Hnew : ∀ tid t, (tracks st ++ new_media pr) !! tid = Some t →
      t_kind t = AudioTrack →
      t_enabled t = true ∧
      (mounted st = true → tid = length (tracks st))).
    { intros tid t Ht Hk.
      apply lookup_app_Some in Ht as [Ht|[Hlen Ht]].
      - split; [by apply (Hmic tid t)|]. intros Hmt'.
        by destruct (Hsil Hmt' Hnone tid t Ht).
      - unfold new_media in Ht.
        destruct (tid - length (tracks st)) as [|[|n]] eqn:En; simpl in Ht.
        + simplify_eq. split; [done|]. intros _. lia.
        + case_bool_decide; simpl in Ht; simplify_eq.
        + case_bool_decide; simpl in Ht; simplify_eq. }
    split; cbn [fst snd]; [exact Hc'|exact Hs'| | | | | |].
    + intros tid t Ht Hk. cbn [fst snd] in *.
      destruct (mounted st) eqn:Emt.
      * destruct Hcase as [_ Htr]. rewrite Htr in Ht.
        by apply Hnew in Ht as [? _].
      * destruct Hcase as [_ Htr]. rewrite Htr in Ht.
        destruct (audio_kept_stop _ _ _ _ Ht Hk) as (t0 & Ht0 & Hk0 & <-).
        by apply Hnew in Ht0 as [? _].
    + intros j Hj. by destruct (Hnomore j).
    + intros ls. rewrite Hrl, Hrnone. done.
    + done.
    + rewrite Hmt. intros Emt. rewrite Emt in Hcase.
      destruct Hcase as [Hloc Htr]. intros ls tid t Hls Ht Hk.
      rewrite Hloc in Hls. injection Hls as <-.
      rewrite Htr in Ht. apply Hnew in Ht as [_ Htid]; [|done].
      rewrite (Htid Emt). unfold stream_tracks. rewrite Hstr.
      rewrite lookup_snoc_length. simpl. unfold new_media. simpl. left.
    + rewrite Hmt. intros Emt. rewrite Emt in Hcase.
      destruct Hcase as [Hloc _]. congruence.
  - (* any other event *)
    destruct (step_without_media pr st ev Hno) as (Hloc & Hrl & Htsk & Hmt).
    pose proof (step_audio_kept pr st ev Hno) as Hkept.
    split; cbn [fst snd]; [exact Hc'|exact Hs'| | | | | |].
    + intros tid t' Ht Hk. cbn [fst snd] in *.
      destruct (Hkept _ _ Ht Hk) as (t & Ht0 & Hk0 & <-).
      by apply (Hmic tid t).
    + intros i Hi. rewrite Hloc. by eapply Hp, Htsk.
    + intros ls Hls. rewrite Hloc.
      destruct Hrl as [Hrl|Hrl]; rewrite Hrl in Hls; [by apply Hr|done].
    + intros Hnone. apply Hu.
      destruct Hrl as [Hrl|Hrl]; rewrite Hrl in Hnone; [done|].
      destruct (rendered_localStream st) as [ls|] eqn:E; [|done].
      specialize (Hr ls eq_refl). congruence.
    + intros Hmt' ls tid t' Hls Ht Hk.
      destruct (Hkept _ _ Ht Hk) as (t & Ht0 & Hk0 & _).
      apply step_stream_grows. rewrite Hloc in Hls.
      by apply (Hl (Hmt Hmt') ls tid t).
    + intros Hmt' Hnone tid t' Ht Hk.
      destruct (Hkept _ _ Ht Hk) as (t & Ht0 & Hk0 & _).
      rewrite Hloc in Hnone. by apply (Hsil (Hmt Hmt') Hnone tid t).
Qed.

Lemma in_step_init pr : in_step (button_init pr).
Proof.
  split; simpl;
    first [ apply consistent_init
          | done
          | intros;
            repeat match goal with
                   | H : [] !! _ = Some _ |- _ => by rewrite lookup_nil in H
                   end;
            by simplify_eq ].
Qed.

Lemma button_step_in_step pr s ev : in_step s → in_step (button_step pr s ev).
Proof.
  destruct s as [st m], ev as [ev|]; simpl.
  - apply component_in_step.
  - destruct (mounted st) eqn:Hm; [|done]. by apply toggleMute_in_step.
Qed.

Lemma button_run_in_step pr tr : ∀ s,
  in_step s → in_step (button_run pr s tr).
Proof.
  induction tr as [|ev tr IH]; intros s Hs; [done|].
  simpl. by apply IH, button_step_in_step.
Qed.

(** X14. Whatever the component and its mute button have been through,
    every audio track the component holds is enabled exactly when
    [isMuted] is off: the microphone is never live while the button shows
    it muted, and never silent by a click while it shows it live. Turning
    the camera off and on, ending the call or unmounting do not break
    this. *)
Theorem microphone_follows_the_button (pr : props)
    (tr : list button_event) (tid : nat) (t : track) :
  let s := button_run pr (button_init pr) tr in
  tracks (fst s) !! tid = Some t →
  t_kind t = AudioTrack →
  t_enabled t = negb (snd s).
Proof.
  intros s. apply (is_mic _ (button_run_in_step pr tr _ (in_step_init pr))).
Qed.

Lemma microphone_follows_the_button_witness :
  let pr := Props "alice" "Alice" "bob" "Bob" "chat" true Video in
  let tr := [ClickToggleMute; Component (Resume 0 Resolved);
             ClickToggleMute; Component Render; ClickToggleMute;
             Component ClickToggleVideo; Component Render;
             Component ClickToggleVideo; Component (Resume 1 Resolved);
             Component (Resume 1 Resolved); ClickToggleMute;
             ClickToggleMute; ClickToggleMute] in
  let s := button_run pr (button_init pr) tr in
  snd s = false ∧
  ∃ t, tracks (fst s) !! 0 = Some t ∧ t_kind t = AudioTrack ∧
       t_enabled t = true.
Proof.
  intros pr tr s. split; [reflexivity|].
  exists (Track AudioTrack true false).
  assert (Ht : tracks (fst s) !! 0 = Some (Track AudioTrack true false))
    by (vm_compute; reflexivity).
  split; [exact Ht|]. split; [reflexivity|].
  exact (microphone_follows_the_button pr tr 0 _ Ht eq_refl).
Defined.

(** X15. In any state the component and its mute button can reach, two
    clicks on the mute button in a row undo each other: every track is as
    it was, and so is [isMuted]. *)
Theorem mute_twice_restores (pr : props) (tr : list button_event) :
  let s := button_run pr (button_init pr) tr in
  let click1 := toggleMute (snd s) (fst s) in
  let click2 := toggleMute (snd click1) (fst click1) in
  click2 = s.
Proof.
  intros s click1 click2.
  pose proof (is_sets _ (button_run_in_step pr tr _ (in_step_init pr)))
    as Hsets.
  fold s in Hsets. destruct s as [st isMuted]. simpl in *.
  subst click1 click2. unfold toggleMute.
  destruct (rendered_localStream st) as [ls|] eqn:Hls; cbn [fst snd].
  2:{ by rewrite Hls. }
  cbn [rendered_localStream set_tracks]. rewrite Hls.
  rewrite negb_involutive. f_equal.
  set (flipped := foldl _ (tracks st) (audio_tracks st ls)).
  assert (Haud : audio_tracks (set_tracks flipped st) ls = audio_tracks st ls).
  { apply audio_tracks_ext; [done|]. intros tid. simpl. unfold flipped.
    by apply foldl_alter_kind. }
  rewrite Haud. cbn [tracks set_tracks].
  assert (Htr : foldl (λ ts tid, alter flip_track tid ts) flipped
                      (audio_tracks st ls) = tracks st).
  { apply list_eq. intros i.
    pose proof (audio_tracks_NoDup st ls Hsets) as Hnd.
    rewrite foldl_alter_lookup by done. unfold flipped.
    rewrite foldl_alter_lookup by done.
    destruct (tracks st !! i) as [[k e d]|]; simpl; [|done].
    case_decide; simpl; [|done]. unfold flip_track. simpl.
    by rewrite negb_involutive. }
  rewrite Htr. by destruct st.
Qed.

(** X16. A click on the mute button changes nothing of the component but
    its tracks, and of those only the [enabled] flag of audio tracks of
    the local stream: no track is added, removed or stopped, no video
    track and no track outside the stream is touched. *)
Theorem mute_only_flips_the_microphone (isMuted : bool) (st : state) :
  let st' := fst (toggleMute isMuted st) in
  st' = set_tracks (tracks st') st ∧
  ∀ tid t, tracks st !! tid = Some t →
    ∃ t', tracks st' !! tid = Some t' ∧
          t_kind t' = t_kind t ∧ t_ended t' = t_ended t ∧
          (t_kind t = VideoTrack → t' = t) ∧
          (∀ ls, rendered_localStream st = Some ls →
                 tid ∉ stream_tracks st ls → t' = t).
Proof.
  intros st'. subst st'. unfold toggleMute.
  destruct (rendered_localStream st) as [ls|] eqn:Hls; cbn [fst].
  2:{ split; [by destruct st|]. intros tid t Ht. exists t. by repeat split. }
  split; [done|]. intros tid t Ht. cbn [tracks set_tracks].
  assert (Hk : ∀ t0, t_kind (flip_track t0) = t_kind t0) by done.
  pose proof (foldl_alter_kind flip_track (audio_tracks st ls) Hk
                (tracks st) tid) as Hkind.
  assert (He : ∀ (l : list nat) (trk : list track),
    t_ended <$> foldl (λ ts x, alter flip_track x ts) trk l !! tid =
    t_ended <$> trk !! tid).
  { induction l as [|x l IH]; intros trk; simpl; [done|].
    rewrite IH, list_lookup_alter. case_decide; simplify_eq; [|done].
    by destruct (trk !! tid). }
  specialize (He (audio_tracks st ls) (tracks st)).
  rewrite Ht in Hkind, He. simpl in *.
  destruct (foldl _ _ _ !! tid) as [t'|] eqn:E; [|done].
  simpl in *. injection Hkind as Hkind. injection He as He.
  exists t'. split; [done|]. split; [done|]. split; [done|]. split.
  - intros Hv.
    rewrite foldl_alter_notin in E; [congruence|].
    unfold audio_tracks. intros Hin%list_elem_of_In%filter_In.
    destruct Hin as [_ Ha]. unfold is_audio in Ha.
    apply bool_decide_eq_true in Ha. rewrite Ht in Ha. simpl in Ha.
    congruence.
  - intros ls' [= <-] Hnot.
    rewrite foldl_alter_notin in E; [congruence|].
    unfold audio_tracks. intros Hin%list_elem_of_In%filter_In.
    destruct Hin as [Hin%list_elem_of_In _]. done.
Qed.

End MuteFacts.

(** ** The chat page *)

Module PageFacts.
Import Page.

(** ** [loadChats] *)

Lemma findIndex_Some {A} (p : A → bool) (l : list A) (i : nat) :
  findIndex p l = Some i →
  (∃ x, l !! i = Some x ∧ p x = true) ∧
  ∀ j y, j < i → l !! j = Some y → p y = false.
Proof.
  revert i. induction l as [|x l IH]; intros i H; simpl in H; [done|].
  destruct (p x) eqn:Hp.
  - injection H as <-. split; [by exists x|]. intros j y Hj. lia.
  - destruct (findIndex p l) as [k|] eqn:E; [|done]. simpl in H.
    injection H as <-. destruct (IH k eq_refl) as [(y & Hy & Hpy) Hlt].
    split; [by exists y|]. intros j z Hj Hz. destruct j as [|j]; simpl in Hz.
    + by injection Hz as <-.
    + apply (Hlt j); [lia|done].
Qed.

Lemma findIndex_first {A} (p : A → bool) (l : list A) (i : nat) (x : A) :
  l !! i = Some x → p x = true →
  (∀ j y, j < i → l !! j = Some y → p y = false) →
  findIndex p l = Some i.
Proof.
  revert i. induction l as [|z l IH]; intros i Hi Hp Hlt; [done|].
  destruct i as [|i]; simpl in *.
  - injection Hi as ->. by rewrite Hp.
  - rewrite (Hlt 0 z) by (lia || done).
    rewrite (IH i); [done|done|done|].
    intros j y Hj Hy. apply (Hlt (S j)); [lia|done].
Qed.

(** What [js_filter] keeps of the tail [l] of [pre ++ l] *)
Lemma js_filter_keeps (self pre l : list chat_data) (x : chat_data) :
  self = pre ++ l →
  x ∈ js_filter (keep_chat self) (length pre) l →
  x ∈ l ∧
  (∀ y, y ∈ pre → c_id y ≠ c_id x) ∧
  (∀ y, y ∈ pre → f_id (c_friend y) ≠ f_id (c_friend x)).
Proof.
  revert pre. induction l as [|z l IH]; intros pre Hself Hx; simpl in Hx.
  - by apply not_elem_of_nil in Hx.
  - assert (Hself' : self = (pre ++ [z]) ++ l) by by rewrite <- app_assoc.
    assert (Hlen : length (pre ++ [z]) = S (length pre))
      by (rewrite length_app; simpl; lia).
    assert (Htail : x ∈ js_filter (keep_chat self) (S (length pre)) l →
      x ∈ z :: l ∧
      (∀ y, y ∈ pre → c_id y ≠ c_id x) ∧
      (∀ y, y ∈ pre → f_id (c_friend y) ≠ f_id (c_friend x))).
    { intros H. rewrite <- Hlen in H.
      destruct (IH _ Hself' H) as (H1 & H2 & H3).
      split; [by right|]. split; intros y Hy.
      - apply H2, elem_of_app. by left.
      - apply H3, elem_of_app. by left. }
    destruct (keep_chat self z (length pre)) eqn:Hk; [|by apply Htail].
    apply elem_of_cons in Hx as [->|Hx]; [|by apply Htail].
    split; [by left|]. unfold keep_chat in Hk.
    case_bool_decide as E1; [|done]. simpl in Hk.
    apply bool_decide_eq_true in Hk.
    symmetry in E1, Hk.
    apply findIndex_Some in E1 as [_ E1]. apply findIndex_Some in Hk as [_ Hk].
    split; intros y [j Hj]%list_elem_of_lookup.
    + assert (Hlt : j < length pre) by by eapply lookup_lt_Some.
      specialize (E1 j y Hlt). rewrite Hself, lookup_app_l in E1 by done.
      specialize (E1 Hj). by apply String.eqb_neq in E1.
    + assert (Hlt : j < length pre) by by eapply lookup_lt_Some.
      specialize (Hk j y Hlt). rewrite Hself, lookup_app_l in Hk by done.
      specialize (Hk Hj). by apply String.eqb_neq in Hk.
Qed.

Lemma js_filter_NoDup (self pre l : list chat_data) :
  self = pre ++ l →
  NoDup (c_id <$> js_filter (keep_chat self) (length pre) l) ∧
  NoDup ((λ c, f_id (c_friend c)) <$> js_filter (keep_chat self) (length pre) l).
Proof.
  revert pre. induction l as [|z l IH]; intros pre Hself; simpl.
  - split; constructor.
  - assert (Hself' : self = (pre ++ [z]) ++ l) by by rewrite <- app_assoc.
    assert (Hlen : length (pre ++ [z]) = S (length pre))
      by (rewrite length_app; simpl; lia).
    destruct (IH _ Hself') as [H1 H2]. rewrite Hlen in H1, H2.
    destruct (keep_chat self z (length pre)); [|done].
    rewrite !fmap_cons. split; constructor; try done.
    + intros (y & Hy & Hin)%list_elem_of_fmap. rewrite <- Hlen in Hin.
      destruct (js_filter_keeps _ _ _ _ Hself' Hin) as (_ & H & _).
      apply (H z); [|done]. apply elem_of_app. right. by left.
    + intros (y & Hy & Hin)%list_elem_of_fmap. rewrite <- Hlen in Hin.
      destruct (js_filter_keeps _ _ _ _ Hself' Hin) as (_ & _ & H).
      apply (H z); [|done]. apply elem_of_app. right. by left.
Qed.

Lemma js_filter_sublist {A} (f : A → nat → bool) (l : list A) :
  ∀ i, sublist (js_filter f i l) l.
Proof.
  induction l as [|x l IH]; intros i; simpl; [constructor|].
  destruct (f x i); [by apply sublist_skip|by apply sublist_cons].
Qed.

Lemma js_filter_all (self pre l : list chat_data) :
  self = pre ++ l →
  NoDup (c_id <$> self) →
  NoDup ((λ c, f_id (c_friend c)) <$> self) →
  js_filter (keep_chat self) (length pre) l = l.
Proof.
  intros Hself Hid Hfr. revert pre Hself.
  induction l as [|z l IH]; intros pre Hself; simpl; [done|].
  assert (Hself' : self = (pre ++ [z]) ++ l) by by rewrite <- app_assoc.
  assert (Hlen : length (pre ++ [z]) = S (length pre))
    by (rewrite length_app; simpl; lia).
  assert (Hz : self !! length pre = Some z).
  { rewrite Hself. by rewrite list_lookup_middle. }
  assert (Hk : keep_chat self z (length pre) = true).
  { unfold keep_chat.
    assert (H1 : findIndex (λ c, String.eqb (c_id c) (c_id z)) self
                 = Some (length pre)).
    { apply (findIndex_first _ _ _ z); [done|by apply String.eqb_refl|].
      intros j y Hj Hy. apply String.eqb_neq. intros E.
      assert (j = length pre); [|lia].
      eapply (NoDup_lookup _ _ _ _ Hid); rewrite list_lookup_fmap.
      - by rewrite Hy.
      - rewrite Hz. simpl. by rewrite E. }
    assert (H2 : findIndex (λ c, String.eqb (f_id (c_friend c))
                                            (f_id (c_friend z))) self
                 = Some (length pre)).
    { apply (findIndex_first _ _ _ z); [done|by apply String.eqb_refl|].
      intros j y Hj Hy. apply String.eqb_neq. intros E.
      assert (j = length pre); [|lia].
      eapply (NoDup_lookup _ _ _ _ Hfr); rewrite list_lookup_fmap.
      - by rewrite Hy.
      - rewrite Hz. simpl. by rewrite E. }
    rewrite H1, H2. by rewrite !bool_decide_eq_true_2. }
  rewrite Hk. f_equal. rewrite <- Hlen. by apply IH.
Qed.

(** X17. What [loadChats] keeps of the server's list has no two chats
    with the same id and no two chats with the same friend; it is a
    sub-list of what the server sent, in the same order; a list that is
    already free of such repetitions is kept whole; and filtering twice
    is filtering once. A response without [chats] gives the empty
    list. *)
Theorem unique_chats_are_unique (chats : option (list chat_data)) :
  NoDup (c_id <$> uniqueChats chats) ∧
  NoDup ((λ c, f_id (c_friend c)) <$> uniqueChats chats) ∧
  sublist (uniqueChats chats) (default [] chats) ∧
  (NoDup (c_id <$> default [] chats) →
   NoDup ((λ c, f_id (c_friend c)) <$> default [] chats) →
   uniqueChats chats = default [] chats) ∧
  uniqueChats (Some (uniqueChats chats)) = uniqueChats chats.
Proof.
  assert (Hnd : ∀ self,
    NoDup (c_id <$> js_filter (keep_chat self) 0 self) ∧
    NoDup ((λ c, f_id (c_friend c)) <$> js_filter (keep_chat self) 0 self)).
  { intros self. by apply (js_filter_NoDup self [] self). }
  destruct chats as [self|]; simpl.
  - destruct (Hnd self) as [H1 H2].
    split; [done|]. split; [done|]. split; [apply js_filter_sublist|].
    split.
    + intros Hid Hfr. by apply (js_filter_all self [] self).
    + by apply (js_filter_all _ [] _).
  - repeat split; constructor.
Qed.


Lemma unique_chats_are_unique_witness :
  let alice := Friend "u1" "alice" "Alice" None in
  let bob := Friend "u2" "bob" "Bob" (Some "online") in
  let chats := [ChatData "c1" alice None; ChatData "c2" bob None;
                ChatData "c1" alice None; ChatData "c3" bob None] in
  uniqueChats (Some chats) = [ChatData "c1" alice None; ChatData "c2" bob None]
  ∧ uniqueChats (Some (uniqueChats (Some chats))) = uniqueChats (Some chats).
Proof.
  intros alice bob chats. split; [reflexivity|].
  apply (unique_chats_are_unique (Some chats)).
Defined.

Lemma js_filter_elem {A} (f : A → nat → bool) (pre l : list A) (i : nat)
    (x : A) :
  l !! i = Some x → f x (length pre + i) = true →
  x ∈ js_filter f (length pre) l.
Proof.
  revert pre i. induction l as [|z l IH]; intros pre i Hi Hf; [done|].
  destruct i as [|i]; simpl in *.
  - injection Hi as ->. rewrite Nat.add_0_r in Hf. rewrite Hf. left.
  - assert (Hin : x ∈ js_filter f (S (length pre)) l).
    { replace (S (length pre)) with (length (pre ++ [z]))
        by (rewrite length_app; simpl; lia).
      apply (IH _ i); [done|].
      rewrite length_app. simpl.
      by replace (length pre + 1 + i) with (length pre + S i) by lia. }
    destruct (f z (length pre)); [by right|done].
Qed.

Lemma findIndex_is_Some {A} (p : A → bool) (l : list A) (x : A) :
  x ∈ l → p x = true → ∃ i, findIndex p l = Some i.
Proof.
  induction l as [|z l IH]; intros Hin Hp; [by apply not_elem_of_nil in Hin|].
  simpl. destruct (p z) eqn:Hz; [by eexists|].
  apply elem_of_cons in Hin as [->|Hin]; [congruence|].
  destruct (IH Hin Hp) as [i ->]. by eexists.
Qed.

(** X18. When chats with the same id are chats with the same friend,
    every friend who has a chat in the server's list still has one after
    the filter of [loadChats]. *)
Theorem first_chat_of_each_friend_is_kept (self : list chat_data)
    (chat : chat_data) :
  (∀ c c', c ∈ self → c' ∈ self → c_id c = c_id c' →
           f_id (c_friend c) = f_id (c_friend c')) →
  chat ∈ self →
  ∃ kept, kept ∈ uniqueChats (Some self) ∧
          f_id (c_friend kept) = f_id (c_friend chat).
Proof.
  intros Hdep Hin. simpl.
  set (byFriend := λ c : chat_data,
         String.eqb (f_id (c_friend c)) (f_id (c_friend chat))).
  destruct (findIndex_is_Some byFriend self chat Hin) as [i Hi];
    [by apply String.eqb_refl|].
  destruct (findIndex_Some _ _ _ Hi) as [(x & Hx & Hpx) Hlt].
  apply String.eqb_eq in Hpx.
  exists x. split; [|done].
  apply (js_filter_elem _ [] self i); [done|]. simpl.
  unfold keep_chat. rewrite Hpx. fold byFriend. rewrite Hi.
  rewrite (findIndex_first _ self i x); [by rewrite !bool_decide_eq_true_2|
    done|by apply String.eqb_refl|].
  intros j y Hj Hy. apply String.eqb_neq. intros E.
  specialize (Hlt j y Hj Hy). unfold byFriend in Hlt.
  apply String.eqb_neq in Hlt. apply Hlt. rewrite <- Hpx.
  apply Hdep; [by eapply list_elem_of_lookup_2|
               by eapply list_elem_of_lookup_2|done].
Qed.

Lemma first_chat_of_each_friend_is_kept_witness :
  let alice := Friend "u1" "alice" "Alice" None in
  let bob := Friend "u2" "bob" "Bob" (Some "online") in
  let self := [ChatData "c1" alice None; ChatData "c2" bob None;
               ChatData "c1" alice None; ChatData "c3" bob None] in
  ∃ kept, kept ∈ uniqueChats (Some self) ∧ f_id (c_friend kept) = "u2".
Proof.
  intros alice bob self.
  apply (first_chat_of_each_friend_is_kept self (ChatData "c3" bob None)).
  - intros c c' Hc Hc' E. vm_compute in Hc, Hc'.
    repeat (apply elem_of_cons in Hc as [->|Hc]);
      repeat (apply elem_of_cons in Hc' as [->|Hc']);
      try done; by apply not_elem_of_nil in Hc || by apply not_elem_of_nil in Hc'.
  - vm_compute. do 3 right. left.
Defined.

(** When two chats share an id but not the friend, a friend can lose
    every chat: the second chat of [u2] is dropped for its id, the third
    because the second comes first for [u2]. *)
Example friend_loses_every_chat :
  let alice := Friend "u1" "alice" "Alice" None in
  let bob := Friend "u2" "bob" "Bob" None in
  uniqueChats (Some [ChatData "c1" alice None; ChatData "c1" bob None;
                     ChatData "c2" bob None])
  = [ChatData "c1" alice None].
Proof. reflexivity. Qed.

(** ** [new_message] *)

Lemma existsb_id (l : list message) (i : string) :
  existsb (λ m, String.eqb (m_id m) i) l = bool_decide (i ∈ m_id <$> l).
Proof.
  induction l as [|x l IH]; simpl; [done|]. rewrite IH.
  destruct (String.eqb_spec (m_id x) i) as [<-|Hne]; simpl.
  - symmetry. apply bool_decide_eq_true_2. left.
  - apply bool_decide_ext. rewrite elem_of_cons.
    split; [by right|]. intros [E|E]; [congruence|done].
Qed.

Lemma on_new_message_messages user ac now d st :
  m_id <$> messages (on_new_message user ac now d st) =
  if bool_decide (m_id (nm_message d) ∈ m_id <$> messages st)
  then m_id <$> messages st
  else (m_id <$> messages st) ++ [m_id (nm_message d)].
Proof.
  unfold on_new_message. rewrite existsb_id. cbv zeta.
  repeat case_match; simpl; by rewrite ?fmap_app.
Qed.

Lemma deliver_snoc user st ds d :
  deliver user st (ds ++ [d]) =
  new_message_listener user (fst d) (snd d) (deliver user st ds).
Proof. unfold deliver. by rewrite foldl_app. Qed.

(** X19. Whatever [new_message] events arrive, in a message list without
    repeated ids no id comes to be listed twice, every message delivered
    is in the list, and a message that is delivered again, at whatever
    time, leaves the list as it is. *)
Theorem messages_are_listed_once (user : string) (st : state)
    (ds : list (string * new_message)) :
  NoDup (m_id <$> messages st) →
  NoDup (m_id <$> messages (deliver user st ds)) ∧
  (∀ d, d ∈ ds →
        m_id (nm_message (snd d)) ∈ m_id <$> messages (deliver user st ds)) ∧
  (∀ d now, d ∈ ds →
        messages (deliver user st (ds ++ [(now, snd d)])) =
        messages (deliver user st ds)).
Proof.
  intros Hnd.
  assert (Hinv : NoDup (m_id <$> messages (deliver user st ds)) ∧
    (∀ d, d ∈ ds →
        m_id (nm_message (snd d)) ∈ m_id <$> messages (deliver user st ds))).
  { induction ds as [|d ds IH] using rev_ind.
    - split; [done|]. by intros d Hd%not_elem_of_nil.
    - destruct IH as [IH1 IH2]. rewrite deliver_snoc.
      unfold new_message_listener. rewrite on_new_message_messages.
      case_bool_decide as E.
      + split; [done|]. intros d' [Hd'| ->%list_elem_of_singleton]%elem_of_app;
          [by apply IH2|done].
      + split.
        * apply NoDup_app. split; [done|]. split; [|apply NoDup_singleton].
          by intros x Hx ->%list_elem_of_singleton.
        * intros d' [Hd'| ->%list_elem_of_singleton]%elem_of_app;
            apply elem_of_app; [left; by apply IH2|right; left]. }
  destruct Hinv as [H1 H2]. split; [done|]. split; [done|].
  intros d now Hd. rewrite deliver_snoc. unfold new_message_listener.
  cbn [fst snd]. specialize (H2 d Hd).
  unfold on_new_message. rewrite existsb_id, bool_decide_eq_true_2 by done.
  cbv zeta. simpl. by destruct (negb _).
Qed.


Lemma messages_are_listed_once_witness :
  let m1 := Message "m1" "bob" "hi" (Some "t1") (Some "c1") in
  let m2 := Message "m2" "bob" "there" None None in
  let st := St [] [] None [m1] ∅ [] false None in
  let ds := [("t2", NewMessage (Some "c1") m1 (Some "Bob"));
             ("t3", NewMessage (Some "c1") m2 None);
             ("t4", NewMessage None m2 None)] in
  m_id <$> messages (deliver "alice" st ds) = ["m1"; "m2"] ∧
  NoDup (m_id <$> messages (deliver "alice" st ds)).
Proof.
  intros m1 m2 st ds. split; [reflexivity|].
  apply (messages_are_listed_once "alice" st ds).
  apply NoDup_singleton.
Defined.

Lemma on_new_message_unread user now d st c :
  unreadCount (new_message_listener user now d st) c =
  unreadCount st c + (if counts_for user c (now, d) then 1 else 0).
Proof.
  unfold new_message_listener, on_new_message, counts_for, unreadCount.
  cbv zeta. cbn [fst snd].
  destruct (negb (String.eqb (m_sender (nm_message d)) user)); simpl; [|lia].
  case_bool_decide as E.
  - rewrite E, lookup_insert_eq. simpl. done.
  - rewrite lookup_insert_ne by done. lia.
Qed.

Lemma on_new_message_activeChat user ac now d st :
  activeChat (on_new_message user ac now d st) = activeChat st.
Proof. unfold on_new_message. cbv zeta. by repeat case_match. Qed.

(** X20. The listener registered at mount reads [activeChat] from the
    first render, where it is [null]: after any deliveries the unread
    count of a chat is what it was plus the number of deliveries for that
    chat sent by someone else, repeated deliveries included, whether or
    not the chat is the one on screen; [activeChat] itself is not
    changed. *)
Theorem unread_counts_every_delivery (user : string) (st : state)
    (ds : list (string * new_message)) (chatId : string) :
  unreadCount (deliver user st ds) chatId =
    unreadCount st chatId + length (List.filter (counts_for user chatId) ds) ∧
  activeChat (deliver user st ds) = activeChat st.
Proof.
  induction ds as [|d ds IH] using rev_ind; [simpl; split; [lia|done]|].
  destruct IH as [IH1 IH2]. rewrite deliver_snoc. split.
  - rewrite on_new_message_unread, IH1, List.filter_app, length_app.
    destruct d as [now d]. simpl. destruct (counts_for _ _ _); simpl; lia.
  - unfold new_message_listener. by rewrite on_new_message_activeChat.
Qed.

End PageFacts.

(** ** Page, socket and call components *)

Module TabFacts.
Import Client ClientFacts Tab.

Lemma listeners_on ev ev' l e :
  listeners ev (on ev' l e) =
  if decide (ev = ev') then listeners ev e ++ [l] else listeners ev e.
Proof.
  unfold listeners, on. case_decide as H.
  - subst. by rewrite lookup_insert_eq.
  - by rewrite lookup_insert_ne.
Qed.

Lemma listeners_off ev ev' e :
  listeners ev (off ev' e) =
  if decide (ev = ev') then [] else listeners ev e.
Proof.
  unfold listeners, off. case_decide as H.
  - subst. by rewrite lookup_delete_eq.
  - by rewrite lookup_delete_ne.
Qed.

Lemma offer_listeners_effect i e :
  listeners "webrtc_offer" (listener_effect i e) =
  listeners "webrtc_offer" e ++ [OfCall i].
Proof.
  unfold listener_effect, call_events. cbn [foldl].
  rewrite !listeners_on. by repeat (case_decide; simplify_eq).
Qed.

Lemma offer_listeners_cleanup e :
  listeners "webrtc_offer" (listener_effect_cleanup e) = [].
Proof.
  unfold listener_effect_cleanup, call_events. cbn [foldl].
  rewrite !listeners_off. by repeat (case_decide; simplify_eq).
Qed.

Lemma tab_run_step t ev tr :
  Tab.run t (ev :: tr) =
  (fst (Tab.run (fst (Tab.step t ev)) tr),
   snd (Tab.step t ev) ++ snd (Tab.run (fst (Tab.step t ev)) tr)).
Proof.
  cbn [Tab.run]. destruct (Tab.step t ev) as [t1 o1]. cbn [fst snd].
  by destruct (Tab.run t1 tr).
Qed.

Lemma tab_run_app tr1 : ∀ t tr2,
  fst (Tab.run t (tr1 ++ tr2)) = fst (Tab.run (fst (Tab.run t tr1)) tr2).
Proof.
  induction tr1 as [|ev tr1 IH]; intros t tr2; [done|].
  rewrite <- app_comm_cons, !tab_run_step. cbn [fst]. apply IH.
Qed.

Lemma undisturbed_app tr1 : ∀ t tr2,
  undisturbed t (tr1 ++ tr2) =
  undisturbed t tr1 && undisturbed (fst (Tab.run t tr1)) tr2.
Proof.
  induction tr1 as [|ev tr1 IH]; intros t tr2; [done|].
  rewrite <- app_comm_cons. cbn [undisturbed]. rewrite tab_run_step.
  cbn [fst]. by rewrite IH, andb_assoc.
Qed.

Lemma call_step_frame i ev t :
  page (fst (call_step i ev t)) = page t ∧
  socket (fst (call_step i ev t)) = socket t.
Proof.
  unfold call_step. destruct (calls t !! i) as [[pr cl]|]; [|done].
  by destruct (Client.step pr cl ev).
Qed.

(** Callbacks of call components leave the page as it is, and no
    callback touches the socket's registrations. *)
Lemma deliver_frame m ls : ∀ r,
  socket (fst (foldl (call_listener m) r ls)) = socket (fst r) ∧
  ((OfPage ∉ ls) →
   page (fst (foldl (call_listener m) r ls)) = page (fst r)) ∧
  (∀ js, ls = OfPage :: map OfCall js →
   page (fst (foldl (call_listener m) r ls)) =
   page_listener m (page (fst r))).
Proof.
  assert (Hcalls : ∀ js r,
    socket (fst (foldl (call_listener m) r (map OfCall js))) =
      socket (fst r) ∧
    page (fst (foldl (call_listener m) r (map OfCall js))) = page (fst r)).
  { induction js as [|j js IH]; intros r; [done|].
    cbn [map foldl]. destruct (IH (call_listener m r (OfCall j))) as [-> ->].
    cbn [call_listener].
    pose proof (call_step_frame j (Recv m) (fst r)) as [Hp Hs].
    by destruct (call_step j (Recv m) (fst r)). }
  induction ls as [|l ls IH]; intros r; [done|]. cbn [foldl].
  destruct (IH (call_listener m r l)) as (Hs & Hp & _).
  split; [|split].
  - rewrite Hs. destruct l as [|j]; [done|]. cbn [call_listener].
    pose proof (call_step_frame j (Recv m) (fst r)) as [_ Hs'].
    by destruct (call_step j (Recv m) (fst r)).
  - intros Hnot. rewrite Hp by (intros ?; apply Hnot; by right).
    destruct l as [|j]; [exfalso; apply Hnot; by left|].
    cbn [call_listener].
    pose proof (call_step_frame j (Recv m) (fst r)) as [Hp' _].
    by destruct (call_step j (Recv m) (fst r)).
  - intros js [= -> ->]. cbn [call_listener].
    by destruct (Hcalls js (set_page (page_listener m (page (fst r))) (fst r),
                            snd r)) as [_ ->].
Qed.

(** What an event does to the callbacks registered for [webrtc_offer] *)
Lemma step_offer_listeners t ev :
  let ls := listeners "webrtc_offer" (socket t) in
  let ls' := listeners "webrtc_offer" (socket (fst (Tab.step t ev))) in
  if cleans_up t ev then ls' = [] ∨ ∃ i, ls' = [OfCall i]
  else ls' = ls ∨ ∃ i, ls' = ls ++ [OfCall i].
Proof.
  intros ls ls'. subst ls ls'. destruct ev as [m| |f|pr|i ev|i]; cbn [cleans_up].
  - left. cbn [Tab.step]. by destruct (deliver_frame m
      (listeners (event_name m) (socket t)) (t, [])) as [-> _].
  - left. cbn [Tab.step]. by destruct (Page.rejectCall true (page t)).
  - by left.
  - cbn [Tab.step]. destruct (existsb _ _); [by left|]. right.
    exists (length (calls t)). cbn. apply offer_listeners_effect.
  - cbn [Tab.step].
    pose proof (call_step_frame i ev t) as [_ Hs].
    destruct (call_step i ev t) as [t1 o]. cbn [fst] in Hs.
    destruct ev; try (left; cbn [fst]; by rewrite Hs).
    + destruct (stream_changed i t); cbn [fst].
      * right. exists i. unfold rerun_listener_effect. cbn [socket set_socket].
        by rewrite offer_listeners_effect, offer_listeners_cleanup.
      * left. by rewrite Hs.
    + destruct (is_mounted i t); cbn [fst].
      * left. cbn [socket set_socket]. apply offer_listeners_cleanup.
      * left. by rewrite Hs.
  - cbn [Tab.step].
    pose proof (call_step_frame i Render t) as [_ Hs].
    destruct (call_step i Render t) as [t1 o]. cbn [fst] in Hs.
    destruct (is_mounted i t); cbn [fst].
    + right. exists i. unfold rerun_listener_effect. cbn [socket set_socket].
      by rewrite offer_listeners_effect, offer_listeners_cleanup.
    + left. by rewrite Hs.
Qed.

Lemma calls_only_snoc ls i : calls_only ls → calls_only (ls ++ [OfCall i]).
Proof. intros [js ->]. exists (js ++ [i]). by rewrite map_app. Qed.

Lemma step_calls_only t ev :
  calls_only (listeners "webrtc_offer" (socket t)) →
  calls_only (listeners "webrtc_offer" (socket (fst (Tab.step t ev)))).
Proof.
  intros H. pose proof (step_offer_listeners t ev) as Hs. cbv zeta in Hs.
  destruct (cleans_up t ev).
  - destruct Hs as [->|[i ->]]; [by exists []|by exists [i]].
  - destruct Hs as [->|[i ->]]; [done|by apply calls_only_snoc].
Qed.

Lemma run_calls_only tr : ∀ t,
  calls_only (listeners "webrtc_offer" (socket t)) →
  calls_only (listeners "webrtc_offer" (socket (fst (Tab.run t tr)))).
Proof.
  induction tr as [|ev tr IH]; intros t H; [done|].
  rewrite tab_run_step. cbn [fst]. by apply IH, step_calls_only.
Qed.

Lemma disturbed_calls_only tr : ∀ t,
  undisturbed t tr = false →
  calls_only (listeners "webrtc_offer" (socket (fst (Tab.run t tr)))).
Proof.
  induction tr as [|ev tr IH]; intros t H; [done|].
  rewrite tab_run_step. cbn [fst]. cbn [undisturbed] in H.
  destruct (cleans_up t ev) eqn:Hc; cbn [negb andb] in H; [|by apply IH].
  apply run_calls_only.
  pose proof (step_offer_listeners t ev) as Hs. cbv zeta in Hs.
  rewrite Hc in Hs. destruct Hs as [->|[i ->]]; [by exists []|by exists [i]].
Qed.

Lemma undisturbed_page_first tr : ∀ t js,
  listeners "webrtc_offer" (socket t) = OfPage :: map OfCall js →
  undisturbed t tr = true →
  ∃ js', listeners "webrtc_offer" (socket (fst (Tab.run t tr))) =
         OfPage :: map OfCall js'.
Proof.
  induction tr as [|ev tr IH]; intros t js Hl H; [by exists js|].
  rewrite tab_run_step. cbn [fst]. cbn [undisturbed] in H.
  apply andb_true_iff in H as [Hc%negb_true_iff H].
  pose proof (step_offer_listeners t ev) as Hs. cbv zeta in Hs.
  rewrite Hc, Hl in Hs. destruct Hs as [Hs|[i Hs]].
  - by apply (IH _ js).
  - apply (IH _ (js ++ [i])); [|done]. by rewrite Hs, map_app.
Qed.

Lemma calls_only_no_page ls : calls_only ls → OfPage ∉ ls.
Proof.
  intros [js ->] Hin. apply list_elem_of_fmap in Hin as (j & [=] & _).
Qed.

Lemma init_offer_listeners :
  listeners "webrtc_offer" (socket Tab.init) = [OfPage].
Proof. by vm_compute. Qed.

End TabFacts.

(** ** Page, server and call component together *)

Module CallFlow.
Import Tab TabFacts Client ClientFacts.

(** X21. As long as no call component of the page has cleaned up its
    socket listeners, an offer sent by a call component, the first of a
    call or a renegotiation, raises the incoming-call prompt of the page
    it is delivered to. Rejecting the prompt sends [webrtc_call_ended]
    to the sender of the offer under the offer's chat id; the server
    forwards it to every connection of the sender; and the sender's call
    component, if mounted, ends its call. *)
Theorem rejecting_the_prompt_ends_the_senders_call (tr : list Tab.event)
    (pr : props) (offer : sdp) (srv : Server.state) (callee : socket_id)
    (cl : Client.state) :
  undisturbed Tab.init tr = true →
  mounted cl = true →
  let d := OfferData (friendId pr) (userId pr) (userName pr) offer
                     (callType pr) (chatId pr) in
  let ended := WebrtcCallEnded (EndedData (userId pr) (chatId pr)) in
  let t := fst (Tab.run Tab.init tr) in
  let r1 := Tab.step t (Deliver (WebrtcOffer d)) in
  let r2 := Tab.step (fst r1) ClickReject in
  offer_of pr offer = WebrtcOffer d ∧
  page (fst r1) = Page.on_webrtc_offer d (page t) ∧
  Page.incomingCall (page (fst r1)) =
    Some (Page.IncomingCall (userId pr) (userName pr) (callType pr)
                            (chatId pr)) ∧
  snd r2 = [ByPage ended] ∧
  Page.incomingCall (page (fst r2)) = None ∧
  Server.step srv (Server.ClientEmit callee ended) =
    (srv, map (λ s, Server.IoTo s ended) (Server.lookup srv (userId pr))) ∧
  Client.step pr cl (Recv ended) =
    handleEndCall pr (rendered_localStream cl) cl ∧
  callStatus (fst (Client.step pr cl (Recv ended))) = Ended.
Proof.
  intros Hu Hm d ended t r1 r2.
  destruct (undisturbed_page_first tr Tab.init [] init_offer_listeners Hu)
    as [js Hl].
  fold t in Hl.
  assert (Hp : page (fst r1) = Page.on_webrtc_offer d (page t)).
  { unfold r1. cbn [Tab.step event_name].
    destruct (deliver_frame (WebrtcOffer d)
                (listeners "webrtc_offer" (socket t)) (t, []))
      as (_ & _ & H).
    by rewrite (H js Hl). }
  split; [done|]. split; [done|]. split; [by rewrite Hp|].
  assert (Hr2 : r2 = (set_page (Page.set_incomingCall None (page (fst r1)))
                               (fst r1), [ByPage ended])).
  { unfold r2. cbn [Tab.step]. unfold Page.rejectCall. by rewrite Hp. }
  rewrite Hr2. split; [done|]. split; [done|]. split; [done|].
  assert (Hs : Client.step pr cl (Recv ended) =
               handleEndCall pr (rendered_localStream cl) cl).
  { cbn [Client.step on_socket]. rewrite Hm. simpl.
    by rewrite bool_decide_eq_true_2. }
  split; [done|]. rewrite Hs. unfold handleEndCall, cleanup.
  destruct (rendered_localStream cl) as [ls|]; simpl;
    by destruct (peerConnectionRef _).
Qed.

Lemma rejecting_the_prompt_ends_the_senders_call_witness :
  let pr := Props "alice" "Alice" "bob" "Bob" "chat" true Video in
  let cl := fst (Client.run pr (Client.init pr)
                   [Resume 0 Resolved; Render; Resume 0 (ResolvedSdp "o1");
                    Resume 0 Resolved]) in
  let bob := Props "bob" "Bob" "carol" "Carol" "chat2" true Audio in
  let tr := [Deliver (UserStatusChange "alice" Online); MountCall bob;
             CallEvent 0 (Resume 0 Rejected); CallEvent 0 Render] in
  let srv := Server.final [Server.UserJoin "a1" "alice" true;
                           Server.UserJoin "a2" "alice" true;
                           Server.UserJoin "b1" "bob" true] in
  let ended := WebrtcCallEnded (EndedData "alice" "chat") in
  let t := fst (Tab.run Tab.init tr) in
  let r1 := Tab.step t (Deliver (offer_of pr "o1")) in
  undisturbed Tab.init tr = true ∧
  snd (Tab.step (fst r1) ClickReject) = [ByPage ended] ∧
  snd (Server.step srv (Server.ClientEmit "b1" ended)) =
    [Server.IoTo "a1" ended; Server.IoTo "a2" ended] ∧
  callStatus (fst (Client.step pr cl (Recv ended))) = Ended.
Proof.
  intros pr cl bob tr srv ended t r1.
  destruct (rejecting_the_prompt_ends_the_senders_call tr pr "o1" srv "b1"
              cl eq_refl eq_refl) as (_ & _ & _ & H4 & _ & H6 & _ & H8).
  split; [reflexivity|]. split; [exact H4|]. split; [|exact H8].
  change ended with (WebrtcCallEnded (EndedData (userId pr) (chatId pr))).
  rewrite H6. reflexivity.
Defined.

(** X30. Once a call component of the page has been unmounted, the
    page has no [webrtc_offer] callback on its socket any more, whatever
    happens afterwards, later calls included: the clean-up of the
    component's listener effect calls [socket.off('webrtc_offer')] on
    the socket it shares with the page, which removes the page's
    callback with its own. An offer the socket receives from then on
    leaves the page as it is: no prompt is shown. *)
Theorem offers_go_unnoticed_after_a_call (before after : list Tab.event)
    (i : nat) (d : offer_data) :
  is_mounted i (fst (Tab.run Tab.init before)) = true →
  let t := fst (Tab.run Tab.init (before ++ CallEvent i Unmount :: after)) in
  (OfPage ∉ listeners "webrtc_offer" (socket t)) ∧
  page (fst (Tab.step t (Deliver (WebrtcOffer d)))) = page t.
Proof.
  intros Hm t.
  assert (Hc : calls_only (listeners "webrtc_offer" (socket t))).
  { apply disturbed_calls_only. rewrite undisturbed_app.
    cbn [undisturbed cleans_up]. rewrite Hm. cbn [negb andb].
    apply andb_false_r. }
  apply calls_only_no_page in Hc. split; [done|].
  cbn [Tab.step event_name].
  destruct (deliver_frame (WebrtcOffer d)
              (listeners "webrtc_offer" (socket t)) (t, [])) as (_ & H & _).
  by apply H.
Qed.

Lemma offers_go_unnoticed_after_a_call_witness :
  let bob := Props "bob" "Bob" "carol" "Carol" "chat2" true Audio in
  let before := [MountCall bob; CallEvent 0 (Resume 0 Resolved);
                 CallEvent 0 Render; CallEvent 0 ClickEndCall] in
  let after := [PageUpdate (Page.set_notifications ["Call ended"])] in
  let d := OfferData "bob" "alice" "Alice" "o1" Video "chat" in
  let t := fst (Tab.run Tab.init (before ++ CallEvent 0 Unmount :: after)) in
  listeners "webrtc_offer" (socket t) = [] ∧
  Page.incomingCall (page (fst (Tab.step t (Deliver (WebrtcOffer d))))) =
    None.
Proof.
  intros bob before after d t.
  destruct (offers_go_unnoticed_after_a_call before after 0 d eq_refl)
    as [_ H].
  split; [reflexivity|]. fold t in H. by rewrite H.
Defined.

(** X22. The initiator's offer reaches the server while the friend has no
    connection. The server answers [call_failed] "User is offline" on the
    caller's socket; the call component shows the reason and sets a timer
    of two seconds; when the timer fires the component sends
    [webrtc_call_ended] to the friend, stops the tracks of the stream its
    listener had, closes the connection, ends and calls [onEndCall]; the
    server drops that [webrtc_call_ended]. *)
Theorem offer_to_absent_friend_ends_the_call (pr : props) (offer : sdp)
    (srv : Server.state) (caller : socket_id) (cl : state) :
  mounted cl = true →
  Server.lookup srv (friendId pr) = [] →
  let reason := "User is offline" in
  let ended := WebrtcCallEnded (EndedData (friendId pr) (chatId pr)) in
  let r1 := step pr cl (Recv (CallFailed reason)) in
  let r2 := step pr (fst r1) (Resume (length (tasks cl)) Resolved) in
  Server.step srv (Server.ClientEmit caller (offer_of pr offer)) =
    (srv, [Server.SocketEmit caller (CallFailed reason)]) ∧
  error (fst r1) = Some reason ∧
  snd r1 = [SetTimeout 2000] ∧
  callStatus (fst r2) = Ended ∧
  snd r2 =
    Emit ended
    :: map TrackStop (match rendered_localStream cl with
                      | Some ls => stream_tracks cl ls
                      | None => []
                      end)
    ++ (if has_pc cl then [PcClose] else []) ++ [OnEndCall] ∧
  Server.step srv (Server.ClientEmit caller ended) = (srv, []).
Proof.
  intros Hm Hl reason ended r1 r2.
  split; [cbn; by rewrite Hl|].
  assert (Hr1 : r1 =
    (spawn (KCallFailedTimer (rendered_localStream cl)) (set_error reason cl),
     [SetTimeout 2000])).
  { unfold r1. cbn [step on_socket]. by rewrite Hm. }
  rewrite Hr1. cbn [fst snd]. split; [done|]. split; [done|].
  assert (Hr2 : r2 =
    let x := handleEndCall pr (rendered_localStream cl)
               (spawn (KCallFailedTimer (rendered_localStream cl))
                      (set_error reason cl)) in
    (set_tasks (<[length (tasks cl) := Finished]> (tasks (fst x))) (fst x),
     snd x)).
  { unfold r2. rewrite Hr1. cbn [fst].
    rewrite (step_resume pr _ (length (tasks cl))
               (KCallFailedTimer (rendered_localStream cl)) Resolved
               (handleEndCall pr (rendered_localStream cl)
                  (spawn (KCallFailedTimer (rendered_localStream cl))
                         (set_error reason cl)), Finished)).
    - done.
    - unfold spawn. simpl. apply lookup_snoc_length.
    - cbn [resume]. by destruct (handleEndCall _ _ _). }
  rewrite Hr2. cbv zeta. cbn [fst snd].
  unfold handleEndCall, cleanup, stop_tracks.
  unfold has_pc. split; [|split].
  - destruct (rendered_localStream cl) as [ls|]; simpl;
      by destruct (peerConnectionRef _).
  - destruct (rendered_localStream cl) as [ls|]; simpl;
      destruct (peerConnectionRef _); simpl;
      by rewrite <- ?app_assoc.
  - cbn. by rewrite Hl.
Qed.


Lemma offer_to_absent_friend_ends_the_call_witness :
  let pr := Props "alice" "Alice" "bob" "Bob" "chat" true Audio in
  let cl := fst (run pr (init pr)
                   [Resume 0 Resolved; Render; Resume 0 (ResolvedSdp "o1");
                    Resume 0 Resolved]) in
  let srv := Server.final [Server.UserJoin "a1" "alice" true] in
  let r1 := step pr cl (Recv (CallFailed "User is offline")) in
  let r2 := step pr (fst r1) (Resume 1 Resolved) in
  Server.step srv (Server.ClientEmit "a1" (offer_of pr "o1")) =
    (srv, [Server.SocketEmit "a1" (CallFailed "User is offline")]) ∧
  snd r2 = [Emit (WebrtcCallEnded (EndedData "bob" "chat"));
            TrackStop 0; PcClose; OnEndCall].
Proof.
  intros pr cl srv r1 r2.
  destruct (offer_to_absent_friend_ends_the_call pr "o1" srv "a1" cl
              eq_refl eq_refl) as (H1 & _ & _ & _ & H5 & _).
  exact (conj H1 H5).
Defined.

End CallFlow.

(** ** The friends routes *)

Module FriendsFacts.
Import Friends.

Lemma has_spec u l : has u l = true ↔ u ∈ l.
Proof.
  unfold has. rewrite existsb_exists. split.
  - intros (x & Hx%list_elem_of_In & ->%String.eqb_eq). done.
  - intros H. exists u. split; [by apply list_elem_of_In|apply String.eqb_refl].
Qed.

Lemma has_false u l : has u l = false ↔ u ∉ l.
Proof.
  rewrite <- has_spec. destruct (has u l); split; intros; congruence.
Qed.

Lemma elem_of_without x u l : x ∈ without u l ↔ x ∈ l ∧ x ≠ u.
Proof.
  unfold without. rewrite list_elem_of_In, filter_In, <- list_elem_of_In.
  rewrite negb_true_iff, String.eqb_neq. done.
Qed.

Lemma without_NoDup u l : NoDup l → NoDup (without u l).
Proof.
  induction 1 as [|x l Hx Hl IH]; simpl; [constructor|].
  destruct (negb (String.eqb x u)); [|done].
  constructor; [|done]. by intros [? _]%elem_of_without.
Qed.

Lemma without_shadowed_id l : without_shadowed l = l.
Proof.
  unfold without_shadowed. induction l as [|x l IH]; [done|].
  cbn [List.filter]. unfold strict_eq_buffer at 1. cbn [negb]. by f_equal.
Qed.

Lemma friends_of_alter f k d u :
  friends_of (alter f k d) u =
  if decide (u = k) then default [] (friends <$> (f <$> d !! k))
  else friends_of d u.
Proof.
  unfold friends_of. destruct (decide (u = k)) as [->|].
  - by rewrite lookup_alter_eq.
  - by rewrite lookup_alter_ne.
Qed.

Lemma sent_of_alter f k d u :
  sent_of (alter f k d) u =
  if decide (u = k) then default [] (sent <$> (f <$> d !! k))
  else sent_of d u.
Proof.
  unfold sent_of. destruct (decide (u = k)) as [->|].
  - by rewrite lookup_alter_eq.
  - by rewrite lookup_alter_ne.
Qed.

Lemma received_of_alter f k d u :
  received_of (alter f k d) u =
  if decide (u = k) then default [] (received <$> (f <$> d !! k))
  else received_of d u.
Proof.
  unfold received_of. destruct (decide (u = k)) as [->|].
  - by rewrite lookup_alter_eq.
  - by rewrite lookup_alter_ne.
Qed.

Lemma of_lookup d u doc :
  d !! u = Some doc →
  friends_of d u = friends doc ∧ sent_of d u = sent doc ∧
  received_of d u = received doc.
Proof. unfold friends_of, sent_of, received_of. by intros ->. Qed.

Section facts.

Variable ObjectId : string → option user_id.

Lemma findById_User d s id doc :
  findById ObjectId d s = User id doc →
  cast ObjectId d s = Some id ∧ d !! id = Some doc.
Proof.
  unfold findById. destruct (cast ObjectId d s) as [t|]; [|done].
  destruct (d !! t) as [doc'|] eqn:E; [|done]. by intros [= <- <-].
Qed.

(** A key of the store is found under itself. *)
Lemma findById_key d u doc :
  d !! u = Some doc → findById ObjectId d u = User u doc.
Proof. intros H. unfold findById, cast. by rewrite !H. Qed.

(** The lists of [u] after one or two documents were altered, given the
    documents that were there *)
Ltac of_alter :=
  unfold friends_of, sent_of, received_of, at_user, same;
  rewrite ?lookup_alter;
  repeat (case_decide; simplify_eq);
  repeat match goal with
         | H : ?d !! ?k = Some _ |- context [?d !! ?k] => rewrite H
         end;
  cbn; rewrite ?without_shadowed_id; try done.

Lemma request_cases me userId ok1 ok2 d r d' n :
  request ObjectId me userId ok1 ok2 d = (r, d', n) →
  (d' = d ∧ n = [] ∧ status r ≠ 200) ∨
  ∃ target,
    cast ObjectId d userId = Some target ∧ is_Some (d !! target) ∧
    is_Some (d !! me) ∧
    userId ≠ me ∧ (userId ∉ friends_of d me) ∧ (userId ∉ sent_of d me) ∧
    (userId ∉ received_of d me) ∧ ok1 = true ∧
    wrote d d' same
      (at_user me (λ l, l ++ [target]))
      (if ok2 then at_user target (λ l, l ++ [me]) else same) ∧
    (ok2 = true → status r = 200).
Proof.
  unfold request. intros H.
  case_bool_decide as Hself; [left; by simplify_eq|].
  destruct (findById ObjectId d userId) as [| |target targetUser] eqn:Hfind;
    [left; by simplify_eq|left; by simplify_eq|].
  apply findById_User in Hfind as [Hcast Ht].
  destruct (d !! me) as [currentUser|] eqn:Hc; [|left; by simplify_eq].
  destruct (of_lookup _ _ _ Hc) as (Hf & Hs & Hr).
  destruct (has userId (friends currentUser)) eqn:E1; [left; by simplify_eq|].
  destruct (has userId (sent currentUser)) eqn:E2; [left; by simplify_eq|].
  destruct (has userId (received currentUser)) eqn:E3;
    [left; by simplify_eq|].
  apply has_false in E1, E2, E3.
  destruct ok1; simpl in H; [|left; by simplify_eq].
  right. exists target. rewrite Hf, Hs, Hr, Ht. repeat (split; [by eauto|]).
  destruct ok2; simpl in H; simplify_eq; (split; [|done]);
    split; intros u; of_alter.
Qed.

Lemma accept_cases me userId ok1 ok2 d r d' n :
  accept ObjectId me userId ok1 ok2 d = (r, d', n) →
  (d' = d ∧ n = [] ∧ status r ≠ 200) ∨
  ∃ requester,
    cast ObjectId d userId = Some requester ∧ is_Some (d !! requester) ∧
    is_Some (d !! me) ∧
    userId ∈ received_of d me ∧ ok1 = true ∧
    wrote d d'
      (λ u l, (if ok2 then at_user requester (λ l, l ++ [me]) else same) u
                (at_user me (λ l, l ++ [requester]) u l))
      same
      (at_user me (without userId)).
Proof.
  unfold accept. intros H.
  destruct (findById ObjectId d userId) as [| |requester requesterUser]
    eqn:Hfind; [left; by simplify_eq|left; by simplify_eq|].
  apply findById_User in Hfind as [Hcast Ht].
  destruct (d !! me) as [currentUser|] eqn:Hc; [|left; by simplify_eq].
  destruct (of_lookup _ _ _ Hc) as (Hf & Hs & Hr).
  destruct (has userId (received currentUser)) eqn:E1; simpl in H;
    [|left; by simplify_eq].
  apply has_spec in E1.
  destruct ok1; simpl in H; [|left; by simplify_eq].
  right. exists requester. rewrite Hr, Ht. repeat (split; [by eauto|]).
  destruct ok2; simpl in H; simplify_eq;
    split; intros u; of_alter.
Qed.

Lemma decline_cases me userId ok1 ok2 d r d' n :
  decline ObjectId me userId ok1 ok2 d = (r, d', n) →
  (d' = d ∧ n = [] ∧ status r ≠ 200) ∨
  (ok1 = true ∧ wrote d d' same same (at_user me (without userId))).
Proof.
  unfold decline. intros H.
  destruct (findById ObjectId d userId) as [| |requester requesterUser]
    eqn:Hfind; [left; by simplify_eq|left; by simplify_eq|].
  apply findById_User in Hfind as [Hcast Ht].
  destruct (d !! me) as [currentUser|] eqn:Hc; [|left; by simplify_eq].
  destruct ok1; simpl in H; [|left; by simplify_eq].
  right. split; [done|].
  destruct ok2; simpl in H; simplify_eq;
    split; intros u; of_alter.
Qed.

Lemma remove_cases me userId ok1 ok2 d r d' n :
  remove ObjectId me userId ok1 ok2 d = (r, d', n) →
  (d' = d ∧ n = [] ∧ status r ≠ 200) ∨
  ∃ friend,
    cast ObjectId d userId = Some friend ∧ is_Some (d !! friend) ∧
    ok1 = true ∧
    wrote d d'
      (λ u l, if ok2 && bool_decide (u = friend) then without me l
              else if decide (u = me) then without userId l
              else l)
      same same.
Proof.
  unfold remove. intros H.
  destruct (findById ObjectId d userId) as [| |friend friendUser]
    eqn:Hfind; [left; by simplify_eq|left; by simplify_eq|].
  apply findById_User in Hfind as [Hcast Ht].
  destruct (d !! me) as [currentUser|] eqn:Hc; [|left; by simplify_eq].
  destruct ok1; simpl in H; [|left; by simplify_eq].
  right. exists friend. rewrite Ht. repeat (split; [by eauto|]).
  destruct ok2; simpl in H; simplify_eq;
    split; intros u; cbn [andb]; try case_bool_decide; of_alter.
Qed.

(** ** The users of the store *)

Lemma handle_users c d k :
  is_Some (snd (fst (handle ObjectId c d)) !! k) ↔ is_Some (d !! k).
Proof.
  destruct c as [me x o1 o2|me x o1 o2|me x o1 o2|me x o1 o2];
    cbn [handle]; unfold request, accept, decline, remove;
    repeat (case_match; try done); cbn [fst snd];
    by rewrite ?lookup_alter_is_Some.
Qed.

Lemma run_users cs : ∀ d k,
  is_Some (run ObjectId d cs !! k) ↔ is_Some (d !! k).
Proof.
  induction cs as [|c cs IH]; intros d k; [done|].
  cbn [run]. by rewrite IH, handle_users.
Qed.

Lemma as_printed_users d d' s :
  (∀ k, is_Some (d' !! k) ↔ is_Some (d !! k)) →
  as_printed ObjectId d' s = as_printed ObjectId d s.
Proof.
  intros H. unfold as_printed, findById, cast.
  assert (Hn : ∀ k, d' !! k = None ↔ d !! k = None).
  { intros k. rewrite !eq_None_not_Some. by rewrite H. }
  destruct (d !! s) as [x|] eqn:E.
  - destruct (proj2 (H s)) as [y Hy]; [by eauto|].
    rewrite Hy. cbn. by rewrite Hy, E.
  - apply Hn in E as ->.
    destruct (ObjectId s) as [t|]; [|done].
    destruct (d !! t) as [x|] eqn:E'.
    + destruct (proj2 (H t)) as [y Hy]; [by eauto|]. by rewrite Hy.
    + by apply Hn in E' as ->.
Qed.

Lemma as_printed_cast d s t :
  as_printed ObjectId d s = true →
  cast ObjectId d s = Some t → is_Some (d !! t) → t = s.
Proof.
  unfold as_printed, findById. intros H Hc [doc Hd]. rewrite Hc, Hd in H.
  by apply bool_decide_eq_true in H.
Qed.

(** ** Requests once sent *)

Lemma handle_sent c d u v :
  v ∈ sent_of d u → v ∈ sent_of (snd (fst (handle ObjectId c d))) u.
Proof.
  intros Hin.
  destruct (handle ObjectId c d) as [[r d'] n] eqn:H. cbn [fst snd].
  destruct c as [me x o1 o2|me x o1 o2|me x o1 o2|me x o1 o2];
    cbn [handle] in H.
  - apply request_cases in H as [(-> & _)|(t & H)]; [done|].
    destruct H as (_ & _ & _ & _ & _ & _ & _ & _ & [_ Hs _] & _).
    rewrite Hs. unfold at_user. case_decide; [|done].
    subst. apply elem_of_app. by left.
  - apply accept_cases in H as [(-> & _)|(t & H)]; [done|].
    destruct H as (_ & _ & _ & _ & _ & [_ Hs _]). by rewrite Hs.
  - apply decline_cases in H as [(-> & _)|(_ & [_ Hs _])]; [done|].
    by rewrite Hs.
  - apply remove_cases in H as [(-> & _)|(t & H)]; [done|].
    destruct H as (_ & _ & _ & [_ Hs _]). by rewrite Hs.
Qed.

Lemma run_sent cs : ∀ d u v,
  v ∈ sent_of d u → v ∈ sent_of (run ObjectId d cs) u.
Proof.
  induction cs as [|c cs IH]; intros d u v Hin; [done|].
  cbn [run]. by apply IH, handle_sent.
Qed.

Lemma request_refused u v ok1 ok2 d :
  v ∈ sent_of d u →
  ∃ r, request ObjectId u v ok1 ok2 d = (r, d, []) ∧ status r ≠ 200.
Proof.
  intros Hin. unfold request.
  case_bool_decide; [by eexists|].
  destruct (findById ObjectId d v) as [| |target targetUser];
    [by eexists|by eexists|].
  unfold sent_of in Hin.
  destruct (d !! u) as [currentUser|]; [|by eexists]. simpl in Hin.
  destruct (has v (friends currentUser)); [by eexists|].
  apply has_spec in Hin. rewrite Hin. by eexists.
Qed.

(** X23. Once [v] is in the sent requests of [u], it stays there
    whatever requests are served afterwards, accepted, declined or
    unfriended, however they spell the ids they name and whichever saves
    fail: the filter meant to remove it compares each entry with itself
    and keeps them all. From then on every [POST /request] of [u] that
    names [v] as its id prints is refused and changes nothing. *)
Theorem a_sent_request_is_kept (d : db) (cs : list call) (u v : user_id) :
  v ∈ sent_of d u →
  let d' := run ObjectId d cs in
  v ∈ sent_of d' u ∧
  ∀ ok1 ok2, ∃ r,
    request ObjectId u v ok1 ok2 d' = (r, d', []) ∧ status r ≠ 200.
Proof.
  intros Hin d'.
  assert (Hin' : v ∈ sent_of d' u) by by apply run_sent.
  split; [done|]. intros ok1 ok2.
  apply (request_refused u v ok1 ok2 d' Hin').
Qed.

(** ** Pending requests *)

Lemma handle_backed c d :
  backed d → backed (snd (fst (handle ObjectId c d))).
Proof.
  intros Hb u v.
  destruct (handle ObjectId c d) as [[r d'] n] eqn:H. cbn [fst snd].
  destruct c as [me x o1 o2|me x o1 o2|me x o1 o2|me x o1 o2];
    cbn [handle] in H.
  - apply request_cases in H as [(-> & _)|(t & H)]; [apply Hb|].
    destruct H as (_ & _ & _ & _ & _ & _ & _ & _ & [_ Hs Hr] & _).
    rewrite Hs, Hr. unfold at_user, same. intros Hin. destruct o2.
    + unfold at_user in Hin.
      destruct (decide (u = t)) as [->|];
        [apply elem_of_app in Hin as [Hin| ->%list_elem_of_singleton]|].
      * case_decide; [apply elem_of_app; left|]; by apply Hb.
      * rewrite decide_True by done. apply elem_of_app. right. left.
      * case_decide; [apply elem_of_app; left|]; by apply Hb.
    + case_decide; [apply elem_of_app; left|]; by apply Hb.
  - apply accept_cases in H as [(-> & _)|(t & H)]; [apply Hb|].
    destruct H as (_ & _ & _ & _ & _ & [_ Hs Hr]).
    rewrite Hs, Hr. unfold at_user, same.
    case_decide; [|apply Hb]. intros [? _]%elem_of_without. by apply Hb.
  - apply decline_cases in H as [(-> & _)|(_ & [_ Hs Hr])];
      [apply Hb|]. rewrite Hs, Hr. unfold at_user, same.
    case_decide; [|apply Hb]. intros [? _]%elem_of_without. by apply Hb.
  - apply remove_cases in H as [(-> & _)|(t & H)]; [apply Hb|].
    destruct H as (_ & _ & _ & [_ Hs Hr]). rewrite Hs, Hr. apply Hb.
Qed.

Lemma run_backed cs : ∀ d, backed d → backed (run ObjectId d cs).
Proof.
  induction cs as [|c cs IH]; intros d Hb; [done|].
  cbn [run]. by apply IH, handle_backed.
Qed.

Lemma fresh_spec d u :
  fresh d = true →
  friends_of d u = [] ∧ sent_of d u = [] ∧ received_of d u = [].
Proof.
  intros H. unfold friends_of, sent_of, received_of.
  destruct (d !! u) as [doc|] eqn:E; [|done]. simpl.
  unfold fresh in H. rewrite forallb_forall in H.
  specialize (H (u, doc)). simpl in H.
  assert (Hin : In (u, doc) (map_to_list d))
    by by apply list_elem_of_In, elem_of_map_to_list.
  specialize (H Hin).
  by destruct (friends doc), (sent doc), (received doc).
Qed.

(** X24. Starting from users without friends or requests, after any
    requests, however they spell the ids they name and whichever saves
    failed: a request that [u] sees as received from [v] is in the sent
    requests of [v]. *)
Theorem pending_requests_are_backed (d : db) (cs : list call)
    (u v : user_id) :
  fresh d = true →
  let d' := run ObjectId d cs in
  v ∈ received_of d' u →
  u ∈ sent_of d' v.
Proof.
  intros Hf d'. apply (run_backed cs d).
  intros u' v' Hin. destruct (fresh_spec d u' Hf) as (_ & _ & Hr).
  rewrite Hr in Hin. by apply not_elem_of_nil in Hin.
Qed.

(** ** Friendship *)

Lemma friendly_fresh d : fresh d = true → friendly d.
Proof.
  intros Hf. split.
  - intros u v. destruct (fresh_spec d u Hf) as (-> & _).
    by intros ?%not_elem_of_nil.
  - intros u. destruct (fresh_spec d u Hf) as (-> & _).
    apply not_elem_of_nil.
  - intros u. destruct (fresh_spec d u Hf) as (-> & _). constructor.
  - intros u v. destruct (fresh_spec d u Hf) as (_ & _ & ->).
    by intros ?%not_elem_of_nil.
  - intros u v. destruct (fresh_spec d u Hf) as (_ & _ & ->).
    by intros ?%not_elem_of_nil.
Qed.

Lemma request_friendly me x d r d' n :
  as_printed ObjectId d x = true →
  request ObjectId me x true true d = (r, d', n) →
  friendly d → friendly d'.
Proof.
  intros Hp H [Hm Hns Ho Hpn Hpo].
  apply request_cases in H as [(-> & _)|(t & H)]; [by split|].
  destruct H as (Hc & Ht & _ & Hne & Hnf & Hnsent & Hnr & _ & [Hf Hs Hr] & _).
  apply (as_printed_cast _ _ _ Hp) in Hc as ->; [|done].
  unfold same, at_user in *. split.
  - intros u v. rewrite !Hf. apply Hm.
  - intros u. rewrite Hf. apply Hns.
  - intros u. rewrite Hf. apply Ho.
  - intros u v. rewrite Hf, Hr. case_decide; [subst|apply Hpn].
    intros [Hin| ->%list_elem_of_singleton]%elem_of_app; [by apply Hpn|].
    intros Hin. by apply Hnf, Hm.
  - intros u v. rewrite !Hr.
    destruct (decide (u = x)) as [->|E1], (decide (v = x)) as [->|E2].
    + intros [Hin| ->%list_elem_of_singleton]%elem_of_app; [|done].
      exfalso. by apply (Hpo x x Hin).
    + intros [Hin| ->%list_elem_of_singleton]%elem_of_app; [by apply Hpo|done].
    + intros Hin [Hin'| ->%list_elem_of_singleton]%elem_of_app;
        [by eapply Hpo|done].
    + apply Hpo.
Qed.

Lemma accept_friendly me x d r d' n :
  as_printed ObjectId d x = true →
  accept ObjectId me x true true d = (r, d', n) →
  friendly d → friendly d'.
Proof.
  intros Hp H [Hm Hns Ho Hpn Hpo].
  apply accept_cases in H as [(-> & _)|(t & H)]; [by split|].
  destruct H as (Hc & Ht & _ & Hin & _ & [Hf0 Hs Hr]).
  apply (as_printed_cast _ _ _ Hp) in Hc as ->; [|done].
  assert (Hne : x ≠ me) by (intros ->; by apply (Hpo me me Hin)).
  assert (Hf : ∀ u, friends_of d' u =
                    if decide (u = me) then friends_of d u ++ [x]
                    else if decide (u = x) then friends_of d u ++ [me]
                    else friends_of d u).
  { intros u. rewrite Hf0. unfold at_user. by repeat case_decide; simplify_eq. }
  clear Hf0. unfold same, at_user in *.
  assert (Hxm : x ∉ friends_of d me) by by apply Hpn.
  assert (Hmx : me ∉ friends_of d x) by (intros ?; by apply Hxm, Hm).
  assert (Hmr : me ∉ received_of d x) by by apply Hpo.
  split.
  - intros u v. rewrite !Hf.
    destruct (decide (u = me)) as [->|E1].
    + intros [Hv| ->%list_elem_of_singleton]%elem_of_app.
      * assert (v ≠ me) by (intros ->; by eapply Hns).
        rewrite decide_False by done.
        case_decide; [subst; done|]. by apply Hm.
      * rewrite decide_False by done. rewrite decide_True by done.
        apply elem_of_app. right. left.
    + destruct (decide (u = x)) as [->|E2].
      * intros [Hv| ->%list_elem_of_singleton]%elem_of_app.
        -- assert (v ≠ x) by (intros ->; by eapply Hns).
           case_decide; [subst; by apply Hm in Hv|].
           rewrite decide_False by done. by apply Hm.
        -- rewrite decide_True by done. apply elem_of_app. right. left.
      * intros Hv. case_decide; [subst; apply elem_of_app; left; by apply Hm|].
        case_decide; [subst; apply elem_of_app; left; by apply Hm|].
        by apply Hm.
  - intros u. rewrite Hf. repeat case_decide; subst;
      rewrite ?elem_of_app, ?list_elem_of_singleton;
      try (intros [?|?]; [by eapply Hns|done]). apply Hns.
  - intros u. rewrite Hf. repeat case_decide; subst; try apply Ho;
      (apply NoDup_app; split; [apply Ho|]; split;
       [by intros ? ? ->%list_elem_of_singleton|apply NoDup_singleton]).
  - intros u v. rewrite Hf, Hr.
    destruct (decide (u = me)) as [->|E1].
    + intros [Hv Hvx]%elem_of_without
             [Hv'| ->%list_elem_of_singleton]%elem_of_app; [|done].
      by eapply Hpn.
    + case_decide; [subst|apply Hpn].
      intros Hv [Hv'| ->%list_elem_of_singleton]%elem_of_app; [|done].
      by eapply Hpn.
  - intros u v. rewrite !Hr.
    assert (Hsub : ∀ w y, y ∈ (if decide (w = me)
                              then without x (received_of d w)
                              else received_of d w) → y ∈ received_of d w).
    { intros w y. case_decide; [|done]. by intros [? _]%elem_of_without. }
    intros Hv%Hsub Hu%Hsub. by eapply Hpo.
Qed.

Lemma decline_friendly me x o1 o2 d r d' n :
  decline ObjectId me x o1 o2 d = (r, d', n) → friendly d → friendly d'.
Proof.
  intros H [Hm Hns Ho Hpn Hpo].
  apply decline_cases in H as [(-> & _)|H]; [by split|].
  destruct H as (_ & [Hf Hs Hr]).
  unfold same, at_user in *.
  assert (Hsub : ∀ w y, y ∈ (if decide (w = me)
                            then without x (received_of d w)
                            else received_of d w) → y ∈ received_of d w).
  { intros w y. case_decide; [|done]. by intros [? _]%elem_of_without. }
  split.
  - intros u v. rewrite !Hf. apply Hm.
  - intros u. rewrite Hf. apply Hns.
  - intros u. rewrite Hf. apply Ho.
  - intros u v. rewrite Hf, Hr. intros Hv%Hsub. by apply Hpn.
  - intros u v. rewrite !Hr. intros Hv%Hsub Hu%Hsub. by eapply Hpo.
Qed.

Lemma remove_friendly me x d r d' n :
  as_printed ObjectId d x = true →
  remove ObjectId me x true true d = (r, d', n) →
  friendly d → friendly d'.
Proof.
  intros Hp H [Hm Hns Ho Hpn Hpo].
  apply remove_cases in H as [(-> & _)|(t & H)]; [by split|].
  destruct H as (Hc & Ht & _ & [Hf0 Hs Hr]).
  apply (as_printed_cast _ _ _ Hp) in Hc as ->; [|done].
  assert (Hf : ∀ u, friends_of d' u =
                    if decide (u = me) then without x (friends_of d u)
                    else if decide (u = x) then without me (friends_of d u)
                    else friends_of d u).
  { intros u. rewrite Hf0. cbn [andb].
    case_bool_decide; repeat case_decide; by simplify_eq. }
  clear Hf0. unfold same, at_user in *.
  assert (Hsub : ∀ w y, y ∈ friends_of d' w → y ∈ friends_of d w).
  { intros w y. rewrite Hf. repeat case_decide; try done;
      by intros [? _]%elem_of_without. }
  split.
  - intros u v. rewrite !Hf.
    destruct (decide (u = me)) as [->|E1].
    + intros [Hv Hvx]%elem_of_without.
      assert (v ≠ me) by (intros ->; by eapply Hns).
      rewrite decide_False by done. rewrite decide_False by done.
      by apply Hm.
    + destruct (decide (u = x)) as [->|E2].
      * intros [Hv Hvx]%elem_of_without.
        rewrite decide_False by done.
        assert (v ≠ x) by (intros ->; by eapply Hns).
        rewrite decide_False by done. by apply Hm.
      * intros Hv. repeat case_decide; subst;
          rewrite ?elem_of_without; try split; try done; by apply Hm.
  - intros u Hu. by apply Hsub, Hns in Hu.
  - intros u. rewrite Hf. repeat case_decide; try apply without_NoDup;
      apply Ho.
  - intros u v. rewrite Hr. intros Hv Hv'%Hsub. by eapply Hpn.
  - intros u v. rewrite !Hr. apply Hpo.
Qed.

Lemma run_friendly cs : ∀ d0 d,
  (∀ k, is_Some (d !! k) ↔ is_Some (d0 !! k)) →
  forallb saves_succeed cs = true →
  forallb (λ c, as_printed ObjectId d0 (names c)) cs = true →
  friendly d → friendly (run ObjectId d cs).
Proof.
  induction cs as [|c cs IH]; intros d0 d Hu Hok Hp Hfr; [done|].
  cbn [run]. cbn [forallb] in Hok, Hp.
  apply andb_true_iff in Hok as [Hc Hok].
  apply andb_true_iff in Hp as [Hpc Hp].
  rewrite <- (as_printed_users d0 d) in Hpc by done.
  apply (IH d0); [|done|done|].
  - intros k. by rewrite handle_users.
  - destruct (handle ObjectId c d) as [[r d1] n] eqn:E. cbn [fst snd].
    destruct c as [me x o1 o2|me x o1 o2|me x o1 o2|me x o1 o2];
      cbn [saves_succeed names handle] in Hc, Hpc, E;
      apply andb_true_iff in Hc as [-> ->].
    + by eapply request_friendly.
    + by eapply accept_friendly.
    + by eapply decline_friendly.
    + by eapply remove_friendly.
Qed.

(** X25. Starting from users without friends or requests, after any
    requests whose saves succeeded and that name users by their ids as
    printed: friendship is mutual, nobody is their own friend, nobody is
    listed twice as a friend, and nobody has a pending request from a
    friend. *)
Theorem friendship_is_mutual (d : db) (cs : list call) :
  fresh d = true →
  forallb saves_succeed cs = true →
  forallb (λ c, as_printed ObjectId d (names c)) cs = true →
  let d' := run ObjectId d cs in
  ∀ u v,
    (v ∈ friends_of d' u ↔ u ∈ friends_of d' v) ∧
    (u ∉ friends_of d' u) ∧
    NoDup (friends_of d' u) ∧
    (v ∈ received_of d' u → v ∉ friends_of d' u).
Proof.
  intros Hf Hok Hp d' u v.
  destruct (run_friendly cs d d (λ k, reflexivity _) Hok Hp
              (friendly_fresh d Hf)) as [Hm Hns Ho Hpn _].
  split; [split; apply Hm|]. split; [apply Hns|]. split; [apply Ho|].
  apply Hpn.
Qed.

(** X26. [u] asks [v], who is no friend and has no request of or for
    [u]; [v] accepts. Both requests succeed with their notifications, each
    is appended to the other's friends, the request is gone from what [v]
    received, and it is still in what [u] sent. *)
Theorem request_then_accept (d : db) (u v : user_id) (du dv : user_doc) :
  u ≠ v →
  d !! u = Some du →
  d !! v = Some dv →
  has v (friends du) = false →
  has v (sent du) = false →
  has v (received du) = false →
  ∃ d1 d2,
    request ObjectId u v true true d =
      (Response 200 "Friend request sent successfully", d1,
       [FriendRequestReceived v u (username du) (displayName du)]) ∧
    accept ObjectId v u true true d1 =
      (Response 200 "Friend request accepted", d2,
       [FriendRequestAccepted u v (username dv) (displayName dv);
        NewFriend v u (username du) (displayName du)]) ∧
    friends_of d2 u = friends du ++ [v] ∧
    friends_of d2 v = friends dv ++ [u] ∧
    received_of d2 v = without u (received dv) ∧
    sent_of d2 u = sent du ++ [v].
Proof.
  intros Hne Hu Hv Hf Hs Hr.
  assert (Hreq : request ObjectId u v true true d =
    (Response 200 "Friend request sent successfully",
     alter (push_received u) v (alter (push_sent v) u d),
     [FriendRequestReceived v u (username du) (displayName du)])).
  { unfold request. rewrite bool_decide_eq_false_2 by congruence.
    by rewrite (findById_key d v dv Hv), Hu, Hf, Hs, Hr. }
  set (d1 := alter _ v _) in Hreq.
  assert (H1v : d1 !! v = Some (push_received u dv)).
  { unfold d1. rewrite lookup_alter_eq, lookup_alter_ne by done.
    by rewrite Hv. }
  assert (H1u : d1 !! u = Some (push_sent v du)).
  { unfold d1. rewrite lookup_alter_ne, lookup_alter_eq by congruence.
    by rewrite Hu. }
  assert (Hin : has u (received dv ++ [u]) = true).
  { apply has_spec, elem_of_app. right. left. }
  assert (Hwo : without u (received dv ++ [u]) = without u (received dv)).
  { unfold without. rewrite List.filter_app. simpl.
    rewrite String.eqb_refl. simpl. apply app_nil_r. }
  eexists d1, _. split; [exact Hreq|]. split.
  - unfold accept. rewrite (findById_key d1 u _ H1u), H1v. simpl.
    rewrite Hin. simpl. reflexivity.
  - unfold friends_of, received_of, sent_of. rewrite !lookup_alter.
    repeat case_decide; try congruence.
    rewrite H1u, H1v. simpl. by rewrite Hwo, without_shadowed_id.
Qed.

(** X29. The routes compare ids as they are spelled and look users up
    by the id a spelling is cast to. A user who names their own id in
    another spelling gets past the check against befriending oneself:
    the request is accepted and the user is in their own sent and
    received requests. Accepting it, under the id as printed, makes the
    user their own friend, listed twice when the second save goes
    through and once when it fails. *)
Theorem own_friend_by_another_spelling (d : db) (u : user_id)
    (du : user_doc) (s : string) (ok : bool) :
  d !! u = Some du →
  d !! s = None →
  ObjectId s = Some u →
  has s (friends du) = false →
  has s (sent du) = false →
  has s (received du) = false →
  ∃ d1 d2 r,
    request ObjectId u s true true d =
      (Response 200 "Friend request sent successfully", d1,
       [FriendRequestReceived s u (username du) (displayName du)]) ∧
    sent_of d1 u = sent du ++ [u] ∧
    received_of d1 u = received du ++ [u] ∧
    accept ObjectId u u true ok d1 =
      (r, d2, if ok then [FriendRequestAccepted u u (username du)
                                                 (displayName du);
                          NewFriend u u (username du) (displayName du)]
              else []) ∧
    status r = (if ok then 200 else 500) ∧
    friends_of d2 u = friends du ++ (if ok then [u; u] else [u]).
Proof.
  intros Hu Hs Hcast Hf Hse Hr.
  assert (Hne : s ≠ u) by (intros ->; congruence).
  assert (Hfind : findById ObjectId d s = User u du).
  { unfold findById, cast. by rewrite Hs, Hcast, Hu. }
  assert (Hreq : request ObjectId u s true true d =
    (Response 200 "Friend request sent successfully",
     alter (push_received u) u (alter (push_sent u) u d),
     [FriendRequestReceived s u (username du) (displayName du)])).
  { unfold request. rewrite bool_decide_eq_false_2 by done.
    by rewrite Hfind, Hu, Hf, Hse, Hr. }
  set (d1 := alter _ u _) in Hreq.
  assert (H1 : d1 !! u = Some (push_received u (push_sent u du))).
  { unfold d1. rewrite !lookup_alter_eq. by rewrite Hu. }
  assert (Hin : has u (received du ++ [u]) = true).
  { apply has_spec, elem_of_app. right. left. }
  exists d1. destruct ok.
  - eexists _, _. split; [exact Hreq|].
    split; [unfold sent_of; by rewrite H1|].
    split; [unfold received_of; by rewrite H1|].
    split; [unfold accept; rewrite (findById_key d1 u _ H1), H1; simpl;
            rewrite Hin; simpl; reflexivity|].
    split; [done|].
    unfold friends_of. rewrite !lookup_alter_eq, H1. simpl.
    by rewrite <- app_assoc.
  - eexists _, _. split; [exact Hreq|].
    split; [unfold sent_of; by rewrite H1|].
    split; [unfold received_of; by rewrite H1|].
    split; [unfold accept; rewrite (findById_key d1 u _ H1), H1; simpl;
            rewrite Hin; simpl; reflexivity|].
    split; [done|].
    unfold friends_of. by rewrite !lookup_alter_eq, H1.
Qed.

End facts.

(** The refusal is by spelling: the same request with the id of [v] in
    another spelling is taken, and [v] is listed a second time. *)
Example a_request_in_another_spelling :
  let a := "64b7f0a1c2d3e4f5a6b7c8d9" in
  let b := "64b7f0a1c2d3e4f5a6b7c8da" in
  let d : db := {[ a := UserDoc "alice" "Alice" [] [] [];
                   b := UserDoc "bob" "Bob" [] [] [] ]} in
  let d' := run hex_id d [Request a b true true;
                          Request a "64B7F0A1C2D3E4F5A6B7C8DA" true true] in
  sent_of d' a = [b; b] ∧ received_of d' b = [a; a].
Proof. by vm_compute. Qed.

Lemma a_sent_request_is_kept_witness :
  let a := "64b7f0a1c2d3e4f5a6b7c8d9" in
  let b := "64b7f0a1c2d3e4f5a6b7c8da" in
  let d0 : db := {[ a := UserDoc "alice" "Alice" [] [] [];
                    b := UserDoc "bob" "Bob" [] [] [] ]} in
  let d := snd (fst (request hex_id a b true true d0)) in
  let cs := [Accept b a true true; Remove a b true true;
             Decline b "64B7F0A1C2D3E4F5A6B7C8D9" true true;
             Decline a a true true] in
  let d' := run hex_id d cs in
  b ∈ sent_of d' a ∧
  ∃ r, request hex_id a b true true d' = (r, d', []) ∧ status r ≠ 200.
Proof.
  intros a b d0 d cs d'.
  destruct (a_sent_request_is_kept hex_id d cs a b) as [H1 H2].
  - vm_compute. left.
  - split; [exact H1|]. exact (H2 true true).
Defined.

Lemma pending_requests_are_backed_witness :
  let a := "64b7f0a1c2d3e4f5a6b7c8d9" in
  let b := "64b7f0a1c2d3e4f5a6b7c8da" in
  let c := "64b7f0a1c2d3e4f5a6b7c8db" in
  let d : db := {[ a := UserDoc "alice" "Alice" [] [] [];
                   b := UserDoc "bob" "Bob" [] [] [];
                   c := UserDoc "carol" "Carol" [] [] [] ]} in
  let cs := [Request a b true true; Request c b true false;
             Request c "64B7F0A1C2D3E4F5A6B7C8D9" true true;
             Request c "64B7F0A1C2D3E4F5A6B7C8DB" true true;
             Accept b a true false; Remove c c true true] in
  let d' := run hex_id d cs in
  received_of d' a = [c] ∧ received_of d' c = [c] ∧ a ∈ sent_of d' c.
Proof.
  intros a b c d cs d'.
  split; [reflexivity|]. split; [reflexivity|].
  apply (pending_requests_are_backed hex_id d cs a c).
  - reflexivity.
  - vm_compute. left.
Defined.

Lemma friendship_is_mutual_witness :
  let a := "64b7f0a1c2d3e4f5a6b7c8d9" in
  let b := "64b7f0a1c2d3e4f5a6b7c8da" in
  let c := "64b7f0a1c2d3e4f5a6b7c8db" in
  let d : db := {[ a := UserDoc "alice" "Alice" [] [] [];
                   b := UserDoc "bob" "Bob" [] [] [];
                   c := UserDoc "carol" "Carol" [] [] [] ]} in
  let cs := [Request a b true true; Request c b true true;
             Accept b a true true; Accept b c true true;
             Decline a a true true; Remove b b true true;
             Request a "64b7f0a1c2d3e4f5a6b7c8dc" true true;
             Remove c b true true] in
  let d' := run hex_id d cs in
  friends_of d' b = [a] ∧
  ("64b7f0a1c2d3e4f5a6b7c8da" ∈ friends_of d' a ↔ a ∈ friends_of d' b) ∧
  NoDup (friends_of d' a).
Proof.
  intros a b c d cs d'. split; [reflexivity|].
  destruct (friendship_is_mutual hex_id d cs) with (u := a) (v := b)
    as (H1 & _ & H3 & _).
  - reflexivity.
  - reflexivity.
  - reflexivity.
  - exact (conj H1 H3).
Defined.

(** Naming a friend in another spelling when removing them takes the
    caller out of the friend's list and leaves the friend in the
    caller's. *)
Example unfriended_on_one_side :
  let a := "64b7f0a1c2d3e4f5a6b7c8d9" in
  let b := "64b7f0a1c2d3e4f5a6b7c8da" in
  let d : db := {[ a := UserDoc "alice" "Alice" [] [] [];
                   b := UserDoc "bob" "Bob" [] [] [] ]} in
  let cs := [Request a b true true; Accept b a true true;
             Remove a "64B7F0A1C2D3E4F5A6B7C8DA" true true] in
  let d' := run hex_id d cs in
  forallb saves_succeed cs = true ∧
  friends_of d' a = [b] ∧ friends_of d' b = [].
Proof. by vm_compute. Qed.

Lemma request_then_accept_witness :
  let a := "64b7f0a1c2d3e4f5a6b7c8d9" in
  let b := "64b7f0a1c2d3e4f5a6b7c8da" in
  let c := "64b7f0a1c2d3e4f5a6b7c8db" in
  let d : db := {[ a := UserDoc "alice" "Alice" [] [] [];
                   b := UserDoc "bob" "Bob" [c] [] [c] ]} in
  let d2 := run hex_id d [Request a b true true; Accept b a true true] in
  friends_of d2 a = [b] ∧ friends_of d2 b = [c; a] ∧
  received_of d2 b = [c] ∧ sent_of d2 a = [b].
Proof.
  intros a b c d d2.
  destruct (request_then_accept hex_id d a b
              (UserDoc "alice" "Alice" [] [] [])
              (UserDoc "bob" "Bob" [c] [] [c]))
    as (d1 & d2' & H1 & H2 & H3 & H4 & H5 & H6);
    [done|reflexivity|reflexivity|reflexivity|reflexivity|reflexivity|].
  assert (Hd : d2 = d2').
  { unfold d2. cbn [run handle]. rewrite H1. cbn [fst snd]. by rewrite H2. }
  rewrite Hd. exact (conj H3 (conj H4 (conj H5 H6))).
Defined.

Lemma own_friend_by_another_spelling_witness :
  let a := "64b7f0a1c2d3e4f5a6b7c8d9" in
  let d : db := {[ a := UserDoc "alice" "Alice" [] [] [] ]} in
  let d2 := run hex_id d [Request a "64B7F0A1C2D3E4F5A6B7C8D9" true true;
                          Accept a a true true] in
  friends_of d2 a = [a; a].
Proof.
  intros a d d2.
  destruct (own_friend_by_another_spelling hex_id d a
              (UserDoc "alice" "Alice" [] [] [])
              "64B7F0A1C2D3E4F5A6B7C8D9" true)
    as (d1 & d2' & r & H1 & _ & _ & H4 & _ & H6);
    [reflexivity|reflexivity|reflexivity|reflexivity|reflexivity|
     reflexivity|].
  assert (Hd : d2 = d2').
  { unfold d2. cbn [run handle]. rewrite H1. cbn [fst snd]. by rewrite H4. }
  rewrite Hd. exact H6.
Defined.

End FriendsFacts.

(** ** Opening a chat *)

Module ChatsFacts.
Import Friends FriendsFacts Chats.

Lemma find_some_spec {A} (q : A → bool) (l : list A) (x : A) :
  List.find q l = Some x → x ∈ l ∧ q x = true.
Proof.
  intros H. apply find_some in H as [H1 H2]. by apply list_elem_of_In in H1.
Qed.

Lemma find_none_spec {A} (q : A → bool) (l : list A) (x : A) :
  List.find q l = None → x ∈ l → q x = false.
Proof.
  intros H Hin. apply list_elem_of_In in Hin. by eapply find_none in H.
Qed.

Lemma direct_between_sym a b c :
  direct_between b a c = direct_between a b c.
Proof. unfold direct_between. by rewrite (andb_comm (bool_decide (b ∈ _))). Qed.

Lemma findOne_sym a b cs :
  findOne (direct_between b a) cs = findOne (direct_between a b) cs.
Proof.
  unfold findOne. induction cs as [|c cs IH]; simpl; [done|].
  by rewrite direct_between_sym, IH.
Qed.

Lemma findOne_snoc (q : chat → bool) (cs : list chat) (c : chat) :
  findOne q cs = None → q c = true → findOne q (cs ++ [c]) = Some c.
Proof.
  unfold findOne. induction cs as [|x l IH]; simpl; intros Hn Hq;
    [by rewrite Hq|].
  destruct (q x); [done|]. by apply IH.
Qed.

Lemma fresh_id_above (cs : list chat) (c : chat) :
  c ∈ cs → chat_id c < fresh_id cs.
Proof.
  unfold fresh_id. induction cs as [|x l IH]; intros Hin;
    [by apply not_elem_of_nil in Hin|].
  simpl. apply elem_of_cons in Hin as [->|Hin]; [lia|].
  specialize (IH Hin). lia.
Qed.

Lemma same_pair_new (me other : user_id) (n : nat) (c : chat) :
  same_pair c (Chat n [me; other] false) →
  direct_between me other c = true.
Proof.
  intros (a & b & Hab & H1 & H2). unfold direct_between in H2. simpl in H2.
  apply andb_true_iff in H2 as [H2 _].
  apply andb_true_iff in H2 as [Ha%bool_decide_eq_true Hb%bool_decide_eq_true].
  apply elem_of_cons in Ha as [->|Ha%list_elem_of_singleton];
    apply elem_of_cons in Hb as [->|Hb%list_elem_of_singleton]; subst;
    try done.
  by rewrite direct_between_sym.
Qed.

Lemma same_pair_sym c1 c2 : same_pair c1 c2 → same_pair c2 c1.
Proof. intros (a & b & ? & ? & ?). by exists a, b. Qed.

Lemma friends_are_users_spec d :
  friends_are_users d = true →
  ∀ u x, x ∈ friends_of d u → is_Some (d !! x).
Proof.
  intros H u x Hin. unfold friends_of in Hin.
  destruct (d !! u) as [doc|] eqn:E; [|by apply not_elem_of_nil in Hin].
  simpl in Hin. unfold friends_are_users in H. rewrite forallb_forall in H.
  specialize (H (u, doc)). simpl in H.
  assert (Hd : In (u, doc) (map_to_list d))
    by by apply list_elem_of_In, elem_of_map_to_list.
  specialize (H Hd). rewrite forallb_forall in H.
  apply list_elem_of_In, H in Hin. by apply bool_decide_eq_true in Hin.
Qed.

Section facts.

Variable ObjectId : string → option user_id.

Lemma cast_key d u : is_Some (d !! u) → cast ObjectId d u = Some u.
Proof. intros [doc H]. unfold cast. by rewrite H. Qed.

(** X27. When [POST /chat/:userId] succeeds, [:userId] is a string other
    than the caller's id and is cast to an id [other]; the chat returned
    is not a group chat, is stored and holds the caller and [other]; it
    was there before, or [:userId] is, as spelled, among the caller's
    friends and the chat is a new one of the two. Asking again returns
    that same chat and stores nothing; so does [other] asking for the
    caller, when the two differ and the caller is a user of the store. *)
Theorem a_chat_is_opened_once (me : user_id) (userId : string) (ok : bool)
    (st : store) (c : chat) (st1 : store) :
  open_chat ObjectId me userId ok st = (Response 200 "", Some c, st1) →
  ∃ other,
    cast ObjectId (users st) userId = Some other ∧
    userId ≠ me ∧
    direct_between me other c = true ∧
    c ∈ chats st1 ∧
    (c ∈ chats st ∨
     userId ∈ friends_of (users st) me ∧ participants c = [me; other]) ∧
    (∀ ok', open_chat ObjectId me userId ok' st1 =
            (Response 200 "", Some c, st1)) ∧
    (other ≠ me → is_Some (users st !! me) →
     ∀ ok', open_chat ObjectId other me ok' st1 =
            (Response 200 "", Some c, st1)).
Proof.
  intros H. unfold open_chat in H.
  case_bool_decide as Hne; [done|].
  destruct (cast ObjectId (users st) userId) as [other|] eqn:Hcast; [|done].
  exists other. split; [done|]. split; [done|].
  assert (Hfound : findOne (direct_between me other) (chats st1) = Some c ∧
                   users st1 = users st ∧
                   (c ∈ chats st ∨
                    userId ∈ friends_of (users st) me ∧
                    participants c = [me; other])).
  { destruct (findOne _ (chats st)) as [c0|] eqn:Hfind.
    - injection H as <- <-. split; [done|]. split; [done|]. left.
      by apply find_some_spec in Hfind as [? _].
    - destruct (users st !! me) as [currentUser|] eqn:Hme; [|done].
      destruct (has userId (friends currentUser)) eqn:Hf; simpl in H; [|done].
      destruct ok; simpl in H; [|done]. injection H as <- <-. simpl. split.
      + apply findOne_snoc; [done|]. unfold direct_between. simpl.
        rewrite !bool_decide_eq_true_2; [done|right; left|left].
      + split; [done|]. right. split; [|done].
        unfold friends_of. rewrite Hme. simpl. by apply has_spec. }
  destruct Hfound as (Hfind & Husers & Hwhy).
  destruct (find_some_spec _ _ _ Hfind) as [Hin Hd].
  split; [done|]. split; [done|]. split; [done|]. split.
  - intros ok'. unfold open_chat.
    rewrite bool_decide_eq_false_2 by done.
    by rewrite Husers, Hcast, Hfind.
  - intros Hom Hme ok'. unfold open_chat.
    rewrite bool_decide_eq_false_2 by done.
    by rewrite Husers, (cast_key _ _ Hme), findOne_sym, Hfind.
Qed.

(** ** One chat for a pair *)

Lemma open_chat_tidy me userId ok st :
  tidy st → tidy (snd (open_chat ObjectId me userId ok st)).
Proof.
  intros [Hd Hids Hone Hfr]. unfold open_chat.
  case_bool_decide as Hne; [by split|].
  destruct (cast ObjectId (users st) userId) as [other|] eqn:Hcast;
    [|by split].
  destruct (findOne _ (chats st)) as [c0|] eqn:Hfind; [by split|].
  destruct (users st !! me) as [currentUser|] eqn:Hme; [|by split].
  destruct (has userId (friends currentUser)) eqn:Hf; simpl; [|by split].
  destruct ok; simpl; [|by split].
  assert (Hother : other = userId).
  { apply has_spec in Hf.
    assert (Hu : is_Some (users st !! userId)).
    { apply (Hfr me). unfold friends_of. by rewrite Hme. }
    rewrite (cast_key _ _ Hu) in Hcast. congruence. }
  subst other.
  set (nc := Chat (fresh_id (chats st)) [me; userId] false).
  assert (Hnone : ∀ c, c ∈ chats st → ¬ same_pair c nc).
  { intros c Hin Hsp%same_pair_new.
    pose proof (find_none_spec _ _ _ Hfind Hin). congruence. }
  split; simpl.
  - intros c [Hin| ->%list_elem_of_singleton]%elem_of_app; [by apply Hd|].
    by exists me, userId.
  - rewrite fmap_app. apply NoDup_app. split; [done|]. split.
    + intros x (c & -> & Hin)%list_elem_of_fmap Hx. simpl in Hx.
      apply list_elem_of_singleton in Hx.
      pose proof (fresh_id_above _ _ Hin). lia.
    + apply NoDup_singleton.
  - intros i j c1 c2 Hi Hj Hsp.
    apply lookup_snoc_Some in Hi as [(Hi & Hc1)|(Hi & <-)];
      apply lookup_snoc_Some in Hj as [(Hj & Hc2)|(Hj & <-)].
    + by eapply Hone.
    + exfalso. eapply Hnone; [|done]. by eapply list_elem_of_lookup_2.
    + exfalso. eapply Hnone; [|by apply same_pair_sym].
      by eapply list_elem_of_lookup_2.
    + lia.
  - done.
Qed.

Lemma friends_handle_users c d :
  (∀ u x, x ∈ friends_of d u → is_Some (d !! x)) →
  ∀ u x, x ∈ friends_of (snd (fst (Friends.handle ObjectId c d))) u →
         is_Some (snd (fst (Friends.handle ObjectId c d)) !! x).
Proof.
  intros Hfr u x. rewrite handle_users.
  destruct (Friends.handle ObjectId c d) as [[r d'] n] eqn:H. cbn [fst snd].
  destruct c as [me y o1 o2|me y o1 o2|me y o1 o2|me y o1 o2];
    cbn [Friends.handle] in H.
  - apply request_cases in H as [(-> & _)|(t & H)]; [apply Hfr|].
    destruct H as (_ & _ & _ & _ & _ & _ & _ & _ & [Hf _ _] & _).
    rewrite Hf. apply Hfr.
  - apply accept_cases in H as [(-> & _)|(t & H)]; [apply Hfr|].
    destruct H as (_ & Ht & Hme & _ & _ & [Hf _ _]).
    rewrite Hf. unfold at_user, same.
    destruct o2; unfold at_user; repeat case_decide;
      rewrite ?elem_of_app, ?list_elem_of_singleton;
      intros; destruct_or?; subst; by eauto.
  - apply decline_cases in H as [(-> & _)|(_ & [Hf _ _])]; [apply Hfr|].
    rewrite Hf. apply Hfr.
  - apply remove_cases in H as [(-> & _)|(t & H)]; [apply Hfr|].
    destruct H as (_ & _ & _ & [Hf _ _]). rewrite Hf.
    repeat case_match; rewrite ?elem_of_without; intros;
      destruct_and?; by eauto.
Qed.

Lemma handle_tidy c st : tidy st → tidy (handle ObjectId c st).
Proof.
  destruct c as [c|me other ok]; cbn [handle].
  - intros [Hd Hids Hone Hfr]. split; [done|done|done|].
    cbn [users]. by apply friends_handle_users.
  - apply open_chat_tidy.
Qed.

Lemma run_tidy cs : ∀ st, tidy st → tidy (run ObjectId st cs).
Proof.
  induction cs as [|c cs IH]; intros st Ht; [done|].
  cbn [run]. by apply IH, handle_tidy.
Qed.

(** X28. Starting without chats, in a store where everybody's friends
    are users of the store, after any requests to the friends routes and
    to [/chat/:userId], served one after the other, however they spell
    the ids they name and whichever saves failed: chat ids are distinct,
    every chat has two different participants and is not a group chat,
    and no two chats are for the same pair of users. *)
Theorem one_chat_for_a_pair (d : db) (cs : list call) :
  friends_are_users d = true →
  let st' := run ObjectId (Store d []) cs in
  NoDup (chat_id <$> chats st') ∧
  (∀ c, c ∈ chats st' →
        ∃ a b, a ≠ b ∧ participants c = [a; b] ∧ isGroupChat c = false) ∧
  (∀ i j c1 c2,
     chats st' !! i = Some c1 → chats st' !! j = Some c2 →
     same_pair c1 c2 → i = j).
Proof.
  intros Hd st'.
  assert (Ht : tidy (Store d [])).
  { split; simpl.
    - by intros c ?%not_elem_of_nil.
    - constructor.
    - intros i j c1 c2 Hi. by rewrite lookup_nil in Hi.
    - by apply friends_are_users_spec. }
  by destruct (run_tidy cs _ Ht) as [H2 H3 H4 _].
Qed.

End facts.

Lemma a_chat_is_opened_once_witness :
  let a := "64b7f0a1c2d3e4f5a6b7c8d9" in
  let b := "64b7f0a1c2d3e4f5a6b7c8da" in
  let d : db := {[ a := UserDoc "alice" "Alice" [b] [] [];
                   b := UserDoc "bob" "Bob" [] [] [] ]} in
  let st := Store d [] in
  let c := Chat 1 [a; b] false in
  let st1 := Store d [c] in
  open_chat hex_id a b true st = (Response 200 "", Some c, st1) ∧
  open_chat hex_id b a false st1 = (Response 200 "", Some c, st1).
Proof.
  intros a b d st c st1.
  assert (H : open_chat hex_id a b true st = (Response 200 "", Some c, st1))
    by reflexivity.
  split; [exact H|].
  destruct (a_chat_is_opened_once hex_id a b true st c st1 H)
    as (other & Hc & _ & _ & _ & _ & _ & H').
  assert (Hc' : cast hex_id (users st) b = Some b) by reflexivity.
  rewrite Hc' in Hc. injection Hc as <-. apply H'; [done|by eexists].
Defined.

(** Naming oneself in another spelling gets past the check for a chat
    with oneself: the query then asks for a chat that holds the caller,
    and answers with the first there is. *)
Example a_chat_with_oneself :
  let a := "64b7f0a1c2d3e4f5a6b7c8d9" in
  let b := "64b7f0a1c2d3e4f5a6b7c8da" in
  let d : db := {[ a := UserDoc "alice" "Alice" [b] [] [];
                   b := UserDoc "bob" "Bob" [a] [] [] ]} in
  let c := Chat 1 [a; b] false in
  let st := Store d [c] in
  open_chat hex_id a "64B7F0A1C2D3E4F5A6B7C8D9" true st =
    (Response 200 "", Some c, st).
Proof. by vm_compute. Qed.

Lemma one_chat_for_a_pair_witness :
  let a := "64b7f0a1c2d3e4f5a6b7c8d9" in
  let b := "64b7f0a1c2d3e4f5a6b7c8da" in
  let d : db := {[ a := UserDoc "alice" "Alice" [] [] [];
                   b := UserDoc "bob" "Bob" [] [] [] ]} in
  let cs := [FriendsCall (Request a b true true);
             OpenChat a b true;
             FriendsCall (Accept b a true true);
             OpenChat a "64B7F0A1C2D3E4F5A6B7C8DA" true;
             OpenChat a b true; OpenChat b a true;
             OpenChat b "64B7F0A1C2D3E4F5A6B7C8DA" true;
             FriendsCall (Remove a a true true);
             FriendsCall (Remove a b true true);
             OpenChat a b false] in
  let st' := run hex_id (Store d []) cs in
  chats st' = [Chat 1 [a; b] false] ∧
  NoDup (chat_id <$> chats st').
Proof.
  intros a b d cs st'. split; [reflexivity|].
  apply (one_chat_for_a_pair hex_id d cs). reflexivity.
Defined.

End ChatsFacts.
